(** * web_voice: the PCM encoder worker, the recorder and the RecordTranscribe session

    A shallow embedding of [src/web_voice.js] and of [audio_recorder.js]
    (the encoder worker [pcm_s16leEncoder] and the [MediaRecorder] class).

    The model comes first:
    - [Encoder]: the worker's [encode], [dump] and [end] commands over the
      worker state ([buffers], [initialZeros]), and its [onmessage].
    - [Js]: the few JavaScript values the session touches (strings as UTF-16
      code units, JSON values, exceptions).
    - [Session]: the [RecordTranscribe] class, its handlers written in a
      state-and-exception monad over the object, the module-level flag
      [recordTranscribeActive] and the log of calls made to the browser;
      several sessions in one page.
    - [Recorder]: the [MediaRecorder] class, its [start], [stop], audio
      handler and timer, and the messages it posts to the worker.

    The properties follow, in [EncoderProofs], [SessionProofs] and
    [RecorderProofs]. *)

From Stdlib Require Import ZArith QArith Qround String Ascii List Lia Bool.
From Stdlib Require Import DecimalString.
From stdpp Require Import base list gmap.
From Equations Require Import Equations.
Import ListNotations.
Close Scope Q_scope.
Set Warnings "-register-all".

(* ===================================================================== *)
(** * The encoder worker: [pcm_s16leEncoder]                              *)
(* ===================================================================== *)

Module Encoder.

(** A JavaScript number as the encoder meets it: the exact value of a finite
    float, or one of the three non-finite values. A [Float32Array] element
    times 32768 is exact in double precision (a power of two, no overflow),
    so the product is taken in [Q]. *)
Inductive number :=
| Num (q : Q)
| Infinity
| NegInfinity
| NaN.

(** [x * 32768] for a sample [x]. *)
Definition times32768 (x : number) : number :=
  match x with
  | Num q => Num (q * 32768)%Q
  | other => other
  end.

(** [Math.floor]. *)
Definition Math_floor (x : number) : number :=
  match x with
  | Num q => Num (inject_Z (Qfloor q))
  | other => other
  end.

(** [Math.min(a, b)]: [NaN] if either is [NaN]. *)
Definition Math_min (a b : number) : number :=
  match a, b with
  | NaN, _ | _, NaN => NaN
  | NegInfinity, _ | _, NegInfinity => NegInfinity
  | Infinity, x | x, Infinity => x
  | Num p, Num q => if Qle_bool p q then Num p else Num q
  end.

(** [Math.max(a, b)]. *)
Definition Math_max (a b : number) : number :=
  match a, b with
  | NaN, _ | _, NaN => NaN
  | Infinity, _ | _, Infinity => Infinity
  | NegInfinity, x | x, NegInfinity => x
  | Num p, Num q => if Qle_bool p q then Num q else Num p
  end.

(** [Math.max(-32768, Math.min(32767, Math.floor(buffer[i] * 32768)))]. *)
Definition sample_of (x : number) : number :=
  Math_max (Num (-32768)) (Math_min (Num 32767) (Math_floor (times32768 x))).

(** The integer part of a rational, rounding toward zero. *)
Definition Qtruncate (q : Q) : Z := Z.quot (Qnum q) (Zpos (Qden q)).

(** ECMAScript's ToInt16 up to the sign: the integer part modulo 2^16
    (non-finite values and NaN give 0). *)
Definition ToUint16 (x : number) : Z :=
  match x with
  | Num q => (Qtruncate q mod 65536)%Z
  | _ => 0%Z
  end.

(** A [Uint8Array]: its bytes, each in [0, 256). *)
Abbreviation bytes := (list Z).

(** [view.setInt16(byteOffset, value, true)]: the two bytes of the 16-bit
    two's complement of [value], low byte first. The offsets the encoder
    uses are inside the array. *)
Definition setInt16 (view : bytes) (byteOffset : nat) (value : number) : bytes :=
  let w := ToUint16 value in
  <[S byteOffset := (w / 256)%Z]> (<[byteOffset := (w mod 256)%Z]> view).

(** [view.getInt16(byteOffset)]: no endianness argument, so the two bytes are
    read high byte first, as a signed 16-bit integer. *)
Definition getInt16 (view : bytes) (byteOffset : nat) : Z :=
  let w := (default 0 (view !! byteOffset) * 256 + default 0 (view !! S byteOffset))%Z in
  if (32768 <=? w)%Z then (w - 65536)%Z else w.

(** The [for] loop of [encode]: sample [i] of the block goes to bytes
    [2i], [2i+1]. [samples] is what is left of the block from index [i]. *)
Fixpoint fill (samples : list number) (i : nat) (view : bytes) : bytes :=
  match samples with
  | [] => view
  | x :: rest => fill rest (S i) (setInt16 view (i * 2) (sample_of x))
  end.

(** The [while] loop of [encode]:
    [while (i < length && view.getInt16(i * 2) == 0) i++].
    It increments [i] at most [length - i] times; [fuel] bounds that. *)
Fixpoint skip_zeros (view : bytes) (length i fuel : nat) : nat :=
  match fuel with
  | O => i
  | S fuel' =>
      if (i <? length)%nat && (getInt16 view (i * 2) =? 0)%Z
      then skip_zeros view length (S i) fuel'
      else i
  end.

(** The worker's two variables. *)
Record state := {
  buffers : list bytes;
  initialZeros : bool;
}.

Definition init : state := {| buffers := []; initialZeros := true |}.

(** [encode(buffer, removeInitialZeros)]. The assignment
    [buffer = buffer.slice(i)] rebinds the parameter, which is not read
    again: [array] is pushed whole. *)
Definition encode (st : state) (buffer : list number) (removeInitialZeros : bool) : state :=
  let length := length buffer in
  let array := fill buffer 0 (replicate (length * 2) 0%Z) in
  if removeInitialZeros && initialZeros st then
    let i := skip_zeros array length 0 length in
    if (i =? length)%nat then st
    else
      let buffer := if (0 <? i)%nat then drop i buffer else buffer in
      {| buffers := buffers st ++ [array]; initialZeros := false |}
  else {| buffers := buffers st ++ [array]; initialZeros := initialZeros st |}.

(** The inner [while] of [dump], from [buffersPos + numBuffers] on: [rest]
    is [buffers] from that index. Returns [numBuffers] and [length]. *)
Fixpoint group_scan (maxOutputSize : Z) (rest : list bytes) (numBuffers length : nat)
  : nat * nat :=
  match rest with
  | [] => (numBuffers, length)
  | buffer :: rest' =>
      if (0 <? numBuffers)%nat
         && (maxOutputSize <? Z.of_nat (length + List.length buffer))%Z
      then (numBuffers, length)
      else group_scan maxOutputSize rest' (S numBuffers) (length + List.length buffer)
  end.

(** [array.set(source, offset)], for a source that fits. *)
Definition array_set (array source : bytes) (offset : nat) : bytes :=
  take offset array ++ source ++ drop (offset + List.length source) array.

(** The copying [for] loop of [dump] over the group's buffers. *)
Fixpoint copy_group (group : list bytes) (array : bytes) (offset : nat) : bytes :=
  match group with
  | [] => array
  | buffer :: rest => copy_group rest (array_set array buffer offset) (offset + List.length buffer)
  end.

(** One pass of the outer [while] of [dump] at [buffersPos] ([bufs] is the
    worker's [buffers]): the frame it pushes and the number of buffers it
    consumed. *)
Definition next_frame (maxOutputSize : Z) (bufs : list bytes) (buffersPos : nat)
  : bytes * nat :=
  let '(numBuffers, length) := group_scan maxOutputSize (drop buffersPos bufs) 0 0 in
  (copy_group (take numBuffers (drop buffersPos bufs)) (replicate length 0%Z) 0,
   numBuffers).

(** The outer [while (buffersPos < buffers.length)] of [dump]: the frames
    pushed from [buffersPos] on. *)
Equations? dump_loop (maxOutputSize : Z) (bufs : list bytes) (buffersPos : nat)
  : list bytes by wf (List.length bufs - buffersPos)%nat lt :=
dump_loop maxOutputSize bufs buffersPos with decide (buffersPos < List.length bufs)%nat => {
  | left _ =>
      (next_frame maxOutputSize bufs buffersPos).1
      :: dump_loop maxOutputSize bufs
           (buffersPos + (next_frame maxOutputSize bufs buffersPos).2);
  | right _ => [] }.
Proof.
  assert (forall rest n len, (n <= (group_scan maxOutputSize rest n len).1)%nat) as Hgrow.
  { induction rest as [|b rest IH]; intros n len; simpl; [lia|].
    destruct (_ && _); simpl; [lia|].
    specialize (IH (S n) (len + List.length b)%nat). lia. }
  assert (1 <= (next_frame maxOutputSize bufs buffersPos).2)%nat.
  { unfold next_frame. destruct (drop buffersPos bufs) as [|b rest] eqn:E.
    - apply (f_equal List.length) in E. rewrite length_drop in E. simpl in E. lia.
    - pose proof (Hgrow rest 1%nat (0 + List.length b)%nat) as H.
      simpl. destruct (group_scan _ rest _ _). exact H. }
  lia.
Qed.

(** [dump(maxOutputSize, removeInitialZeros)]: the frames returned and the
    worker state left behind. *)
Definition dump (st : state) (maxOutputSize : Z) (removeInitialZeros : bool)
  : list bytes * state :=
  let outputBuffers := dump_loop maxOutputSize (buffers st) 0 in
  let outputBuffers :=
    if (List.length outputBuffers =? 0)%nat && removeInitialZeros && initialZeros st
    then outputBuffers ++ [[]]
    else outputBuffers in
  (outputBuffers, {| buffers := []; initialZeros := initialZeros st |}).

(** The ["end"] command. *)
Definition end_ (st : state) : state := {| buffers := []; initialZeros := true |}.

(** The worker's [onmessage]: commands in, posted messages out. *)
Inductive command :=
| CmdEncode (buffer : list number) (removeInitialZeros : bool)
| CmdDump (maxOutputSize : Z) (removeInitialZeros : bool)
| CmdEnd.

Inductive posted :=
| PostData (buf : bytes)
| PostEnd.

Definition onmessage (st : state) (cmd : command) : list posted * state :=
  match cmd with
  | CmdEncode buffer riz => ([], encode st buffer riz)
  | CmdDump maxOutputSize riz =>
      let '(outputBuffers, st') := dump st maxOutputSize riz in
      (map PostData outputBuffers, st')
  | CmdEnd => ([PostEnd], end_ st)
  end.

(** ** Vocabulary of the encoder's properties *)

(** The two bytes [setInt16] writes for a sample. *)
Definition le16 (x : number) : bytes :=
  let w := ToUint16 (sample_of x) in [(w mod 256)%Z; (w / 256)%Z].

(** The sample's 16-bit value is zero. *)
Definition zero_sample (x : number) : bool := (ToUint16 (sample_of x) =? 0)%Z.

(** The 16-bit sample the code computes for a finite amplitude [q]: the
    product is floored, then clamped. *)
Definition clamp16 (z : Z) : Z := Z.max (-32768) (Z.min 32767 z).

Definition floor_sample16 (q : Q) : Z := clamp16 (Qfloor (q * 32768)).

(** A signed 16-bit integer in two's complement, low byte first. *)
Definition int16_le (z : Z) : bytes := [(z mod 256)%Z; ((z / 256) mod 256)%Z].

(** "round" as the specification words it: to the nearest integer, a half
    going up, as [Math.round] does. *)
Definition spec_round (q : Q) : Z := Qfloor (q + (1 # 2)).

(** The specification's sample: [clamp(round(x * 32768), -32768, 32767)]. *)
Definition spec_sample16 (q : Q) : Z := clamp16 (spec_round (q * 32768)).


(** ** Streams of blocks and of worker messages *)

(** [encode] on each block of a stream, in order, with one flag. *)
Definition encode_all (st : state) (blocks : list (list number)) (removeInitialZeros : bool)
  : state :=
  fold_left (fun st buffer => encode st buffer removeInitialZeros) blocks st.

(** The worker over a sequence of messages: what it posts, in order, and the
    state it is left in. *)
Fixpoint run_worker (st : state) (cmds : list command) : list posted * state :=
  match cmds with
  | [] => ([], st)
  | cmd :: rest =>
      let '(out, st') := onmessage st cmd in
      let '(outs, st'') := run_worker st' rest in
      (out ++ outs, st'')
  end.

(** The bytes of the ["data"] messages of a sequence of posts. *)
Definition data_bytes (out : list posted) : bytes :=
  flat_map (fun p => match p with PostData buf => buf | PostEnd => [] end) out.

(** The bytes of the samples a sequence of messages asks to encode. *)
Definition encoded_bytes (cmds : list command) : bytes :=
  flat_map (fun c => match c with CmdEncode buffer _ => flat_map le16 buffer | _ => [] end) cmds.

(** An ["encode"] without [removeInitialZeros], or a ["dump"]. *)
Definition keeps_samples (c : command) : bool :=
  match c with
  | CmdEncode _ removeInitialZeros => negb removeInitialZeros
  | CmdDump _ _ => true
  | CmdEnd => false
  end.

(** Every sample of the block has the 16-bit value zero. *)
Definition silent (buffer : list number) : bool := forallb zero_sample buffer.

(** A byte. *)
Definition is_byte (b : Z) : Prop := (0 <= b < 256)%Z.

End Encoder.

(* ===================================================================== *)
(** * JavaScript values                                                   *)
(* ===================================================================== *)

Module Js.

(** A string is its sequence of UTF-16 code units. *)
Abbreviation jsstring := (list N).

(** A string literal of the source (ASCII). *)
Definition js (s : string) : jsstring := map N_of_ascii (list_ascii_of_string s).
Arguments js s%_string : simpl never.

(** String conversion of a non-negative integer: its decimal digits. *)
Definition Number_toString (n : N) : jsstring :=
  js (NilZero.string_of_uint (N.to_uint n)).

(** What [JSON.parse] returns. *)
Inductive json :=
| JNull
| JBool (b : bool)
| JNum (q : Q)
| JStr (s : jsstring)
| JArr (items : list json)
| JObj (props : list (jsstring * json)).

(** A value read from a parsed message: [None] is [undefined]. *)
Abbreviation value := (option json).

(** What a [throw] or a failing built-in raises. *)
Inductive Exn :=
| TypeError
| SyntaxError
| Thrown (msg : jsstring).

Inductive Outcome (A : Type) :=
| Return (a : A)
| Throw (e : Exn).
Arguments Return {A} a.
Arguments Throw {A} e.

#[global] Instance Outcome_ret : MRet Outcome := @Return.
#[global] Instance Outcome_bind : MBind Outcome :=
  fun A B f m => match m with Return a => f a | Throw e => Throw e end.

(** An own property of an object, by key. *)
Fixpoint own_property (props : list (jsstring * json)) (key : jsstring) : value :=
  match props with
  | [] => None
  | (k, v) :: rest => if bool_decide (k = key) then Some v else own_property rest key
  end.

(** [x.key] for the keys the source reads ([fw], [nfw], [spks], [fpt],
    [tpt], [t], [s], [d], [spk], [nm]): a [TypeError] on [null], the own
    property of an object, [undefined] on any other value (no prototype
    defines one of these names). *)
Definition getprop (x : json) (key : jsstring) : Outcome value :=
  match x with
  | JNull => Throw TypeError
  | JObj props => Return (own_property props key)
  | _ => Return None
  end.

(** [Object.prototype.hasOwnProperty.call(x, key)] for the same keys. *)
Definition hasOwnProperty (x : json) (key : jsstring) : Outcome bool :=
  match x with
  | JNull => Throw TypeError
  | JObj props => Return (bool_decide (is_Some (own_property props key)))
  | _ => Return false
  end.

(** The elements [x.forEach(f)] visits: [x] has to be an array; on any other
    parsed value [forEach] is [undefined] or not a function, a [TypeError]. *)
Definition forEach_items (x : value) : Outcome (list json) :=
  match x with
  | Some (JArr items) => Return items
  | _ => Throw TypeError
  end.

(** Running [f] on each element in order, up to the first exception. *)
Fixpoint forEach {A} (f : json -> Outcome A) (items : list json) : Outcome (list A) :=
  match items with
  | [] => Return []
  | x :: rest =>
      a ← f x;
      r ← forEach f rest;
      Return (a :: r)
  end.

(** The key comparison of a [Map]: primitives by value; two arrays or
    objects of a parsed message are never the same object. *)
Definition SameValueZero (a b : value) : bool :=
  match a, b with
  | None, None => true
  | Some JNull, Some JNull => true
  | Some (JBool x), Some (JBool y) => eqb x y
  | Some (JNum x), Some (JNum y) => Qeq_bool x y
  | Some (JStr x), Some (JStr y) => bool_decide (x = y)
  | _, _ => false
  end.

(** [map.set(key, v)] on a [Map] kept in insertion order. *)
Fixpoint Map_set {V} (m : list (value * V)) (key : value) (v : V) : list (value * V) :=
  match m with
  | [] => [(key, v)]
  | (k, old) :: rest =>
      if SameValueZero k key then (k, v) :: rest else (k, old) :: Map_set rest key v
  end.

(** [Math.round] on a finite number: the nearest integer, a half going up. *)
Definition Math_round (x : Q) : Z := Qfloor (x + (1 # 2)).

End Js.

(* ===================================================================== *)
(** * The session: [RecordTranscribe]                                     *)
(* ===================================================================== *)

Module Session.
Import Js.

Definition DefaultWebSocketUri : jsstring := js "wss://api.soniox.com/transcribe-websocket".
Definition RecorderTimeSlice_ms : Z := 120.
Definition MaxOutputSize_B : Z := 60000.

(** ** [StatusMessageRegex]: the pattern "^<([a-zA-Z0-9_\-]+)> *(G)$", where
    the group G is "([^ ]|$).*" *)

Definition in_range (lo hi c : N) : bool := (lo <=? c)%N && (c <=? hi)%N.

(** The class of tag characters: letters, digits, underscore, hyphen. *)
Definition isTagChar (c : N) : bool :=
  in_range 97 122 c || in_range 65 90 c || in_range 48 57 c || (c =? 95)%N || (c =? 45)%N.

(** The characters [.] does not match: LF, CR, U+2028, U+2029. *)
Definition isLineTerminator (c : N) : bool :=
  (c =? 10)%N || (c =? 13)%N || (c =? 8232)%N || (c =? 8233)%N.

Definition isSpace (c : N) : bool := (c =? 32)%N.

(** The longest prefix of characters satisfying [p], and the rest. *)
Fixpoint span (p : N -> bool) (s : jsstring) : jsstring * jsstring :=
  match s with
  | c :: rest => if p c then let '(a, b) := span p rest in (c :: a, b) else ([], s)
  | [] => ([], [])
  end.

(** [StatusMessageRegex.exec(reason)]: groups 1 and 2 of the match, if any.
    Each greedy loop is followed by a character outside its class, so the
    first attempt of the backtracking matcher is the only one that can
    succeed: after [<], the longest run of tag characters (not empty), then
    [>], then every space; what is left is group 2, which is empty or
    starts with a non-space and goes on without line terminator. *)
Definition StatusMessageRegex_exec (reason : jsstring) : option (jsstring * jsstring) :=
  match reason with
  | c :: s1 =>
      if (c =? 60)%N then
        let '(tag, s2) := span isTagChar s1 in
        match tag, s2 with
        | _ :: _, c2 :: s3 =>
            if (c2 =? 62)%N then
              let message := (span isSpace s3).2 in
              match message with
              | [] => Some (tag, [])
              | _ :: rest =>
                  if forallb (fun c => negb (isLineTerminator c)) rest
                  then Some (tag, message)
                  else None
              end
            else None
        | _, _ => None
        end
      else None
  | [] => None
  end.

(** ** States *)

Inductive State :=
| Init
| RequestingMedia
| OpeningWebSocket
| Running
| FinishingRecording
| FinishingProcessing
| FinishingEarly
| Finished
| Error
| Canceled.

#[global] Instance State_eq_dec : EqDecision State.
Proof. solve_decision. Defined.

Definition ToUserStateMap (state : State) : jsstring :=
  match state with
  | Init => js "Init"
  | RequestingMedia => js "Starting"
  | OpeningWebSocket => js "Starting"
  | Running => js "Running"
  | FinishingRecording => js "Finishing"
  | FinishingProcessing => js "Finishing"
  | FinishingEarly => js "Finishing"
  | Finished => js "Finished"
  | Error => js "Error"
  | Canceled => js "Canceled"
  end.

Definition isInactiveState (state : State) : bool :=
  bool_decide (state = Init) || bool_decide (state = Finished)
  || bool_decide (state = Error) || bool_decide (state = Canceled).

Definition isWebSocketState (state : State) : bool :=
  bool_decide (state = OpeningWebSocket) || bool_decide (state = Running)
  || bool_decide (state = FinishingRecording) || bool_decide (state = FinishingProcessing).

(** ** Words and results *)

Record Word := {
  text : value;
  start_ms : value;
  duration_ms : value;
  speaker : value;
  is_final : bool;
}.

(** An entry of the speakers map: [{ speaker, name }]. *)
Record Speaker := {
  speaker_id : value;
  name : value;
}.

Record Result := {
  words : list Word;
  final_proc_time_ms : value;
  total_proc_time_ms : value;
  speakers : list (value * Speaker);
}.

Definition wordFromJson (jsWord : json) (isFinal : bool) : Outcome Word :=
  t ← getprop jsWord (js "t");
  s ← getprop jsWord (js "s");
  d ← getprop jsWord (js "d");
  spk ← getprop jsWord (js "spk");
  Return {| text := t; start_ms := s; duration_ms := d; speaker := spk; is_final := isFinal |}.

(** The fold of [response.spks.forEach(...)] into the new [Map]. *)
Fixpoint speakers_of (items : list json) (m : list (value * Speaker))
  : Outcome (list (value * Speaker)) :=
  match items with
  | [] => Return m
  | jsSpeaker :: rest =>
      spk ← getprop jsSpeaker (js "spk");
      nm ← getprop jsSpeaker (js "nm");
      speakers_of rest (Map_set m spk {| speaker_id := spk; name := nm |})
  end.

Definition resultFromResponse (response : json) : Outcome Result :=
  fw ← getprop response (js "fw");
  fw_items ← forEach_items fw;
  finals ← forEach (fun jsWord => wordFromJson jsWord true) fw_items;
  nfw ← getprop response (js "nfw");
  nfw_items ← forEach_items nfw;
  nonfinals ← forEach (fun jsWord => wordFromJson jsWord false) nfw_items;
  has_spks ← hasOwnProperty response (js "spks");
  speakers ← (if has_spks : bool then
                 spks ← getprop response (js "spks");
                 spks_items ← forEach_items spks;
                 speakers_of spks_items []
               else Return []);
  fpt ← getprop response (js "fpt");
  tpt ← getprop response (js "tpt");
  Return {| words := finals ++ nonfinals;
            final_proc_time_ms := fpt;
            total_proc_time_ms := tpt;
            speakers := speakers |}.

Definition initialResult : Result :=
  {| words := [];
     final_proc_time_ms := Some (JNum 0);
     total_proc_time_ms := Some (JNum 0);
     speakers := [] |}.

(** The [while] loop of [_updateResult]:
    [while (words.length > 0 && !words[words.length - 1].is_final) words.pop()].
    Each pass pops one word; [fuel] bounds the passes. *)
Fixpoint pop_nonfinal (fuel : nat) (words : list Word) : list Word :=
  match fuel with
  | O => words
  | S fuel' =>
      match last words with
      | Some w => if negb (is_final w) then pop_nonfinal fuel' (removelast words) else words
      | None => words
      end
  end.

(** [_updateResult(newResult)] on the session's result. *)
Definition updateResult (result newResult : Result) : Result :=
  let words := pop_nonfinal (length (words result)) (words result) in
  let words := words ++ Session.words newResult in
  {| words := words;
     final_proc_time_ms := final_proc_time_ms newResult;
     total_proc_time_ms := total_proc_time_ms newResult;
     speakers := speakers newResult |}.

(** ** The object *)

(** Handles of the browser's objects. *)
Abbreviation MediaStream := nat.
Abbreviation callback := nat.

Inductive RecorderState :=
| inactive
| recording.

(** The recorder of [audio_recorder.js], as far as the session sees it. *)
Record MediaRecorder := {
  streamOrElemSource : MediaStream;
  state : RecorderState;
}.

Record WebSocket := {
  url : jsstring;
}.

(** What [webSocket.send] is given: a string, or a frame of bytes. *)
Inductive Payload :=
| Text (s : jsstring)
| Binary (data : list Z).

(** The members the setters write, frozen once [start()] has run. *)
Record Options := {
  _apiKey : option jsstring;
  _includeNonFinal : bool;
  _enableEndpointDetection : bool;
  _speechContext : json;
  _enableStreamingSpeakerDiarization : bool;
  _enableGlobalSpeakerDiarization : bool;
  _minNumSpeakers : Z;
  _maxNumSpeakers : Z;
  _enableSpeakerIdentification : bool;
  _candSpeakerNames : list jsstring;
  _enableProfanityFilter : bool;
  _contentModerationPhrases : list jsstring;
  _model : jsstring;
  _enableDictation : bool;
  _onStarted : option callback;
  _onPartialResult : option callback;
  _onFinished : option callback;
  _onError : option callback;
  _webSocketUri : jsstring;
}.

(** A [RecordTranscribe] object: its options and the members the handlers
    write. The two bound listeners [_mediaRecorderOnData] and
    [_mediaRecorderOnEnd] are set and cleared together with
    [_mediaRecorder] and are not kept apart from it. *)
Record RecordTranscribe := {
  options : Options;
  _state : State;
  _stream : option MediaStream;
  _mediaRecorder : option MediaRecorder;
  _webSocket : option WebSocket;
  _result : Result;
  _queuedMessages : option (list (list Z));
}.

(** The constructor (on a supported browser). *)
Definition new_RecordTranscribe : RecordTranscribe :=
  {| options :=
       {| _apiKey := None;
          _includeNonFinal := false;
          _enableEndpointDetection := false;
          _speechContext := JObj [];
          _enableStreamingSpeakerDiarization := false;
          _enableGlobalSpeakerDiarization := false;
          _minNumSpeakers := 0;
          _maxNumSpeakers := 0;
          _enableSpeakerIdentification := false;
          _candSpeakerNames := [];
          _enableProfanityFilter := false;
          _contentModerationPhrases := [];
          _model := [];
          _enableDictation := false;
          _onStarted := None;
          _onPartialResult := None;
          _onFinished := None;
          _onError := None;
          _webSocketUri := DefaultWebSocketUri |};
     _state := Init;
     _stream := None;
     _mediaRecorder := None;
     _webSocket := None;
     _result := initialResult;
     _queuedMessages := None |}.

Definition with_options (v : Options) (o : RecordTranscribe) : RecordTranscribe :=
  {| options := v; _state := _state o; _stream := _stream o;
     _mediaRecorder := _mediaRecorder o; _webSocket := _webSocket o;
     _result := _result o; _queuedMessages := _queuedMessages o |}.

Definition with_state (v : State) (o : RecordTranscribe) : RecordTranscribe :=
  {| options := options o; _state := v; _stream := _stream o;
     _mediaRecorder := _mediaRecorder o; _webSocket := _webSocket o;
     _result := _result o; _queuedMessages := _queuedMessages o |}.

Definition with_stream (v : option MediaStream) (o : RecordTranscribe) : RecordTranscribe :=
  {| options := options o; _state := _state o; _stream := v;
     _mediaRecorder := _mediaRecorder o; _webSocket := _webSocket o;
     _result := _result o; _queuedMessages := _queuedMessages o |}.

Definition with_mediaRecorder (v : option MediaRecorder) (o : RecordTranscribe)
  : RecordTranscribe :=
  {| options := options o; _state := _state o; _stream := _stream o;
     _mediaRecorder := v; _webSocket := _webSocket o;
     _result := _result o; _queuedMessages := _queuedMessages o |}.

Definition with_webSocket (v : option WebSocket) (o : RecordTranscribe) : RecordTranscribe :=
  {| options := options o; _state := _state o; _stream := _stream o;
     _mediaRecorder := _mediaRecorder o; _webSocket := v;
     _result := _result o; _queuedMessages := _queuedMessages o |}.

Definition with_result (v : Result) (o : RecordTranscribe) : RecordTranscribe :=
  {| options := options o; _state := _state o; _stream := _stream o;
     _mediaRecorder := _mediaRecorder o; _webSocket := _webSocket o;
     _result := v; _queuedMessages := _queuedMessages o |}.

Definition with_queuedMessages (v : option (list (list Z))) (o : RecordTranscribe)
  : RecordTranscribe :=
  {| options := options o; _state := _state o; _stream := _stream o;
     _mediaRecorder := _mediaRecorder o; _webSocket := _webSocket o;
     _result := _result o; _queuedMessages := v |}.

Definition with_apiKey (v : option jsstring) (p : Options) : Options :=
  {| _apiKey := v;
     _includeNonFinal := _includeNonFinal p;
     _enableEndpointDetection := _enableEndpointDetection p;
     _speechContext := _speechContext p;
     _enableStreamingSpeakerDiarization := _enableStreamingSpeakerDiarization p;
     _enableGlobalSpeakerDiarization := _enableGlobalSpeakerDiarization p;
     _minNumSpeakers := _minNumSpeakers p;
     _maxNumSpeakers := _maxNumSpeakers p;
     _enableSpeakerIdentification := _enableSpeakerIdentification p;
     _candSpeakerNames := _candSpeakerNames p;
     _enableProfanityFilter := _enableProfanityFilter p;
     _contentModerationPhrases := _contentModerationPhrases p;
     _model := _model p;
     _enableDictation := _enableDictation p;
     _onStarted := _onStarted p;
     _onPartialResult := _onPartialResult p;
     _onFinished := _onFinished p;
     _onError := _onError p;
     _webSocketUri := _webSocketUri p |}.

Definition with_onError (v : option callback) (p : Options) : Options :=
  {| _apiKey := _apiKey p;
     _includeNonFinal := _includeNonFinal p;
     _enableEndpointDetection := _enableEndpointDetection p;
     _speechContext := _speechContext p;
     _enableStreamingSpeakerDiarization := _enableStreamingSpeakerDiarization p;
     _enableGlobalSpeakerDiarization := _enableGlobalSpeakerDiarization p;
     _minNumSpeakers := _minNumSpeakers p;
     _maxNumSpeakers := _maxNumSpeakers p;
     _enableSpeakerIdentification := _enableSpeakerIdentification p;
     _candSpeakerNames := _candSpeakerNames p;
     _enableProfanityFilter := _enableProfanityFilter p;
     _contentModerationPhrases := _contentModerationPhrases p;
     _model := _model p;
     _enableDictation := _enableDictation p;
     _onStarted := _onStarted p;
     _onPartialResult := _onPartialResult p;
     _onFinished := _onFinished p;
     _onError := v;
     _webSocketUri := _webSocketUri p |}.

(** ** Calls out of the session, in the order they are made *)

Inductive Effect :=
| getUserMedia
| stopTracks (stream : MediaStream)
| recorder_addEventListeners
| recorder_removeEventListeners
| recorder_start (timeslice maxOutputSize : Z) (playBack removeInitialZeros : bool)
| recorder_stop
| recorder_terminateWorker
| new_WebSocket (uri : jsstring)
| webSocket_send (data : Payload)
| webSocket_close
| then_completeFinishingEarly
| console_error (msg : jsstring)
| call_onStarted (f : callback)
| call_onPartialResult (f : callback) (result : Result)
| call_onFinished (f : callback)
| call_onError (f : callback) (status message : jsstring).

(** ** The monad of a method call

    A method runs on [this], may write the module variable
    [recordTranscribeActive], reads the shared audio context's sample rate,
    and appends to the log of calls. An exception stops it and leaves
    everything as it was at the [throw]. *)

Record Env := {
  this : RecordTranscribe;
  recordTranscribeActive : bool;
  context_sampleRate : Q;
  effects : list Effect;
}.

Definition M (A : Type) : Type := Env -> Outcome A * Env.

#[global] Instance M_ret : MRet M := fun A a env => (Return a, env).
#[global] Instance M_bind : MBind M :=
  fun A B f m env =>
    match m env with
    | (Return a, env') => f a env'
    | (Throw e, env') => (Throw e, env')
    end.

Definition throw {A} (e : Exn) : M A := fun env => (Throw e, env).

Definition lift {A} (r : Outcome A) : M A := fun env => (r, env).

(** Reading a member of [this]. *)
Definition get {A} (member : RecordTranscribe -> A) : M A :=
  fun env => (Return (member (this env)), env).

(** Assigning a member of [this]. *)
Definition assign (update : RecordTranscribe -> RecordTranscribe) : M unit :=
  fun env =>
    (Return tt,
     {| this := update (this env);
        recordTranscribeActive := recordTranscribeActive env;
        context_sampleRate := context_sampleRate env;
        effects := effects env |}).

Definition get_active : M bool := fun env => (Return (recordTranscribeActive env), env).

Definition set_active (v : bool) : M unit :=
  fun env =>
    (Return tt,
     {| this := this env;
        recordTranscribeActive := v;
        context_sampleRate := context_sampleRate env;
        effects := effects env |}).

Definition emit (e : Effect) : M unit :=
  fun env =>
    (Return tt,
     {| this := this env;
        recordTranscribeActive := recordTranscribeActive env;
        context_sampleRate := context_sampleRate env;
        effects := effects env ++ [e] |}).

Definition skip : M unit := mret tt.

(** Running [f] on each element in order ([for] and [forEach] loops). *)
Fixpoint for_each {A} (f : A -> M unit) (items : list A) : M unit :=
  match items with
  | [] => skip
  | x :: rest => f x;; for_each f rest
  end.

(** ** The methods of [RecordTranscribe] *)

(** [this._mediaRecorder.start(timeslice, maxOutputSize, playBack,
    removeInitialZeros)]: fails on a recorder that is recording. *)
Definition mediaRecorder_start (timeslice maxOutputSize : Z) (playBack removeInitialZeros : bool)
  : M unit :=
  r ← get _mediaRecorder;
  match r with
  | None => throw TypeError
  | Some r =>
      match state r with
      | recording => throw (Thrown (js "recorder is active"))
      | inactive =>
          assign (with_mediaRecorder
                    (Some {| streamOrElemSource := streamOrElemSource r; state := recording |}));;
          emit (recorder_start timeslice maxOutputSize playBack removeInitialZeros)
      end
  end.

(** [this._mediaRecorder.stop()]: nothing on an inactive recorder. *)
Definition mediaRecorder_stop : M unit :=
  r ← get _mediaRecorder;
  match r with
  | None => throw TypeError
  | Some r =>
      match state r with
      | inactive => skip
      | recording =>
          assign (with_mediaRecorder
                    (Some {| streamOrElemSource := streamOrElemSource r; state := inactive |}));;
          emit recorder_stop
      end
  end.

(** [this._webSocket.send(data)]. *)
Definition webSocket_send_ (data : Payload) : M unit :=
  ws ← get _webSocket;
  match ws with
  | None => throw TypeError
  | Some _ => emit (webSocket_send data)
  end.

(** The guard every setter starts with. *)
Arguments webSocket_send_ : simpl never.

Definition setter (method : jsstring) (update : Options -> Options) : M unit :=
  st ← get _state;
  if negb (bool_decide (st = Init))
  then throw (Thrown (method ++ js "() may only be called before start()"))
  else assign (fun o => with_options (update (options o)) o).

Definition setApiKey (apiKey : option jsstring) : M unit :=
  setter (js "setApiKey") (with_apiKey apiKey).

Definition setOnError (onError : option callback) : M unit :=
  setter (js "setOnError") (with_onError onError).

Definition start : M unit :=
  st ← get _state;
  if negb (bool_decide (st = Init)) then throw (Thrown (js "start() may only be called once"))
  else
    active ← get_active;
    if active : bool
    then throw (Thrown (js "only one RecordTranscribe may be active at a time"))
    else
      apiKey ← get (fun o => _apiKey (options o));
      match apiKey with
      | None => throw (Thrown (js "API key not set, call setApiKey first"))
      | Some _ =>
          emit getUserMedia;;
          set_active true;;
          assign (with_state RequestingMedia)
      end.

Definition _stopTracks (stream : MediaStream) : M unit := emit (stopTracks stream).

Definition _closeWebSocket : M unit :=
  ws ← get _webSocket;
  match ws with
  | Some _ => emit webSocket_close;; assign (with_webSocket None)
  | None => skip
  end.

Definition _closeMedia : M unit :=
  r ← get _mediaRecorder;
  match r with
  | Some _ =>
      emit recorder_removeEventListeners;;
      mediaRecorder_stop;;
      emit recorder_terminateWorker;;
      assign (with_mediaRecorder None)
  | None => skip
  end;;
  stream ← get _stream;
  match stream with
  | Some stream => _stopTracks stream;; assign (with_stream None)
  | None => skip
  end.

Definition _closeResources : M unit :=
  _closeWebSocket;;
  _closeMedia;;
  assign (with_queuedMessages None).

Definition _startRecording : M unit :=
  mediaRecorder_start RecorderTimeSlice_ms MaxOutputSize_B false false.

Definition _stopRecording : M unit := mediaRecorder_stop.

Definition stop : M unit :=
  st ← get _state;
  if bool_decide (st = RequestingMedia) || bool_decide (st = OpeningWebSocket) then
    _closeResources;;
    emit then_completeFinishingEarly;;
    assign (with_state FinishingEarly)
  else if bool_decide (st = Running) then
    r ← get _mediaRecorder;
    match r with
    | None => throw TypeError
    | Some _ => skip
    end;;
    _stopRecording;;
    assign (with_state FinishingRecording)
  else skip.

Definition cancel : M unit :=
  st ← get _state;
  if negb (isInactiveState st) then
    _closeResources;;
    assign (with_state Canceled);;
    set_active false
  else skip.

Definition getResult : M Result := get _result.

Definition getState : M jsstring := st ← get _state; mret (ToUserStateMap st).

Definition _handleError (status message : jsstring) : M unit :=
  _closeResources;;
  assign (with_state Error);;
  set_active false;;
  onError ← get (fun o => _onError (options o));
  match onError with
  | Some f => emit (call_onError f status message)
  | None => skip
  end.

Definition _handleFinished : M unit :=
  _closeResources;;
  assign (with_state Finished);;
  set_active false;;
  onFinished ← get (fun o => _onFinished (options o));
  match onFinished with
  | Some f => emit (call_onFinished f)
  | None => skip
  end.

Definition _updateResult (newResult : Result) : M unit :=
  assign (fun o => with_result (updateResult (_result o) newResult) o).

Definition _onGetUserMediaSuccess (stream : MediaStream) : M unit :=
  st ← get _state;
  if negb (bool_decide (st = RequestingMedia)) then _stopTracks stream
  else
    assign (with_stream (Some stream));;
    assign (with_mediaRecorder (Some {| streamOrElemSource := stream; state := inactive |}));;
    emit recorder_addEventListeners;;
    _startRecording;;
    uri ← get (fun o => _webSocketUri (options o));
    emit (new_WebSocket uri);;
    assign (with_webSocket (Some {| url := uri |}));;
    assign (with_queuedMessages (Some []));;
    assign (with_state OpeningWebSocket).

Definition _onGetUserMediaError : M unit :=
  st ← get _state;
  if negb (bool_decide (st = RequestingMedia)) then skip
  else _handleError (js "get_user_media_failed") (js "Failed to get user media.").

Definition _onMediaRecorderData (data : list Z) : M unit :=
  st ← get _state;
  if bool_decide (st = OpeningWebSocket) then
    q ← get _queuedMessages;
    match q with
    | None => throw TypeError
    | Some q =>
        if (length q <? 100)%nat
        then assign (with_queuedMessages (Some (q ++ [data])))
        else emit (console_error (js "max queuedMessages size exceeded"))
    end
  else if bool_decide (st = Running) || bool_decide (st = FinishingRecording) then
    webSocket_send_ (Binary data)
  else skip.

Definition _onMediaRecorderEnd : M unit :=
  st ← get _state;
  if bool_decide (st = FinishingRecording) then
    _closeMedia;;
    webSocket_send_ (Text []);;
    assign (with_state FinishingProcessing)
  else skip.

(** [request[key] = v]: a new key goes last. *)
Fixpoint set_property (props : list (jsstring * json)) (key : jsstring) (v : json)
  : list (jsstring * json) :=
  match props with
  | [] => [(key, v)]
  | (k, old) :: rest =>
      if bool_decide (k = key) then (k, v) :: rest else (k, old) :: set_property rest key v
  end.

(** The [request] object [_onWebSocketOpen] builds, property by property. *)
Definition build_request (o : Options) (sampleRate : Q) : list (jsstring * json) :=
  let request :=
    [ (js "api_key", match _apiKey o with Some k => JStr k | None => JNull end);
      (js "sample_rate_hertz", JNum (inject_Z (Math_round sampleRate)));
      (js "include_nonfinal", JBool (_includeNonFinal o));
      (js "speech_context", _speechContext o) ] in
  let request :=
    if _enableEndpointDetection o
    then set_property request (js "enable_endpoint_detection") (JBool true)
    else request in
  let request :=
    if _enableStreamingSpeakerDiarization o
    then set_property request (js "enable_streaming_speaker_diarization") (JBool true)
    else request in
  let request :=
    if _enableGlobalSpeakerDiarization o
    then set_property request (js "enable_global_speaker_diarization") (JBool true)
    else request in
  let request :=
    if negb (_minNumSpeakers o =? 0)%Z
    then set_property request (js "min_num_speakers") (JNum (inject_Z (_minNumSpeakers o)))
    else request in
  let request :=
    if negb (_maxNumSpeakers o =? 0)%Z
    then set_property request (js "max_num_speakers") (JNum (inject_Z (_maxNumSpeakers o)))
    else request in
  let request :=
    if _enableSpeakerIdentification o
    then set_property
           (set_property request (js "enable_speaker_identification") (JBool true))
           (js "cand_speaker_names") (JArr (map JStr (_candSpeakerNames o)))
    else request in
  let request :=
    if _enableProfanityFilter o
    then set_property request (js "enable_profanity_filter") (JBool true)
    else request in
  let request :=
    if negb (length (_contentModerationPhrases o) =? 0)%nat
    then set_property request (js "content_moderation_phrases")
           (JArr (map JStr (_contentModerationPhrases o)))
    else request in
  let request :=
    if _enableDictation o
    then set_property request (js "enable_dictation") (JBool true)
    else request in
  let request :=
    if negb (length (_model o) =? 0)%nat
    then set_property request (js "model") (JStr (_model o))
    else request in
  request.

Definition _completeFinishingEarly : M unit :=
  st ← get _state;
  if negb (bool_decide (st = FinishingEarly)) then skip else _handleFinished.

Definition _onWebSocketError : M unit :=
  st ← get _state;
  if negb (isWebSocketState st) then skip
  else _handleError (js "websocket_error") (js "WebSocket error occurred.").

Definition _onWebSocketClose (code : N) (reason : jsstring) : M unit :=
  st ← get _state;
  if negb (isWebSocketState st) then skip
  else if (code =? 1000)%N then
    match StatusMessageRegex_exec reason with
    | Some (status, message) =>
        if bool_decide (status = js "eof") then
          st ← get _state;
          if bool_decide (st = FinishingProcessing) then _handleFinished
          else _handleError (js "other_asr_error") (js "Unexpected EOF received.")
        else _handleError status message
    | None => _handleError (js "other_asr_error") reason
    end
  else
    _handleError (js "websocket_closed")
      (js "WebSocket closed: code=" ++ Number_toString code ++ js ", reason=" ++ reason).

Arguments _handleError : simpl never.
Arguments _handleFinished : simpl never.

(** Everything that can happen to one session: a call of a public method, a
    callback of the browser, or another session writing the shared flag. *)
Inductive Event :=
| call_setter (method : jsstring) (update : Options -> Options)
| call_start
| call_stop
| call_cancel
| getUserMedia_resolved (stream : MediaStream)
| getUserMedia_rejected
| recorder_data (data : list Z)
| recorder_end
| webSocket_onopen
| webSocket_onclose (code : N) (reason : jsstring)
| webSocket_onerror
| webSocket_onmessage (data : jsstring)
| microtask_completeFinishingEarly
| other_session (active : bool).

Section Json.

(** [JSON.parse] ([None]: a [SyntaxError]) and [JSON.stringify], the
    browser's. *)
Variable JSON_parse : jsstring -> option json.
Variable JSON_stringify : json -> jsstring.

Definition _onWebSocketOpen : M unit :=
  st ← get _state;
  if negb (bool_decide (st = OpeningWebSocket)) then skip
  else
    o ← get options;
    r ← get _mediaRecorder;
    sampleRate ← match r with
                 | None => throw TypeError
                 | Some _ => fun env => (Return (context_sampleRate env), env)
                 end;
    let request := build_request o sampleRate in
    webSocket_send_ (Text (JSON_stringify (JObj request)));;
    q ← get _queuedMessages;
    match q with
    | None => throw TypeError
    | Some q => for_each (fun m => webSocket_send_ (Binary m)) q
    end;;
    assign (with_queuedMessages None);;
    assign (with_state Running);;
    onStarted ← get (fun o => _onStarted (options o));
    match onStarted with
    | Some f => emit (call_onStarted f)
    | None => skip
    end.

Definition _onWebSocketMessage (data : jsstring) : M unit :=
  st ← get _state;
  if negb (bool_decide (st = Running)) && negb (bool_decide (st = FinishingRecording))
     && negb (bool_decide (st = FinishingProcessing))
  then skip
  else
    response ← match JSON_parse data with
               | None => throw SyntaxError
               | Some response => mret response
               end;
    result ← lift (resultFromResponse response);
    _updateResult result;;
    onPartialResult ← get (fun o => _onPartialResult (options o));
    match onPartialResult with
    | Some f => emit (call_onPartialResult f result)
    | None => skip
    end.

Definition handle (ev : Event) : M unit :=
  match ev with
  | call_setter method update => setter method update
  | call_start => start
  | call_stop => stop
  | call_cancel => cancel
  | getUserMedia_resolved stream => _onGetUserMediaSuccess stream
  | getUserMedia_rejected => _onGetUserMediaError
  | recorder_data data => _onMediaRecorderData data
  | recorder_end => _onMediaRecorderEnd
  | webSocket_onopen => _onWebSocketOpen
  | webSocket_onclose code reason => _onWebSocketClose code reason
  | webSocket_onerror => _onWebSocketError
  | webSocket_onmessage data => _onWebSocketMessage data
  | microtask_completeFinishingEarly => _completeFinishingEarly
  | other_session active => set_active active
  end.

(** The environments a new session reaches, one event after the other (an
    exception ends the event's handler, not the session). *)
Inductive reachable : Env -> Prop :=
| reachable_new active rate log :
    reachable {| this := new_RecordTranscribe;
                 recordTranscribeActive := active;
                 context_sampleRate := rate;
                 effects := log |}
| reachable_step env ev :
    reachable env -> reachable (handle ev env).2.

End Json.

(** What holds of the object in each state: the resources a handler of that
    state dereferences are there, and the queue is within its bound. *)
Definition well_formed (o : RecordTranscribe) : Prop :=
  match _state o with
  | OpeningWebSocket =>
      is_Some (_mediaRecorder o) /\ is_Some (_webSocket o)
      /\ exists q, _queuedMessages o = Some q /\ (length q <= 100)%nat
  | Running | FinishingRecording => is_Some (_mediaRecorder o) /\ is_Some (_webSocket o)
  | FinishingProcessing => is_Some (_webSocket o)
  | _ => True
  end.

(** ** Several sessions in one page

    The objects live in a heap; [recordTranscribeActive] and the log are
    shared by all of them. *)

Record World := {
  heap : gmap nat RecordTranscribe;
  active : bool;
  sampleRate : Q;
  log : list Effect;
}.

(** Calling [method] on the object at [obj]. [None]: no such object. *)
Definition invoke {A} (obj : nat) (method : M A) (w : World) : option (Outcome A * World) :=
  match heap w !! obj with
  | None => None
  | Some o =>
      let '(r, env) :=
        method {| this := o;
                  recordTranscribeActive := active w;
                  context_sampleRate := sampleRate w;
                  effects := log w |} in
      Some (r, {| heap := <[obj := this env]> (heap w);
                  active := recordTranscribeActive env;
                  sampleRate := context_sampleRate env;
                  log := effects env |})
  end.

(** ** Vocabulary of the session's properties *)

(** The optional property [key] of the handshake: present with [v] exactly
    when [present]. *)
Definition optional (present : bool) (v : json) : value :=
  if present then Some v else None.

(** One conditional assignment [if (present) request[key] = v]. *)
Definition assign_if (present : bool) (key : jsstring) (v : json)
    (request : list (jsstring * json)) : list (jsstring * json) :=
  if present then set_property request key v else request.

(** What the handshake object holds: the four required properties, and each
    optional one exactly when its option is not the default. *)
Definition handshake_properties (o : Options) (rate : Q) (request : list (jsstring * json))
  : Prop :=
  own_property request (js "api_key")
  = Some (match _apiKey o with Some k => JStr k | None => JNull end)
  /\ own_property request (js "sample_rate_hertz") = Some (JNum (inject_Z (Math_round rate)))
  /\ own_property request (js "include_nonfinal") = Some (JBool (_includeNonFinal o))
  /\ own_property request (js "speech_context") = Some (_speechContext o)
  /\ own_property request (js "enable_endpoint_detection")
     = optional (_enableEndpointDetection o) (JBool true)
  /\ own_property request (js "enable_streaming_speaker_diarization")
     = optional (_enableStreamingSpeakerDiarization o) (JBool true)
  /\ own_property request (js "enable_global_speaker_diarization")
     = optional (_enableGlobalSpeakerDiarization o) (JBool true)
  /\ own_property request (js "min_num_speakers")
     = optional (negb (_minNumSpeakers o =? 0)%Z) (JNum (inject_Z (_minNumSpeakers o)))
  /\ own_property request (js "max_num_speakers")
     = optional (negb (_maxNumSpeakers o =? 0)%Z) (JNum (inject_Z (_maxNumSpeakers o)))
  /\ own_property request (js "enable_speaker_identification")
     = optional (_enableSpeakerIdentification o) (JBool true)
  /\ own_property request (js "cand_speaker_names")
     = optional (_enableSpeakerIdentification o) (JArr (map JStr (_candSpeakerNames o)))
  /\ own_property request (js "enable_profanity_filter")
     = optional (_enableProfanityFilter o) (JBool true)
  /\ own_property request (js "content_moderation_phrases")
     = optional (negb (length (_contentModerationPhrases o) =? 0)%nat)
         (JArr (map JStr (_contentModerationPhrases o)))
  /\ own_property request (js "enable_dictation") = optional (_enableDictation o) (JBool true)
  /\ own_property request (js "model")
     = optional (negb (length (_model o) =? 0)%nat) (JStr (_model o)).

(** The environment after a transport open in [OpeningWebSocket]: the
    handshake, then the queue in order, then the started callback. *)
Definition opened (JSON_stringify : json -> jsstring) (env : Env) (q : list (list Z)) : Env :=
  {| this := with_state Running (with_queuedMessages None (this env));
     recordTranscribeActive := recordTranscribeActive env;
     context_sampleRate := context_sampleRate env;
     effects :=
       effects env
       ++ [webSocket_send
             (Text (JSON_stringify
                      (JObj (build_request (options (this env)) (context_sampleRate env)))))]
       ++ map (fun m => webSocket_send (Binary m)) q
       ++ match _onStarted (options (this env)) with
          | Some f => [call_onStarted f]
          | None => []
          end |}.

(** The calls [_closeResources] makes on the object [o]. *)
Definition close_effects (o : RecordTranscribe) : list Effect :=
  match _webSocket o with Some _ => [webSocket_close] | None => [] end
  ++ match _mediaRecorder o with
     | Some r =>
         [recorder_removeEventListeners]
         ++ match state r with recording => [recorder_stop] | inactive => [] end
         ++ [recorder_terminateWorker]
     | None => []
     end
  ++ match _stream o with Some stream => [stopTracks stream] | None => [] end.

(** The object once its resources are released. *)
Definition closed (o : RecordTranscribe) : RecordTranscribe :=
  with_queuedMessages None (with_stream None (with_mediaRecorder None (with_webSocket None o))).

(** The environment [_handleError(status, message)] leaves. *)
Definition errored (status message : jsstring) (env : Env) : Env :=
  {| this := with_state Error (closed (this env));
     recordTranscribeActive := false;
     context_sampleRate := context_sampleRate env;
     effects :=
       effects env ++ close_effects (this env)
       ++ match _onError (options (this env)) with
          | Some f => [call_onError f status message]
          | None => []
          end |}.

(** The environment [_handleFinished()] leaves. *)
Definition finished (env : Env) : Env :=
  {| this := with_state Finished (closed (this env));
     recordTranscribeActive := false;
     context_sampleRate := context_sampleRate env;
     effects :=
       effects env ++ close_effects (this env)
       ++ match _onFinished (options (this env)) with
          | Some f => [call_onFinished f]
          | None => []
          end |}.


(** [x.key] is an array. *)
Definition has_array (x : json) (key : jsstring) : Prop :=
  exists items, getprop x key = Return (Some (JArr items)).

(** Merging a sequence of results, in receipt order. *)
Definition merge_all (result : Result) (news : list Result) : Result :=
  fold_left updateResult news result.

(** ** A session run, step by step *)

(** The environment after a sequence of events. *)
Definition run (JSON_parse : jsstring -> option json) (JSON_stringify : json -> jsstring)
    (events : list Event) (env : Env) : Env :=
  fold_left (fun env ev => (handle JSON_parse JSON_stringify ev env).2) events env.

(** A stand-in for [JSON.stringify] and two for [JSON.parse]: one that
    rejects every text, one that reads every text as an object with [fw] and
    no [nfw]. *)
Definition stringify_stub (request : json) : jsstring := js "{}".
Definition parse_nothing (data : jsstring) : option json := None.
Definition parse_fw_only (data : jsstring) : option json :=
  Some (JObj [(js "fw", JArr [])]).

(** A page with one new session, at 44.1 kHz. *)
Definition fresh_env : Env :=
  {| this := new_RecordTranscribe;
     recordTranscribeActive := false;
     context_sampleRate := 44100;
     effects := [] |}.

(** [setApiKey], [setOnError], [start()], then the microphone is granted:
    the session is in [OpeningWebSocket] with an empty queue. *)
Definition opening_env : Env :=
  run parse_nothing stringify_stub
    [ call_setter (js "setApiKey") (with_apiKey (Some (js "key")));
      call_setter (js "setOnError") (with_onError (Some 7%nat));
      call_start;
      getUserMedia_resolved 1%nat ] fresh_env.

(** Two frames arrive before the socket opens. *)
Definition queued_env : Env :=
  run parse_nothing stringify_stub
    [ recorder_data [1; 2]%Z; recorder_data [3; 4]%Z ] opening_env.

(** The socket opens: the session is [Running]. *)
Definition running_env : Env :=
  run parse_nothing stringify_stub [webSocket_onopen] queued_env.

(** [stop()], then the recorder's end event: [FinishingProcessing]. *)
Definition finishing_env : Env :=
  run parse_nothing stringify_stub [call_stop; recorder_end] running_env.

(** A response with one final and one non-final word, and its result. *)
Definition sample_response : json :=
  JObj [ (js "fw", JArr [JObj [(js "t", JStr (js "hello")); (js "s", JNum 0)]]);
         (js "nfw", JArr [JObj [(js "t", JStr (js "wor")); (js "s", JNum 480)]]);
         (js "fpt", JNum 500);
         (js "tpt", JNum 800) ].

Definition sample_result : Result :=
  match resultFromResponse sample_response with
  | Return result => result
  | Throw _ => initialResult
  end.

(** ** Two sessions in one page *)

(** A fresh session with an API key. *)
Definition keyed_session : RecordTranscribe :=
  with_options (with_apiKey (Some (js "key")) (options new_RecordTranscribe))
    new_RecordTranscribe.

(** Two sessions in one page, none started. *)
Definition two_sessions : World :=
  {| heap := {[ 0%nat := keyed_session; 1%nat := keyed_session ]};
     active := false;
     sampleRate := 48000;
     log := [] |}.

(** The same page once the first session has started. *)
Definition first_started : World :=
  {| heap := <[0%nat := with_state RequestingMedia keyed_session]> (heap two_sessions);
     active := true;
     sampleRate := 48000;
     log := [getUserMedia] |}.

(** ** More vocabulary of the session's properties *)

(** The three states a session ends in. *)
Definition ended (st : State) : bool :=
  bool_decide (st = Finished) || bool_decide (st = Error) || bool_decide (st = Canceled).

(** What a microphone grant that comes too late is answered with. *)
Definition stale_grant (ev : Event) : list Effect :=
  match ev with
  | getUserMedia_resolved stream => [stopTracks stream]
  | _ => []
  end.

(** A new session in a page, nothing logged yet. *)
Definition new_env (active : bool) (rate : Q) : Env :=
  {| this := new_RecordTranscribe;
     recordTranscribeActive := active;
     context_sampleRate := rate;
     effects := [] |}.

(** The session holds no stream, recorder, socket or queue. *)
Definition holds_nothing (o : RecordTranscribe) : Prop :=
  _stream o = None /\ _mediaRecorder o = None /\ _webSocket o = None
  /\ _queuedMessages o = None.

(** What the session holds in each state. *)
Definition resources_by_state (o : RecordTranscribe) : Prop :=
  match _state o with
  | OpeningWebSocket =>
      exists stream q,
        _stream o = Some stream
        /\ _mediaRecorder o = Some {| streamOrElemSource := stream; state := recording |}
        /\ _webSocket o = Some {| url := _webSocketUri (options o) |}
        /\ _queuedMessages o = Some q
  | Running =>
      exists stream,
        _stream o = Some stream
        /\ _mediaRecorder o = Some {| streamOrElemSource := stream; state := recording |}
        /\ _webSocket o = Some {| url := _webSocketUri (options o) |}
        /\ _queuedMessages o = None
  | FinishingRecording =>
      exists stream,
        _stream o = Some stream
        /\ _mediaRecorder o = Some {| streamOrElemSource := stream; state := inactive |}
        /\ _webSocket o = Some {| url := _webSocketUri (options o) |}
        /\ _queuedMessages o = None
  | FinishingProcessing =>
      _stream o = None /\ _mediaRecorder o = None
      /\ _webSocket o = Some {| url := _webSocketUri (options o) |}
      /\ _queuedMessages o = None
  | _ => holds_nothing o
  end.

(** The streams whose tracks the log stops, and the streams the events
    grant, in order. *)
Definition streams_stopped (log : list Effect) : list MediaStream :=
  flat_map (fun e => match e with stopTracks stream => [stream] | _ => [] end) log.

Definition granted (events : list Event) : list MediaStream :=
  flat_map (fun ev => match ev with getUserMedia_resolved stream => [stream] | _ => [] end)
    events.

(** The calls of [onFinished] and [onError] in the log. *)
Definition final_callbacks (log : list Effect) : list Effect :=
  flat_map (fun e => match e with
                     | call_onFinished _ | call_onError _ _ _ => [e]
                     | _ => []
                     end) log.

(** The calls that take or release the microphone request, the recorder and
    the socket. *)
Definition is_resource_call (e : Effect) : bool :=
  match e with
  | getUserMedia | recorder_addEventListeners | recorder_removeEventListeners
  | recorder_start _ _ _ _ | recorder_stop | recorder_terminateWorker
  | new_WebSocket _ | webSocket_close => true
  | _ => false
  end.

Definition resource_calls (log : list Effect) : list Effect :=
  flat_map (fun e => if is_resource_call e then [e] else []) log.

(** What a session has called once the microphone is granted: the request,
    the recorder's listeners and start, the socket. *)
Definition acquired (uri : jsstring) : list Effect :=
  [ getUserMedia; recorder_addEventListeners;
    recorder_start RecorderTimeSlice_ms MaxOutputSize_B false false; new_WebSocket uri ].

(** The resource calls of a session that is over, or waiting for its early
    finish: the request alone, or everything acquired and then released, in
    the order of the path taken. *)
Definition complete_lifecycles (uri : jsstring) : list (list Effect) :=
  [ [getUserMedia];
    acquired uri ++ [ webSocket_close; recorder_removeEventListeners; recorder_stop;
                      recorder_terminateWorker ];
    acquired uri ++ [ recorder_stop; webSocket_close; recorder_removeEventListeners;
                      recorder_terminateWorker ];
    acquired uri ++ [ recorder_stop; recorder_removeEventListeners;
                      recorder_terminateWorker; webSocket_close ] ].

(** The resource calls a session in a given state can have made. *)
Definition lifecycle (st : State) (uri : jsstring) : list (list Effect) :=
  match st with
  | Init => [[]]
  | RequestingMedia => [[getUserMedia]]
  | OpeningWebSocket | Running => [acquired uri]
  | FinishingRecording => [acquired uri ++ [recorder_stop]]
  | FinishingProcessing =>
      [acquired uri ++ [recorder_stop; recorder_removeEventListeners;
                        recorder_terminateWorker]]
  | FinishingEarly | Finished | Error | Canceled => complete_lifecycles uri
  end.

(** The log of a session accounts for what it holds: the streams granted
    are held or stopped, the resource calls follow the state, and a final
    callback is in the log exactly when the session ended with one. *)
Definition accounted (events : list Event) (env : Env) : Prop :=
  resources_by_state (this env)
  /\ streams_stopped (effects env) ++ option_list (_stream (this env)) ≡ₚ granted events
  /\ resource_calls (effects env)
     ∈ lifecycle (_state (this env)) (_webSocketUri (options (this env)))
  /\ match _state (this env) with
     | Finished =>
         final_callbacks (effects env)
         = match _onFinished (options (this env)) with
           | Some f => [call_onFinished f]
           | None => []
           end
     | Error =>
         exists status message,
           final_callbacks (effects env)
           = match _onError (options (this env)) with
             | Some f => [call_onError f status message]
             | None => []
             end
     | _ => final_callbacks (effects env) = []
     end.

(** How one event of a session moves its state and the shared flag: the
    session stays active or stays inactive and leaves the flag; or it starts,
    setting the flag that was clear; or it ends, clearing the flag. *)
Definition flag_step (st : State) (flag : bool) (st' : State) (flag' : bool) : Prop :=
  (isInactiveState st' = isInactiveState st /\ flag' = flag)
  \/ (st = Init /\ st' = RequestingMedia /\ flag = false /\ flag' = true)
  \/ (isInactiveState st = false /\ isInactiveState st' = true /\ flag' = false).

Definition is_other_session (ev : Event) : bool :=
  match ev with other_session _ => true | _ => false end.

(** ** A page and its sessions, step by step *)

(** What happens in a page: a session is constructed at a free place of the
    heap, or an event comes to the session at [obj]. *)
Inductive PageEvent :=
| construct (obj : nat)
| on_session (obj : nat) (ev : Event).

(** One step of the page. The flag is written by the sessions' own
    handlers here, so [other_session] stands for nothing and is skipped, as
    is an event for an object that is not there. *)
Definition page_step (JSON_parse : jsstring -> option json)
    (JSON_stringify : json -> jsstring) (w : World) (c : PageEvent) : World :=
  match c with
  | construct obj =>
      match heap w !! obj with
      | None =>
          {| heap := <[obj := new_RecordTranscribe]> (heap w);
             active := active w;
             sampleRate := sampleRate w;
             log := log w |}
      | Some _ => w
      end
  | on_session obj ev =>
      if is_other_session ev then w
      else
        match invoke obj (handle JSON_parse JSON_stringify ev) w with
        | Some (_, w') => w'
        | None => w
        end
  end.

Definition page_run (JSON_parse : jsstring -> option json)
    (JSON_stringify : json -> jsstring) (steps : list PageEvent) (w : World) : World :=
  fold_left (page_step JSON_parse JSON_stringify) steps w.

(** A page without sessions. *)
Definition empty_page (rate : Q) : World :=
  {| heap := ∅; active := false; sampleRate := rate; log := [] |}.

(** The session at [obj] is there and active. *)
Definition active_at (w : World) (obj : nat) : Prop :=
  exists o, heap w !! obj = Some o /\ isInactiveState (_state o) = false.

(** At most one session is active, and the flag says whether one is. *)
Definition one_active (w : World) : Prop :=
  (forall i j, active_at w i -> active_at w j -> i = j)
  /\ (active w = true <-> exists i, active_at w i).

(** What holds of a page at every step. *)
Definition page_inv (w : World) : Prop :=
  (forall i o, heap w !! i = Some o -> resources_by_state o) /\ one_active w.

(** What the log sends over the socket, in order. *)
Definition sent (log : list Effect) : list Payload :=
  flat_map (fun e => match e with webSocket_send data => [data] | _ => [] end) log.

(** The events of a sequence of frames from the recorder. *)
Definition frames_arrive (frames : list (list Z)) : list Event := map recorder_data frames.

(** The final and the non-final words of a result, in order. *)
Definition finals (r : Result) : list Word := List.filter is_final (words r).

Definition nonfinals (r : Result) : list Word :=
  List.filter (fun w => negb (is_final w)) (words r).

(** The responses that have a result: an object whose [fw] and [nfw] are
    arrays without [null], and whose [spks], if it has one, is such an array
    too. *)
Definition acceptable (response : json) : Prop :=
  exists props fw nfw,
    response = JObj props
    /\ own_property props (js "fw") = Some (JArr fw)
    /\ own_property props (js "nfw") = Some (JArr nfw)
    /\ Forall (fun x => x <> JNull) fw
    /\ Forall (fun x => x <> JNull) nfw
    /\ (own_property props (js "spks") = None
        \/ exists spks, own_property props (js "spks") = Some (JArr spks)
                        /\ Forall (fun x => x <> JNull) spks).

(** A stand-in for [JSON.parse] that reads every text as [sample_response]. *)
Definition parse_sample (data : jsstring) : option json := Some sample_response.

(** The bytes of the audio frames the log sends over the socket. *)
Definition audio_sent (log : list Effect) : list Z :=
  flat_map (fun e => match e with webSocket_send (Binary data) => data | _ => [] end) log.

(** The handshake of a session: its options and the sample rate, as text. *)
Definition handshake (JSON_stringify : json -> jsstring) (env : Env) : Payload :=
  Text (JSON_stringify (JObj (build_request (options (this env)) (context_sampleRate env)))).

(** What goes over the socket in a session: the handshake, the audio
    frames, and the empty text that ends the audio once the recorder has
    ended. *)
Definition conversation (hs : Payload) (frames : list (list Z)) (audio_ended : bool)
  : list Payload :=
  hs :: map Binary frames ++ (if audio_ended then [Text []] else []).

(** What the session has sent, by state. *)
Definition protocol (JSON_stringify : json -> jsstring) (env : Env) : Prop :=
  match _state (this env) with
  | Init | RequestingMedia | OpeningWebSocket | FinishingEarly => sent (effects env) = []
  | Running | FinishingRecording =>
      exists frames,
        sent (effects env) = conversation (handshake JSON_stringify env) frames false
  | FinishingProcessing =>
      exists frames,
        sent (effects env) = conversation (handshake JSON_stringify env) frames true
  | Finished | Error | Canceled =>
      sent (effects env) = []
      \/ exists frames audio_ended,
           sent (effects env) = conversation (handshake JSON_stringify env) frames audio_ended
  end.

(** The calls of the user's callbacks in the log, in order. *)
Definition callbacks (log : list Effect) : list Effect :=
  flat_map (fun e => match e with
                     | call_onStarted _ | call_onPartialResult _ _
                     | call_onFinished _ | call_onError _ _ _ => [e]
                     | _ => []
                     end) log.

Definition started_callback (o : Options) : list Effect :=
  match _onStarted o with
  | Some f => [call_onStarted f]
  | None => []
  end.

Definition is_partial_result (e : Effect) : Prop :=
  exists f result, e = call_onPartialResult f result.

(** The order of the callbacks: the started callback, then partial results,
    then the final callbacks of the log. Before the socket is open there is
    none of them; from [Running] on the started callback has been called,
    if set; a session that is over has called none or has been started. *)
Definition callback_order (env : Env) : Prop :=
  exists started partials,
    callbacks (effects env) = started ++ partials ++ final_callbacks (effects env)
    /\ Forall is_partial_result partials
    /\ match _state (this env) with
       | Init | RequestingMedia | OpeningWebSocket | FinishingEarly =>
           started = [] /\ partials = [] /\ final_callbacks (effects env) = []
       | Running | FinishingRecording | FinishingProcessing =>
           started = started_callback (options (this env))
           /\ final_callbacks (effects env) = []
       | Finished | Error | Canceled =>
           (started = [] /\ partials = [])
           \/ started = started_callback (options (this env))
       end.

End Session.

(* ===================================================================== *)
(** * The recorder: [MediaRecorder] of [audio_recorder.js]                *)
(* ===================================================================== *)

Module Recorder.
Import Js.

(** A message posted to the encoder worker, with the values as the recorder
    reads them off its members ([None]: [undefined]). *)
Inductive message :=
| encode_msg (block : list Encoder.number) (removeInitialZeros : option bool)
| dump_msg (maxOutputSize : option Z) (removeInitialZeros : option bool)
| end_msg.

(** The calls a recorder makes on the audio graph, its stream and its timer. *)
Inductive AudioCall :=
| stream_clone
| createMediaStreamSource
| createScriptProcessor
| input_connect_processor
| processor_connect_destination
| input_connect_destination
| setInterval (timeslice : Z)
| clearInterval
| clone_stop_tracks
| input_disconnect_destination
| processor_disconnect_destination
| input_disconnect_processor.

(** A recorder: the members its methods read and write, and the messages
    posted to [this.encoder], oldest first. [maxOutputSize], [playBack] and
    [removeInitialZeros] are not set before the first [start]. *)
Record MediaRecorder := {
  isElemSource : bool;
  state : Session.RecorderState;
  maxOutputSize : option Z;
  playBack : option bool;
  removeInitialZeros : option bool;
  clone : bool;
  input : bool;
  slicing : bool;
  encoder : list message;
}.

(** One recorder in its page: the module variable [processor] (created or
    not yet) and the calls made so far. The page's other module variable,
    the audio context, is created by the constructor and not kept here. *)
Record Env := {
  this : MediaRecorder;
  processor : bool;
  calls : list AudioCall;
}.

(** The constructor, on a stream or on an element source. *)
Definition new_MediaRecorder (isElemSource : bool) : MediaRecorder :=
  {| isElemSource := isElemSource;
     state := Session.inactive;
     maxOutputSize := None;
     playBack := None;
     removeInitialZeros := None;
     clone := false;
     input := false;
     slicing := false;
     encoder := [] |}.

(** [this.encoder.postMessage(m)]. *)
Definition postMessage (m : message) (r : MediaRecorder) : MediaRecorder :=
  {| isElemSource := isElemSource r;
     state := state r;
     maxOutputSize := maxOutputSize r;
     playBack := playBack r;
     removeInitialZeros := removeInitialZeros r;
     clone := clone r;
     input := input r;
     slicing := slicing r;
     encoder := encoder r ++ [m] |}.

Definition _postEncoderDump (r : MediaRecorder) : MediaRecorder :=
  postMessage (dump_msg (maxOutputSize r) (removeInitialZeros r)) r.

(** [start(timeslice, maxOutputSize, playBack, removeInitialZeros)]; a
    [timeslice] of 0 is the falsy one. *)
Definition start (timeslice maxOutputSize : Z) (playBack removeInitialZeros : bool)
    (env : Env) : Outcome Env :=
  let r := this env in
  match state r with
  | Session.recording => Throw (Thrown (js "recorder is active"))
  | Session.inactive =>
      let timer := negb (timeslice =? 0)%Z in
      Return
        {| this :=
             {| isElemSource := isElemSource r;
                state := Session.recording;
                maxOutputSize := Some maxOutputSize;
                playBack := Some playBack;
                removeInitialZeros := Some removeInitialZeros;
                clone := if isElemSource r then clone r else true;
                input := true;
                slicing := timer;
                encoder := encoder r |};
           processor := true;
           calls :=
             calls env
             ++ (if isElemSource r then [] else [stream_clone; createMediaStreamSource])
             ++ (if processor env then [] else [createScriptProcessor])
             ++ [input_connect_processor; processor_connect_destination]
             ++ (if playBack then [input_connect_destination] else [])
             ++ (if timer then [setInterval timeslice] else []) |}
  end.

(** The handler [start] sets on [processor.onaudioprocess], for one block of
    samples. It is a [function], called on the processor node: the
    [this.removeInitialZeros] it posts is the node's, which has no such
    member, and not the recorder's. *)
Definition onaudioprocess (block : list Encoder.number) (env : Env) : Env :=
  match state (this env) with
  | Session.recording =>
      {| this := postMessage (encode_msg block None) (this env);
         processor := processor env;
         calls := calls env |}
  | Session.inactive => env
  end.

(** The callback of the timer [start] sets; the timer runs while [slicing]
    holds it. *)
Definition interval_callback (env : Env) : Env :=
  if slicing (this env) then
    match state (this env) with
    | Session.recording =>
        {| this := _postEncoderDump (this env);
           processor := processor env;
           calls := calls env |}
    | Session.inactive => env
    end
  else env.

Definition stop (env : Env) : Env :=
  let r := this env in
  match state r with
  | Session.inactive => env
  | Session.recording =>
      let r1 :=
        {| isElemSource := isElemSource r;
           state := Session.inactive;
           maxOutputSize := maxOutputSize r;
           playBack := playBack r;
           removeInitialZeros := removeInitialZeros r;
           clone := clone r;
           input := input r;
           slicing := false;
           encoder := encoder r |} in
      let r2 := postMessage end_msg (_postEncoderDump r1) in
      {| this :=
           {| isElemSource := isElemSource r2;
              state := state r2;
              maxOutputSize := maxOutputSize r2;
              playBack := playBack r2;
              removeInitialZeros := removeInitialZeros r2;
              clone := false;
              input := false;
              slicing := slicing r2;
              encoder := encoder r2 |};
         processor := processor env;
         calls :=
           calls env
           ++ (if slicing r then [clearInterval] else [])
           ++ (if clone r then [clone_stop_tracks] else [])
           ++ (if default false (playBack r) then [input_disconnect_destination] else [])
           ++ [processor_disconnect_destination; input_disconnect_processor] |}
  end.

(** What happens to a recorder: a call of [start] or [stop], a block of
    samples from the processor, the timer. *)
Inductive Event :=
| call_start (timeslice maxOutputSize : Z) (playBack removeInitialZeros : bool)
| call_stop
| audioprocess (block : list Encoder.number)
| interval_fired.

(** An exception of [start] ends the call and leaves the recorder. *)
Definition handle (ev : Event) (env : Env) : Env :=
  match ev with
  | call_start timeslice maxOutputSize playBack removeInitialZeros =>
      match start timeslice maxOutputSize playBack removeInitialZeros env with
      | Return env' => env'
      | Throw _ => env
      end
  | call_stop => stop env
  | audioprocess block => onaudioprocess block env
  | interval_fired => interval_callback env
  end.

Definition run (events : list Event) (env : Env) : Env :=
  fold_left (fun env ev => handle ev env) events env.

(** ** Vocabulary of the recorder's properties *)

(** The message as the worker's [onmessage] reads it: the flag by its
    truth value, [undefined] being falsy. A ["dump"] without a number for
    [maxOutputSize] has no counterpart. *)
Definition received (m : message) : option Encoder.command :=
  match m with
  | encode_msg block removeInitialZeros =>
      Some (Encoder.CmdEncode block (default false removeInitialZeros))
  | dump_msg (Some maxOutputSize) removeInitialZeros =>
      Some (Encoder.CmdDump maxOutputSize (default false removeInitialZeros))
  | dump_msg None _ => None
  | end_msg => Some Encoder.CmdEnd
  end.

(** The blocks of samples the processor delivered during [events]. *)
Definition blocks_of (events : list Event) : list (list Encoder.number) :=
  flat_map (fun ev => match ev with audioprocess block => [block] | _ => [] end) events.

Definition is_call_stop (ev : Event) : bool :=
  match ev with call_stop => true | _ => false end.

(** A page with one new recorder on a stream. *)
Definition new_env : Env :=
  {| this := new_MediaRecorder false; processor := false; calls := [] |}.

(** The listener the constructor puts on the worker's messages: each one is
    dispatched as an event of the recorder, of the message's type and with
    its data, and reaches the session's listeners for ["data"] and ["end"]. *)
Definition dispatched (p : Encoder.posted) : Session.Event :=
  match p with
  | Encoder.PostData buf => Session.recorder_data buf
  | Encoder.PostEnd => Session.recorder_end
  end.

End Recorder.

(* ===================================================================== *)
(** * Properties of the encoder worker                                    *)
(* ===================================================================== *)

Module EncoderProofs.
Import Encoder.

(** ** Facts about the encoder *)

Lemma ToUint16_range x : (0 <= ToUint16 x < 65536)%Z.
Proof. destruct x; simpl; try lia. apply Z.mod_pos_bound. lia. Qed.

Lemma setInt16_app (pre : bytes) x n :
  setInt16 (pre ++ replicate (S (S n)) 0%Z) (List.length pre) (sample_of x)
  = (pre ++ le16 x) ++ replicate n 0%Z.
Proof.
  unfold setInt16, le16. cbn [replicate].
  rewrite (insert_app_r_alt pre) by lia. rewrite Nat.sub_diag. cbn [list_insert].
  rewrite (insert_app_r_alt pre) by lia.
  replace (S (List.length pre) - List.length pre)%nat with 1%nat by lia.
  cbn. rewrite <- app_assoc. reflexivity.
Qed.

Lemma fill_app samples : forall i (pre : bytes),
  List.length pre = (i * 2)%nat ->
  fill samples i (pre ++ replicate (List.length samples * 2) 0%Z)
  = pre ++ flat_map le16 samples.
Proof.
  induction samples as [|x rest IH]; intros i pre Hpre.
  - simpl. reflexivity.
  - cbn [fill flat_map List.length].
    replace (S (List.length rest) * 2)%nat with (S (S (List.length rest * 2))) by lia.
    rewrite <- Hpre, setInt16_app, IH.
    + rewrite <- app_assoc. reflexivity.
    + rewrite length_app. simpl. lia.
Qed.

(** The array [encode] builds: two bytes per sample, in order. *)
Lemma fill_flat_map buffer :
  fill buffer 0 (replicate (List.length buffer * 2) 0%Z) = flat_map le16 buffer.
Proof. apply (fill_app buffer 0 []). reflexivity. Qed.

Lemma getInt16_le16 (pre : bytes) x (post : bytes) :
  (getInt16 (pre ++ le16 x ++ post) (List.length pre) =? 0)%Z = zero_sample x.
Proof.
  unfold getInt16, le16, zero_sample.
  rewrite (lookup_app_r pre _ (List.length pre)) by lia.
  rewrite (lookup_app_r pre _ (S (List.length pre))) by lia.
  rewrite Nat.sub_diag.
  replace (S (List.length pre) - List.length pre)%nat with 1%nat by lia.
  cbn [app lookup list_lookup default].
  pose proof (ToUint16_range (sample_of x)) as Hr.
  set (w := ToUint16 (sample_of x)) in *.
  assert (0 <= w mod 256 < 256)%Z by (apply Z.mod_pos_bound; lia).
  assert (0 <= w / 256 < 256)%Z
    by (split; [apply Z.div_pos; lia | apply Z.div_lt_upper_bound; lia]).
  pose proof (Z.div_mod w 256 ltac:(lia)).
  destruct (Z.eqb_spec w 0) as [->|Hw].
  - reflexivity.
  - unfold id. clearbody w.
    destruct (32768 <=? _)%Z eqn:E; apply Z.eqb_neq; lia.
Qed.

(** What the scanning loop returns on the array of a block: the block's
    length exactly when every sample is zero, a smaller index otherwise. *)
Lemma skip_zeros_flat_map rest : forall i (pre : bytes),
  List.length pre = (i * 2)%nat ->
  let r := skip_zeros (pre ++ flat_map le16 rest) (i + List.length rest) i (List.length rest) in
  if forallb zero_sample rest then r = (i + List.length rest)%nat
  else (r < i + List.length rest)%nat.
Proof.
  induction rest as [|x rest IH]; intros i pre Hpre; cbn zeta.
  - simpl. lia.
  - cbn [List.length skip_zeros forallb flat_map].
    replace (i <? i + S (List.length rest))%nat with true
      by (symmetry; apply Nat.ltb_lt; lia).
    rewrite <- Hpre, getInt16_le16. cbn [andb].
    destruct (zero_sample x); cbn [andb].
    + specialize (IH (S i) (pre ++ le16 x)).
      rewrite length_app in IH. cbn zeta in IH.
      replace (S i + List.length rest)%nat with (i + S (List.length rest))%nat in IH by lia.
      rewrite <- app_assoc in IH. apply IH. simpl. lia.
    + lia.
Qed.

(** [encode] in one equation: the block's bytes are pushed whole, unless the
    block is dropped as part of the all-zero prefix. *)
Lemma encode_eq st buffer removeInitialZeros :
  encode st buffer removeInitialZeros =
  if removeInitialZeros && initialZeros st && forallb zero_sample buffer
  then st
  else {| buffers := buffers st ++ [flat_map le16 buffer];
          initialZeros := initialZeros st && negb removeInitialZeros |}.
Proof.
  unfold encode. cbn zeta. rewrite fill_flat_map.
  pose proof (skip_zeros_flat_map buffer 0 [] eq_refl) as H. cbn zeta in H.
  rewrite app_nil_l, Nat.add_0_l in H.
  destruct removeInitialZeros, (initialZeros st); cbn [andb negb]; try reflexivity.
  destruct (forallb zero_sample buffer).
  - rewrite H, Nat.eqb_refl. reflexivity.
  - destruct (Nat.eqb_spec (skip_zeros (flat_map le16 buffer) (List.length buffer) 0
                              (List.length buffer)) (List.length buffer)); [lia|reflexivity].
Qed.

Lemma sample_of_Num q : sample_of (Num q) = Num (inject_Z (floor_sample16 q)).
Proof.
  unfold sample_of, floor_sample16, clamp16, times32768, Math_floor, Math_min, Math_max.
  set (f := Qfloor (q * 32768)).
  unfold Qle_bool, inject_Z. cbn [Qnum Qden].
  rewrite !Z.mul_1_r.
  destruct (Z.leb_spec 32767 f) as [H|H].
  - cbn [Qnum Qden]. rewrite !Z.mul_1_r.
    replace (Z.min 32767 f) with 32767%Z by lia. reflexivity.
  - cbn [Qnum Qden]. rewrite !Z.mul_1_r.
    replace (Z.min 32767 f) with f by lia.
    destruct (Z.leb_spec (-32768) f) as [H'|H'].
    + replace (Z.max (-32768) f) with f by lia. reflexivity.
    + replace (Z.max (-32768) f) with (-32768)%Z by lia. reflexivity.
Qed.

Lemma clamp16_range z : (-32768 <= clamp16 z <= 32767)%Z.
Proof. unfold clamp16. lia. Qed.

Lemma le16_Num q : le16 (Num q) = int16_le (floor_sample16 q).
Proof.
  unfold le16, int16_le. rewrite sample_of_Num.
  unfold ToUint16, Qtruncate, inject_Z. cbn [Qnum Qden].
  rewrite Z.quot_1_r.
  pose proof (clamp16_range (Qfloor (q * 32768))) as Hr.
  fold (floor_sample16 q) in Hr. set (z := floor_sample16 q) in *. clearbody z.
  f_equal; [|f_equal]; Z.div_mod_to_equations; lia.
Qed.

Lemma zero_sample_Num q : zero_sample (Num q) = (floor_sample16 q =? 0)%Z.
Proof.
  unfold zero_sample. rewrite sample_of_Num.
  unfold ToUint16, Qtruncate, inject_Z. cbn [Qnum Qden].
  rewrite Z.quot_1_r.
  pose proof (clamp16_range (Qfloor (q * 32768))) as Hr.
  fold (floor_sample16 q) in Hr. set (z := floor_sample16 q) in *. clearbody z.
  destruct (Z.eqb_spec z 0) as [->|Hz]; [reflexivity|].
  apply Z.eqb_neq. Z.div_mod_to_equations. lia.
Qed.

(** ** Facts about [dump] *)

Lemma array_set_app (pre b : bytes) n :
  array_set (pre ++ replicate (List.length b + n) 0%Z) b (List.length pre)
  = (pre ++ b) ++ replicate n 0%Z.
Proof.
  unfold array_set.
  rewrite take_app_length, drop_app_add, drop_replicate.
  replace (List.length b + n - List.length b)%nat with n by lia.
  rewrite <- app_assoc. reflexivity.
Qed.

(** The copying loop writes the group's buffers one after the other. *)
Lemma copy_group_concat group : forall pre : bytes,
  copy_group group (pre ++ replicate (List.length (concat group)) 0%Z) (List.length pre)
  = pre ++ concat group.
Proof.
  induction group as [|b group IH]; intros pre; simpl.
  - reflexivity.
  - rewrite length_app, array_set_app.
    specialize (IH (pre ++ b)). rewrite length_app in IH.
    rewrite IH, <- app_assoc. reflexivity.
Qed.

(** What the inner loop returns: it admits [k] more buffers. *)
Lemma group_scan_spec maxOutputSize rest : forall numBuffers length,
  exists k, (k <= List.length rest)%nat
    /\ group_scan maxOutputSize rest numBuffers length
       = ((numBuffers + k)%nat, (length + List.length (concat (take k rest)))%nat)
    /\ (numBuffers = 0%nat -> rest <> [] -> 1 <= k)%nat
    /\ ((1 <= numBuffers -> 1 <= k)%nat ->
         (2 <= numBuffers + k)%nat ->
         (Z.of_nat (length + List.length (concat (take k rest))) <= maxOutputSize)%Z)
    /\ ((Z.of_nat (length + List.length (concat rest)) <= maxOutputSize)%Z ->
        k = List.length rest).
Proof.
  induction rest as [|b rest IH]; intros n len.
  - exists 0%nat. simpl. repeat split; try lia; try congruence.
    f_equal; lia.
  - cbn [group_scan].
    destruct ((0 <? n)%nat && (maxOutputSize <? Z.of_nat (len + List.length b))%Z) eqn:E.
    + apply andb_true_iff in E as [En Em].
      apply Nat.ltb_lt in En. apply Z.ltb_lt in Em.
      exists 0%nat. simpl. repeat split; try lia.
      * f_equal; lia.
      * rewrite length_app. lia.
    + destruct (IH (S n) (len + List.length b)%nat) as (k & Hk & Heq & _ & Hsz & Hall).
      exists (S k). cbn [take concat List.length]. rewrite !length_app.
      repeat split; try lia.
      * rewrite Heq. f_equal; lia.
      * intros Hpos Htwo.
        apply andb_false_iff in E.
        destruct k as [|k].
        -- simpl. assert (1 <= n)%nat by lia.
           destruct E as [E|E]; [apply Nat.ltb_ge in E; lia|apply Z.ltb_ge in E; lia].
        -- assert (Hs := Hsz ltac:(lia) ltac:(lia)). lia.
Qed.

(** One pass of the outer loop: the frame is the concatenation of the [k]
    buffers the inner loop admitted. *)
Lemma next_frame_spec maxOutputSize bufs buffersPos :
  (buffersPos < List.length bufs)%nat ->
  exists k, (1 <= k <= List.length bufs - buffersPos)%nat
    /\ next_frame maxOutputSize bufs buffersPos
       = (concat (take k (drop buffersPos bufs)), k)
    /\ ((2 <= k)%nat ->
        (Z.of_nat (List.length (concat (take k (drop buffersPos bufs)))) <= maxOutputSize)%Z)
    /\ ((Z.of_nat (List.length (concat (drop buffersPos bufs))) <= maxOutputSize)%Z ->
        k = (List.length bufs - buffersPos)%nat).
Proof.
  intros Hlt. unfold next_frame.
  destruct (group_scan_spec maxOutputSize (drop buffersPos bufs) 0 0)
    as (k & Hk & Heq & Hone & Hsz & Hall).
  rewrite length_drop in Hk, Hall.
  assert (drop buffersPos bufs <> []) as Hne.
  { intros E. apply (f_equal List.length) in E. rewrite length_drop in E. simpl in E. lia. }
  exists k. rewrite Heq. cbn [Nat.add].
  pose proof (copy_group_concat (take k (drop buffersPos bufs)) []) as Hc.
  cbn [app List.length] in Hc. rewrite Hc.
  specialize (Hone eq_refl Hne).
  repeat split; lia.
Qed.

Lemma dump_loop_step maxOutputSize bufs buffersPos :
  dump_loop maxOutputSize bufs buffersPos =
  if decide (buffersPos < List.length bufs)%nat
  then (next_frame maxOutputSize bufs buffersPos).1
       :: dump_loop maxOutputSize bufs
            (buffersPos + (next_frame maxOutputSize bufs buffersPos).2)
  else [].
Proof.
  rewrite dump_loop_equation_1.
  destruct (decide (buffersPos < List.length bufs)%nat); reflexivity.
Qed.

Lemma concat_map_concat (groups : list (list bytes)) :
  concat (map (@concat Z) groups) = concat (concat groups).
Proof.
  induction groups as [|g groups IH]; simpl; [reflexivity|].
  rewrite IH, concat_app. reflexivity.
Qed.

(** A concatenation of non-empty groups that is empty has no group. *)
Lemma nonempty_groups_nil (groups : list (list bytes)) :
  Forall (fun g => g <> []) groups -> concat groups = [] -> groups = [].
Proof.
  intros HF Hc. destruct groups as [|g groups]; [reflexivity|].
  inversion HF as [|? ? Hg _]; subst. destruct g; [congruence|discriminate].
Qed.

(** The frames of the outer loop are the concatenations of consecutive,
    non-empty groups of buffers; a group of two or more buffers fits in
    [maxOutputSize]. *)
Lemma dump_loop_groups maxOutputSize bufs : forall n buffersPos,
  (List.length bufs - buffersPos)%nat = n ->
  exists groups : list (list bytes),
    concat groups = drop buffersPos bufs
    /\ Forall (fun g => g <> []) groups
    /\ dump_loop maxOutputSize bufs buffersPos = map (@concat Z) groups
    /\ Forall (fun g => (maxOutputSize < Z.of_nat (List.length (concat g)))%Z
                        -> List.length g = 1%nat) groups
    /\ ((buffersPos < List.length bufs)%nat ->
        (Z.of_nat (List.length (concat (drop buffersPos bufs))) <= maxOutputSize)%Z ->
        groups = [drop buffersPos bufs]).
Proof.
  induction n as [n IH] using lt_wf_ind. intros pos Hn.
  rewrite dump_loop_step.
  destruct (decide (pos < List.length bufs)%nat) as [Hlt|Hge].
  - destruct (next_frame_spec maxOutputSize bufs pos Hlt) as (k & Hk & Heq & Hsz & Hall).
    rewrite Heq. cbn [fst snd].
    destruct (IH (List.length bufs - (pos + k))%nat ltac:(lia) (pos + k)%nat eq_refl)
      as (groups & Hcat & Hne & Hloop & Hover & _).
    assert (List.length (take k (drop pos bufs)) = k) as Hlen
      by (rewrite length_take, length_drop; lia).
    exists (take k (drop pos bufs) :: groups).
    split; [|split; [|split; [|split]]].
    + cbn [concat]. rewrite Hcat, <- drop_drop. apply take_drop.
    + constructor; [|exact Hne].
      intros E. rewrite E in Hlen. simpl in Hlen. lia.
    + cbn [map]. rewrite Hloop. reflexivity.
    + constructor; [|exact Hover].
      intros Hbig. rewrite Hlen.
      destruct (le_lt_dec 2 k) as [H2|H2]; [specialize (Hsz H2); lia|lia].
    + intros _ Htot. specialize (Hall Htot).
      assert (groups = []) as ->.
      { apply nonempty_groups_nil; [exact Hne|].
        rewrite Hcat. apply drop_ge. lia. }
      f_equal. apply take_ge. rewrite length_drop. lia.
  - exists []. cbn [concat map].
    split; [|split; [|split; [|split]]]; try constructor.
    + symmetry. apply drop_ge. lia.
    + intros Hlt. lia.
Qed.

(** No frame comes out of the grouping exactly when nothing is buffered. *)
Lemma dump_loop_nil maxOutputSize bufs :
  dump_loop maxOutputSize bufs 0 = [] <-> bufs = [].
Proof.
  rewrite dump_loop_step. split.
  - destruct (decide (0 < List.length bufs)%nat) as [H|H]; [discriminate|].
    intros _. destruct bufs; [reflexivity|simpl in H; lia].
  - intros ->. reflexivity.
Qed.

(** ** The encoder's properties *)

Lemma flat_map_le16_Num qs :
  flat_map le16 (map Num qs) = flat_map (fun q => int16_le (floor_sample16 q)) qs.
Proof.
  induction qs as [|q qs IH]; simpl; [reflexivity|].
  rewrite IH. change ([?a; ?b] ++ ?l) with (a :: b :: l).
  pose proof (le16_Num q) as H. unfold le16, int16_le in H.
  injection H as -> ->. reflexivity.
Qed.

Lemma forallb_zero_sample_Num qs :
  forallb zero_sample (map Num qs) = forallb (fun q => (floor_sample16 q =? 0)%Z) qs.
Proof.
  induction qs as [|q qs IH]; simpl; [reflexivity|].
  rewrite IH, zero_sample_Num. reflexivity.
Qed.



(** C3 as stated fails: the amplitude 3/2^17 times 32768 is 0.75, which
    rounds to 1 (bytes 1, 0), and the code pushes the bytes 0, 0. *)
Lemma encode_is_not_round_to_nearest :
  buffers (encode init [Num (3 # 131072)] false) = [[0; 0]%Z]
  /\ int16_le (spec_sample16 (3 # 131072)) = [1; 0]%Z
  /\ buffers (encode init [Num (3 # 131072)] false)
     <> [int16_le (spec_sample16 (3 # 131072))].
Proof. repeat split; try reflexivity. discriminate. Qed.

(** C3, amended: [encode] turns each finite amplitude [q] into the 16-bit
    integer [clamp(floor(q * 32768), -32768, 32767)], written as two bytes,
    low byte first, and pushes the bytes of the whole block, in order, as
    one chunk at the end of [buffers]; the one exception is a block dropped
    as all-zero prefix ([removeInitialZeros] set, [initialZeros] still true,
    every sample zero). Amplitude 1 gives 32767 and -1 gives -32768. *)
Theorem encode_appends_floored_samples (st : state) (qs : list Q) (removeInitialZeros : bool) :
  encode st (map Num qs) removeInitialZeros
  = (if removeInitialZeros && initialZeros st
        && forallb (fun q => (floor_sample16 q =? 0)%Z) qs
     then st
     else {| buffers := buffers st ++ [flat_map (fun q => int16_le (floor_sample16 q)) qs];
             initialZeros := initialZeros st && negb removeInitialZeros |})
  /\ floor_sample16 1 = 32767%Z
  /\ floor_sample16 (-1) = (-32768)%Z.
Proof.
  split; [|split; reflexivity].
  rewrite encode_eq, flat_map_le16_Num, forallb_zero_sample_Num. reflexivity.
Qed.

(** C4 as stated fails on an empty buffer: [maxOutputSize = 0] is at least
    the total buffered length, and [dump] returns no frame at all. *)
Lemma dump_empty_buffer_no_frame :
  let st := {| buffers := []; initialZeros := true |} in
  (Z.of_nat (List.length (concat (buffers st))) <= 0)%Z
  /\ (dump st 0 false).1 = []
  /\ List.length (dump st 0 false).1 <> 1%nat.
Proof.
  cbn zeta. split; [simpl; lia|]. split; [reflexivity|].
  vm_compute. discriminate.
Qed.

(** C4, amended: [dump] clears the buffer (and leaves the all-zero flag);
    the frames concatenated are the buffered chunks concatenated; and when
    the buffer is not empty the frames are the concatenations of consecutive
    non-empty groups of chunks, in order, so no chunk is split; a frame
    longer than [maxOutputSize] is a single chunk; and with [maxOutputSize]
    at least the total buffered length there is one frame. *)
Theorem dump_partitions_buffers (st : state) (maxOutputSize : Z) (removeInitialZeros : bool) :
  buffers (dump st maxOutputSize removeInitialZeros).2 = []
  /\ initialZeros (dump st maxOutputSize removeInitialZeros).2 = initialZeros st
  /\ concat (dump st maxOutputSize removeInitialZeros).1 = concat (buffers st)
  /\ (buffers st <> [] ->
      exists groups : list (list bytes),
        concat groups = buffers st
        /\ Forall (fun g => g <> []) groups
        /\ (dump st maxOutputSize removeInitialZeros).1 = map (@concat Z) groups
        /\ Forall (fun g => (maxOutputSize < Z.of_nat (List.length (concat g)))%Z
                            -> List.length g = 1%nat) groups
        /\ ((Z.of_nat (List.length (concat (buffers st))) <= maxOutputSize)%Z ->
            (dump st maxOutputSize removeInitialZeros).1 = [concat (buffers st)])).
Proof.
  destruct (dump_loop_groups maxOutputSize (buffers st) _ 0 eq_refl)
    as (groups & Hcat & Hne & Hloop & Hover & Hone).
  rewrite drop_0 in Hcat, Hone.
  unfold dump. cbn [fst snd buffers initialZeros].
  split; [reflexivity|]. split; [reflexivity|]. split.
  - destruct (_ && _ && _).
    + rewrite concat_app. cbn [concat app]. rewrite !app_nil_r, Hloop, <- Hcat.
      apply concat_map_concat.
    + rewrite Hloop, <- Hcat. apply concat_map_concat.
  - intros Hbuf.
    assert (dump_loop maxOutputSize (buffers st) 0 <> []) as Hnil
      by (rewrite dump_loop_nil; exact Hbuf).
    destruct (dump_loop maxOutputSize (buffers st) 0) as [|f fs] eqn:E; [congruence|].
    cbn [List.length Nat.eqb andb].
    exists groups. repeat split; try assumption.
    intros Htot. rewrite Hloop, Hone; [reflexivity| |exact Htot].
    destruct (buffers st); [congruence|simpl; lia].
Qed.

(** C4 at a buffer of three chunks with [maxOutputSize = 4]. *)
Lemma dump_partitions_buffers_witness :
  exists groups : list (list bytes),
    concat groups = [[1; 2]; [3; 4]; [5; 6; 7]]%Z
    /\ Forall (fun g => g <> []) groups
    /\ (dump {| buffers := [[1; 2]; [3; 4]; [5; 6; 7]]%Z; initialZeros := true |} 4 false).1
       = map (@concat Z) groups
    /\ Forall (fun g => (4 < Z.of_nat (List.length (concat g)))%Z
                        -> List.length g = 1%nat) groups
    /\ ((Z.of_nat (List.length (concat [[1; 2]; [3; 4]; [5; 6; 7]]%Z)) <= 4)%Z ->
        (dump {| buffers := [[1; 2]; [3; 4]; [5; 6; 7]]%Z; initialZeros := true |} 4 false).1
        = [concat [[1; 2]; [3; 4]; [5; 6; 7]]%Z]).
Proof.
  apply (dump_partitions_buffers
           {| buffers := [[1; 2]; [3; 4]; [5; 6; 7]]%Z; initialZeros := true |} 4 false).
  discriminate.
Defined.

(** C9: when the grouping gives no frame (which is when nothing is
    buffered), [removeInitialZeros] is set and [initialZeros] is still true,
    [dump] returns exactly one frame, of zero bytes; in every other case
    with an empty buffer it returns no frame. *)
Theorem dump_heartbeat_frame (st : state) (maxOutputSize : Z) (removeInitialZeros : bool) :
  (dump_loop maxOutputSize (buffers st) 0 = [] <-> buffers st = [])
  /\ (dump_loop maxOutputSize (buffers st) 0 = [] ->
      removeInitialZeros = true -> initialZeros st = true ->
      (dump st maxOutputSize removeInitialZeros).1 = [[]])
  /\ (buffers st = [] ->
      removeInitialZeros && initialZeros st = false ->
      (dump st maxOutputSize removeInitialZeros).1 = []).
Proof.
  split; [apply dump_loop_nil|]. unfold dump. cbn [fst]. split.
  - intros E -> ->. rewrite E. reflexivity.
  - intros E Hb. apply (dump_loop_nil maxOutputSize) in E. rewrite E. cbn [List.length Nat.eqb].
    rewrite andb_true_l, Hb. reflexivity.
Qed.

(** C9 on a silent, empty worker: one empty frame with the flag set, none
    without it. *)
Lemma dump_heartbeat_frame_witness :
  (dump init 60000 true).1 = [[]] /\ (dump init 60000 false).1 = [].
Proof.
  split.
  - apply (dump_heartbeat_frame init 60000 true); reflexivity.
  - apply (dump_heartbeat_frame init 60000 false); reflexivity.
Defined.

(** ** More about the encoder *)

Lemma int16_le_bytes z : Forall is_byte (int16_le z).
Proof.
  unfold int16_le, is_byte.
  repeat constructor; try (apply Z.mod_pos_bound; lia); apply Z.mod_pos_bound; lia.
Qed.

(** X1: every sample, finite or not, is written as the two little-endian
    bytes of a 16-bit integer [s]: [NaN] gives 0, the infinities saturate,
    and a finite amplitude [q] gives [floor(q * 32768)] clamped, which is
    32767 from amplitude 1 up, -32768 from -1 down, and between the two is
    at most [q * 32768] and less than one step below it; the integer grows
    with the amplitude. *)
Theorem sample_encoding (x : number) :
  exists s : Z,
    (-32768 <= s <= 32767)%Z
    /\ le16 x = int16_le s
    /\ Forall is_byte (le16 x)
    /\ match x with
       | NaN => s = 0%Z
       | Infinity => s = 32767%Z
       | NegInfinity => s = (-32768)%Z
       | Num q =>
           s = floor_sample16 q
           /\ (1 <= q -> s = 32767%Z)%Q
           /\ (q <= -1 -> s = (-32768)%Z)%Q
           /\ (-1 <= q -> q < 1 -> inject_Z s <= q * 32768 /\ q * 32768 < inject_Z s + 1)%Q
           /\ (forall q', q <= q' -> (s <= floor_sample16 q')%Z)%Q
       end.
Proof.
  destruct x as [q| | |].
  - exists (floor_sample16 q).
    split; [apply clamp16_range|]. split; [apply le16_Num|].
    split; [rewrite le16_Num; apply int16_le_bytes|].
    split; [reflexivity|].
    unfold floor_sample16, clamp16.
    split; [|split; [|split]].
    + intros H1.
      assert (32768 <= Qfloor (q * 32768))%Z; [|lia].
      change 32768%Z with (Qfloor (1 * 32768)).
      apply Qfloor_resp_le.
      apply Qmult_le_compat_r; [exact H1|discriminate].
    + intros H1.
      assert (Qfloor (q * 32768) <= -32768)%Z; [|lia].
      change (-32768)%Z with (Qfloor (-1 * 32768)).
      apply Qfloor_resp_le.
      apply Qmult_le_compat_r; [exact H1|discriminate].
    + intros Hlo Hhi.
      assert (-32768 <= Qfloor (q * 32768))%Z as Hf1.
      { change (-32768)%Z with (Qfloor (-1 * 32768)).
        apply Qfloor_resp_le.
        apply Qmult_le_compat_r; [exact Hlo|discriminate]. }
      assert (Qfloor (q * 32768) < 32768)%Z as Hf2.
      { apply Z.lt_nge. intros Hge.
        assert (inject_Z 32768 <= q * 32768)%Q as Hq.
        { eapply Qle_trans; [|apply Qfloor_le]. rewrite <- Zle_Qle. exact Hge. }
        assert (q * 32768 < 1 * 32768)%Q as Hq'
          by (apply Qmult_lt_compat_r; [reflexivity|exact Hhi]).
        apply (Qlt_irrefl (q * 32768)).
        eapply Qlt_le_trans; [exact Hq'|]. exact Hq. }
      replace (Z.max (-32768) (Z.min 32767 (Qfloor (q * 32768)))) with (Qfloor (q * 32768))
        by lia.
      split; [apply Qfloor_le|].
      pose proof (Qlt_floor (q * 32768)) as Hlt.
      rewrite inject_Z_plus in Hlt. exact Hlt.
    + intros q' Hle.
      assert (Qfloor (q * 32768) <= Qfloor (q' * 32768))%Z; [|lia].
      apply Qfloor_resp_le. apply Qmult_le_compat_r; [exact Hle|discriminate].
  - exists 32767%Z. repeat split; try lia; try reflexivity.
    apply (int16_le_bytes 32767).
  - exists (-32768)%Z. repeat split; try lia; try reflexivity.
    apply (int16_le_bytes (-32768)).
  - exists 0%Z. repeat split; try lia; try reflexivity.
    apply (int16_le_bytes 0).
Qed.

Lemma length_le16 (buffer : list number) :
  List.length (flat_map le16 buffer) = (2 * List.length buffer)%nat.
Proof. induction buffer as [|x buffer IH]; simpl; lia. Qed.

Lemma concat_map_le16 (blocks : list (list number)) :
  concat (map (flat_map le16) blocks) = flat_map le16 (concat blocks).
Proof.
  induction blocks as [|b blocks IH]; simpl; [reflexivity|].
  rewrite IH, flat_map_app. reflexivity.
Qed.

(** Without [removeInitialZeros] every block is pushed, whole. *)
Lemma encode_all_plain (blocks : list (list number)) : forall st,
  encode_all st blocks false
  = {| buffers := buffers st ++ map (flat_map le16) blocks; initialZeros := initialZeros st |}.
Proof.
  induction blocks as [|b blocks IH]; intros st; cbn [encode_all fold_left map].
  - rewrite app_nil_r. destruct st; reflexivity.
  - fold (encode_all (encode st b false) blocks false). rewrite IH, encode_eq.
    cbn [andb negb buffers initialZeros]. rewrite andb_true_r, <- app_assoc. reflexivity.
Qed.

(** A non-empty buffer that fits in [maxOutputSize] comes out as one frame. *)
Lemma dump_loop_single maxOutputSize (bufs : list bytes) :
  bufs <> [] ->
  (Z.of_nat (List.length (concat bufs)) <= maxOutputSize)%Z ->
  dump_loop maxOutputSize bufs 0 = [concat bufs].
Proof.
  intros Hne Hfit.
  destruct (dump_loop_groups maxOutputSize bufs _ 0 eq_refl)
    as (groups & _ & _ & Hloop & _ & Hone).
  rewrite drop_0 in Hone. rewrite Hloop, Hone; [reflexivity| |exact Hfit].
  destruct bufs; [congruence|simpl; lia].
Qed.

(** The frames of a dump, concatenated, are the buffer, concatenated. *)
Lemma dump_bytes st maxOutputSize removeInitialZeros :
  concat (dump st maxOutputSize removeInitialZeros).1 = concat (buffers st).
Proof.
  destruct (dump_loop_groups maxOutputSize (buffers st) _ 0 eq_refl)
    as (groups & Hcat & _ & Hloop & _ & _).
  rewrite drop_0 in Hcat. unfold dump. cbn [fst].
  destruct (_ && _ && _).
  - rewrite concat_app. cbn [concat app]. rewrite !app_nil_r, Hloop, <- Hcat.
    apply concat_map_concat.
  - rewrite Hloop, <- Hcat. apply concat_map_concat.
Qed.

(** X2: a stream of blocks encoded without [removeInitialZeros] into an empty
    buffer and then dumped with [maxOutputSize] at least the number of bytes
    (two per sample) comes out as one frame, the encodings of the blocks one
    after the other; the buffer is empty again and the flag untouched. *)
Theorem encode_blocks_then_dump (st : state) (blocks : list (list number))
    (maxOutputSize : Z) (removeInitialZeros : bool) :
  buffers st = [] ->
  blocks <> [] ->
  (2 * Z.of_nat (List.length (concat blocks)) <= maxOutputSize)%Z ->
  dump (encode_all st blocks false) maxOutputSize removeInitialZeros
  = ([flat_map le16 (concat blocks)], {| buffers := []; initialZeros := initialZeros st |})
  /\ List.length (flat_map le16 (concat blocks)) = (2 * List.length (concat blocks))%nat.
Proof.
  intros Hempty Hne Hfit. split; [|apply length_le16].
  rewrite encode_all_plain, Hempty. cbn [app]. unfold dump. cbn [buffers initialZeros].
  rewrite dump_loop_single.
  - rewrite concat_map_le16. reflexivity.
  - destruct blocks; [congruence|discriminate].
  - rewrite concat_map_le16, length_le16. lia.
Qed.

(** X2 on two blocks of two samples. *)
Lemma encode_blocks_then_dump_witness :
  dump (encode_all init [[Num 1; Num 0]; [Num (-1); Num (1 # 2)]] false) 60000 false
  = ([flat_map le16 (concat [[Num 1; Num 0]; [Num (-1); Num (1 # 2)]])],
     {| buffers := []; initialZeros := initialZeros init |})
  /\ List.length (flat_map le16 (concat [[Num 1; Num 0]; [Num (-1); Num (1 # 2)]]))
     = (2 * List.length (concat [[Num 1; Num 0]; [Num (-1); Num (1 # 2)]]))%nat.
Proof.
  apply (encode_blocks_then_dump init [[Num 1; Num 0]; [Num (-1); Num (1 # 2)]] 60000 false).
  - reflexivity.
  - discriminate.
  - simpl. lia.
Defined.

Lemma data_bytes_PostData (frames : list bytes) :
  data_bytes (map PostData frames) = concat frames.
Proof.
  unfold data_bytes. induction frames as [|f frames IH]; simpl; [reflexivity|].
  rewrite <- IH. reflexivity.
Qed.

Lemma data_bytes_app out out' : data_bytes (out ++ out') = data_bytes out ++ data_bytes out'.
Proof. apply flat_map_app. Qed.

Lemma encoded_bytes_cons c cmds :
  encoded_bytes (c :: cmds) = encoded_bytes [c] ++ encoded_bytes cmds.
Proof. unfold encoded_bytes. simpl. rewrite app_nil_r. reflexivity. Qed.

(** One message that keeps its samples: the bytes posted, followed by the
    bytes still buffered, are the bytes buffered before followed by the
    bytes encoded. *)
Lemma onmessage_bytes st c :
  keeps_samples c = true ->
  data_bytes (onmessage st c).1 ++ concat (buffers (onmessage st c).2)
  = concat (buffers st) ++ encoded_bytes [c]
  /\ initialZeros (onmessage st c).2 = initialZeros st.
Proof.
  destruct c as [buffer riz|maxOutputSize riz|]; cbn [keeps_samples]; [| |discriminate].
  - intros Hriz. apply negb_true_iff in Hriz. subst riz.
    cbn [onmessage fst snd]. rewrite encode_eq. cbn [andb negb buffers initialZeros].
    rewrite andb_true_r, concat_app. unfold encoded_bytes. simpl. rewrite !app_nil_r.
    split; reflexivity.
  - intros _. cbn [onmessage].
    pose proof (dump_bytes st maxOutputSize riz) as Hb.
    destruct (dump st maxOutputSize riz) as [frames st'] eqn:E.
    assert (st' = {| buffers := []; initialZeros := initialZeros st |}) as ->
      by (unfold dump in E; injection E as _ <-; reflexivity).
    cbn [fst snd buffers initialZeros concat] in *.
    rewrite data_bytes_PostData, Hb. unfold encoded_bytes. simpl. split; reflexivity.
Qed.

(** Over messages that keep their samples the same holds of the whole run. *)
Lemma run_worker_keeps_bytes (cmds : list command) : forall st : state,
  forallb keeps_samples cmds = true ->
  data_bytes (run_worker st cmds).1 ++ concat (buffers (run_worker st cmds).2)
  = concat (buffers st) ++ encoded_bytes cmds
  /\ initialZeros (run_worker st cmds).2 = initialZeros st.
Proof.
  induction cmds as [|c cmds IH]; intros st Hk.
  - cbn. rewrite app_nil_r. split; reflexivity.
  - cbn [forallb] in Hk. apply andb_true_iff in Hk as [Hc Hk].
    destruct (onmessage_bytes st c Hc) as [Hb Hz].
    cbn [run_worker]. destruct (onmessage st c) as [out st'].
    destruct (IH st' Hk) as [Hb' Hz']. destruct (run_worker st' cmds) as [outs st''].
    cbn [fst snd] in *.
    rewrite data_bytes_app, <- app_assoc, Hb', app_assoc, Hb, <- app_assoc.
    rewrite (encoded_bytes_cons c cmds). split; [reflexivity|congruence].
Qed.

(** Messages that keep their samples are answered with data only. *)
Lemma run_worker_frames (cmds : list command) : forall st,
  forallb keeps_samples cmds = true ->
  exists frames, (run_worker st cmds).1 = map PostData frames.
Proof.
  induction cmds as [|c cmds IH]; intros st Hk.
  - exists []. reflexivity.
  - cbn [forallb] in Hk. apply andb_true_iff in Hk as [Hc Hk].
    cbn [run_worker].
    destruct (onmessage st c) as [out st'] eqn:Ec.
    destruct (IH st' Hk) as [frames Hf].
    destruct (run_worker st' cmds) as [outs st'']. cbn [fst] in *. subst outs.
    destruct c as [buffer riz|maxOutputSize riz|]; [| |discriminate].
    + injection Ec as <- _. exists frames. reflexivity.
    + cbn [onmessage] in Ec.
      destruct (dump st maxOutputSize riz) as [fs st1]. injection Ec as <- _.
      exists (fs ++ frames). rewrite map_app. reflexivity.
Qed.

(** X3: over any sequence of worker messages made of ["encode"] without
    [removeInitialZeros] and of ["dump"], the worker posts data frames only,
    and no byte is lost, added or moved: the frames posted, one after the
    other, followed by the bytes still buffered, are the bytes buffered at
    the start followed by the encodings of all the blocks, in order; the
    all-zero flag is left as it was. *)
Theorem worker_keeps_every_byte (cmds : list command) (st : state) :
  forallb keeps_samples cmds = true ->
  exists frames : list bytes,
    (run_worker st cmds).1 = map PostData frames
    /\ concat frames ++ concat (buffers (run_worker st cmds).2)
       = concat (buffers st) ++ encoded_bytes cmds
    /\ initialZeros (run_worker st cmds).2 = initialZeros st.
Proof.
  intros Hk.
  destruct (run_worker_frames cmds st Hk) as [frames Hf].
  destruct (run_worker_keeps_bytes cmds st Hk) as [Hbytes Hz].
  exists frames. split; [exact Hf|]. split; [|exact Hz].
  rewrite Hf, data_bytes_PostData in Hbytes. exact Hbytes.
Qed.

(** X3 on two blocks with a dump in between and a small frame limit. *)
Lemma worker_keeps_every_byte_witness :
  exists frames : list bytes,
    (run_worker init [CmdEncode [Num 1; Num 0] false; CmdDump 2 true;
                      CmdEncode [Num (1 # 2)] false]).1
    = map PostData frames
    /\ concat frames
       ++ concat (buffers (run_worker init [CmdEncode [Num 1; Num 0] false; CmdDump 2 true;
                                            CmdEncode [Num (1 # 2)] false]).2)
       = concat (buffers init)
         ++ encoded_bytes [CmdEncode [Num 1; Num 0] false; CmdDump 2 true;
                           CmdEncode [Num (1 # 2)] false]
    /\ initialZeros (run_worker init [CmdEncode [Num 1; Num 0] false; CmdDump 2 true;
                                      CmdEncode [Num (1 # 2)] false]).2
       = initialZeros init.
Proof.
  apply (worker_keeps_every_byte
           [CmdEncode [Num 1; Num 0] false; CmdDump 2 true; CmdEncode [Num (1 # 2)] false]
           init).
  reflexivity.
Defined.

(** Where the inner loop of [dump] stops before the end of the buffer, the
    chunk it stopped at would not have fitted. *)
Lemma group_scan_stops maxOutputSize rest : forall numBuffers length n' len',
  group_scan maxOutputSize rest numBuffers length = (n', len') ->
  forall b, rest !! (n' - numBuffers)%nat = Some b ->
  (maxOutputSize < Z.of_nat (len' + List.length b))%Z.
Proof.
  induction rest as [|b0 rest IH]; intros n len n' len' Heq b Hb.
  - rewrite lookup_nil in Hb. discriminate.
  - cbn [group_scan] in Heq.
    destruct ((0 <? n)%nat && (maxOutputSize <? Z.of_nat (len + List.length b0))%Z) eqn:E.
    + injection Heq as <- <-. rewrite Nat.sub_diag in Hb. injection Hb as <-.
      apply andb_true_iff in E as [_ Em]. apply Z.ltb_lt in Em. exact Em.
    + destruct (group_scan_spec maxOutputSize rest (S n) (len + List.length b0)%nat)
        as (k & _ & Hk & _).
      rewrite Heq in Hk. injection Hk as Hn' _.
      apply (IH (S n) (len + List.length b0)%nat n' len' Heq).
      replace (n' - n)%nat with (S (n' - S n)) in Hb by lia. exact Hb.
Qed.

Lemma next_frame_stops maxOutputSize bufs buffersPos b :
  (buffersPos < List.length bufs)%nat ->
  bufs !! (buffersPos + (next_frame maxOutputSize bufs buffersPos).2)%nat = Some b ->
  (maxOutputSize
   < Z.of_nat (List.length (next_frame maxOutputSize bufs buffersPos).1 + List.length b))%Z.
Proof.
  intros Hlt Hb.
  destruct (next_frame_spec maxOutputSize bufs buffersPos Hlt) as (k & Hk & Heq & _).
  rewrite Heq in Hb |- *. cbn [fst snd] in *.
  destruct (group_scan maxOutputSize (drop buffersPos bufs) 0 0) as [n' len'] eqn:Egs.
  destruct (group_scan_spec maxOutputSize (drop buffersPos bufs) 0 0) as (k' & _ & Hk' & _).
  rewrite Egs in Hk'. injection Hk' as Hn Hl. cbn [Nat.add] in Hn, Hl.
  assert (k' = k) as ->.
  { unfold next_frame in Heq. rewrite Egs in Heq. injection Heq as _ Hn'. lia. }
  subst n' len'.
  apply (group_scan_stops maxOutputSize (drop buffersPos bufs) 0 0 k _ Egs).
  rewrite Nat.sub_0_r, lookup_drop. exact Hb.
Qed.

(** The grouping of [dump] is greedy: a group followed by another one could
    not have taken the next group's first chunk. *)
Lemma dump_loop_greedy maxOutputSize bufs : forall n buffersPos,
  (List.length bufs - buffersPos)%nat = n ->
  exists groups : list (list bytes),
    concat groups = drop buffersPos bufs
    /\ Forall (fun g => g <> []) groups
    /\ dump_loop maxOutputSize bufs buffersPos = map (@concat Z) groups
    /\ forall i g b g',
         groups !! i = Some g -> groups !! S i = Some (b :: g') ->
         (maxOutputSize < Z.of_nat (List.length (concat g) + List.length b))%Z.
Proof.
  induction n as [n IH] using lt_wf_ind. intros pos Hn.
  rewrite dump_loop_step.
  destruct (decide (pos < List.length bufs)%nat) as [Hlt|Hge].
  - pose proof (next_frame_stops maxOutputSize bufs pos) as Hstop.
    destruct (next_frame_spec maxOutputSize bufs pos Hlt) as (k & Hk & Heq & _).
    rewrite Heq in Hstop |- *. cbn [fst snd] in *.
    destruct (IH (List.length bufs - (pos + k))%nat ltac:(lia) (pos + k)%nat eq_refl)
      as (groups & Hcat & Hne & Hloop & Hgreedy).
    assert (List.length (take k (drop pos bufs)) = k) as Hlen
      by (rewrite length_take, length_drop; lia).
    exists (take k (drop pos bufs) :: groups).
    split; [|split; [|split]].
    + cbn [concat]. rewrite Hcat, <- drop_drop. apply take_drop.
    + constructor; [|exact Hne].
      intros E. rewrite E in Hlen. simpl in Hlen. lia.
    + cbn [map]. rewrite Hloop. reflexivity.
    + intros [|i] g b g' Hg Hnext.
      * injection Hg as <-. cbn in Hnext.
        destruct groups as [|g1 groups]; [discriminate|]. injection Hnext as ->.
        apply Hstop; [exact Hlt|].
        cbn [concat] in Hcat.
        assert (drop (pos + k) bufs !! 0%nat = Some b) as H0
          by (rewrite <- Hcat; reflexivity).
        rewrite lookup_drop, Nat.add_0_r in H0. exact H0.
      * apply (Hgreedy i g b g'); assumption.
  - exists []. cbn [concat map].
    split; [|split; [|split]]; try constructor.
    + symmetry. apply drop_ge. lia.
    + intros i g b g' Hg. rewrite lookup_nil in Hg. discriminate.
Qed.

(** X4: [dump] fills its frames greedily. On a non-empty buffer the frames
    are the concatenations of consecutive groups of chunks, and a frame that
    is followed by another one could not have taken that one's first chunk:
    with it, it would have been longer than [maxOutputSize]. *)
Theorem dump_frames_are_greedy (st : state) (maxOutputSize : Z) (removeInitialZeros : bool) :
  buffers st <> [] ->
  exists groups : list (list bytes),
    concat groups = buffers st
    /\ (dump st maxOutputSize removeInitialZeros).1 = map (@concat Z) groups
    /\ forall i g b g',
         groups !! i = Some g -> groups !! S i = Some (b :: g') ->
         (maxOutputSize < Z.of_nat (List.length (concat g) + List.length b))%Z.
Proof.
  intros Hne.
  destruct (dump_loop_greedy maxOutputSize (buffers st) _ 0 eq_refl)
    as (groups & Hcat & _ & Hloop & Hgreedy).
  rewrite drop_0 in Hcat.
  exists groups. split; [exact Hcat|]. split; [|exact Hgreedy].
  unfold dump. cbn [fst].
  destruct (dump_loop maxOutputSize (buffers st) 0) as [|f fs] eqn:E.
  - apply dump_loop_nil in E. contradiction.
  - cbn [List.length Nat.eqb andb]. exact Hloop.
Qed.

(** X4 on chunks of 2, 2 and 3 bytes with a limit of 4: the frames are the
    first two chunks and the third, which would have made 7 bytes. *)
Lemma dump_frames_are_greedy_witness :
  (dump {| buffers := [[1; 2]; [3; 4]; [5; 6; 7]]%Z; initialZeros := false |} 4 false).1
  = [[1; 2; 3; 4]; [5; 6; 7]]%Z
  /\ exists groups : list (list bytes),
       concat groups = [[1; 2]; [3; 4]; [5; 6; 7]]%Z
       /\ (dump {| buffers := [[1; 2]; [3; 4]; [5; 6; 7]]%Z; initialZeros := false |}
             4 false).1
          = map (@concat Z) groups
       /\ forall i g b g',
            groups !! i = Some g -> groups !! S i = Some (b :: g') ->
            (4 < Z.of_nat (List.length (concat g) + List.length b))%Z.
Proof.
  split; [reflexivity|].
  apply (dump_frames_are_greedy
           {| buffers := [[1; 2]; [3; 4]; [5; 6; 7]]%Z; initialZeros := false |} 4 false).
  discriminate.
Defined.

Lemma encode_all_app blocks blocks' riz : forall st,
  encode_all st (blocks ++ blocks') riz = encode_all (encode_all st blocks riz) blocks' riz.
Proof. intros st. unfold encode_all. apply fold_left_app. Qed.

(** Silent blocks at the start of a stream are dropped. *)
Lemma encode_all_silent blocks : forall st,
  initialZeros st = true ->
  Forall (fun b => silent b = true) blocks ->
  encode_all st blocks true = st.
Proof.
  induction blocks as [|b blocks IH]; intros st Hz Hs; [reflexivity|].
  inversion Hs as [|? ? Hb Hbs]; subst.
  cbn [encode_all fold_left]. fold (encode_all (encode st b true) blocks true).
  assert (encode st b true = st) as ->.
  { rewrite encode_eq, Hz. unfold silent in Hb. rewrite Hb. reflexivity. }
  apply IH; assumption.
Qed.

(** Once the flag is cleared every block is pushed, whole. *)
Lemma encode_all_started blocks riz : forall st,
  initialZeros st = false ->
  encode_all st blocks riz
  = {| buffers := buffers st ++ map (flat_map le16) blocks; initialZeros := false |}.
Proof.
  induction blocks as [|b blocks IH]; intros st Hz.
  - cbn. rewrite app_nil_r. destruct st; cbn in *; subst; reflexivity.
  - cbn [encode_all fold_left map]. fold (encode_all (encode st b riz) blocks riz).
    rewrite IH; rewrite encode_eq, Hz, andb_false_r; cbn [andb buffers initialZeros];
      [|reflexivity].
    rewrite <- app_assoc. reflexivity.
Qed.

(** X5: a stream encoded with [removeInitialZeros]. While every block so
    far is silent (each sample has the 16-bit value zero) nothing is
    buffered, and a dump posts one empty frame. The first block that is not
    silent clears the flag and is buffered whole, its leading zero samples
    included, and so is every block after it, silent or not: a dump then
    posts their encodings, in order. *)
Theorem silent_start_is_dropped (st : state) (quiet : list (list number))
    (block : list number) (blocks : list (list number)) (maxOutputSize : Z) :
  initialZeros st = true ->
  buffers st = [] ->
  Forall (fun b => silent b = true) quiet ->
  silent block = false ->
  encode_all st quiet true = st
  /\ (dump (encode_all st quiet true) maxOutputSize true).1 = [[]]
  /\ encode_all st (quiet ++ block :: blocks) true
     = {| buffers := map (flat_map le16) (block :: blocks); initialZeros := false |}
  /\ concat (dump (encode_all st (quiet ++ block :: blocks) true) maxOutputSize true).1
     = flat_map le16 (concat (block :: blocks)).
Proof.
  intros Hz Hempty Hquiet Hblock.
  pose proof (encode_all_silent quiet st Hz Hquiet) as Hq.
  assert (encode_all st (quiet ++ block :: blocks) true
          = {| buffers := map (flat_map le16) (block :: blocks); initialZeros := false |})
    as Hrun.
  { rewrite encode_all_app, Hq. cbn [encode_all fold_left].
    fold (encode_all (encode st block true) blocks true).
    rewrite encode_all_started; rewrite encode_eq, Hz; unfold silent in Hblock;
      rewrite Hblock; cbn [andb negb buffers initialZeros]; [|reflexivity].
    rewrite Hempty. reflexivity. }
  split; [exact Hq|]. split; [|split; [exact Hrun|]].
  - rewrite Hq. unfold dump. cbn [fst]. rewrite Hempty, Hz.
    replace (dump_loop maxOutputSize [] 0) with (@nil bytes)
      by (symmetry; apply dump_loop_nil; reflexivity).
    reflexivity.
  - rewrite dump_bytes, Hrun. cbn [buffers]. apply concat_map_le16.
Qed.

(** X5 on a stream of two silent blocks, a block starting with a zero
    sample and a silent block. *)
Lemma silent_start_is_dropped_witness :
  encode_all init [[Num 0]; [Num 0; NaN]] true = init
  /\ (dump (encode_all init [[Num 0]; [Num 0; NaN]] true) 60000 true).1 = [[]]
  /\ encode_all init ([[Num 0]; [Num 0; NaN]] ++ [Num 0; Num (1 # 2)] :: [[Num 0]]) true
     = {| buffers := map (flat_map le16) ([Num 0; Num (1 # 2)] :: [[Num 0]]);
          initialZeros := false |}
  /\ concat (dump (encode_all init
                     ([[Num 0]; [Num 0; NaN]] ++ [Num 0; Num (1 # 2)] :: [[Num 0]]) true)
               60000 true).1
     = flat_map le16 (concat ([Num 0; Num (1 # 2)] :: [[Num 0]])).
Proof.
  apply (silent_start_is_dropped init [[Num 0]; [Num 0; NaN]] [Num 0; Num (1 # 2)]
           [[Num 0]] 60000).
  - reflexivity.
  - reflexivity.
  - repeat constructor.
  - reflexivity.
Defined.

End EncoderProofs.

(* ===================================================================== *)
(** * Properties of the session                                           *)
(* ===================================================================== *)

Module SessionProofs.
Import Js Session.

(** ** Reasoning about method calls *)

(** Unfolding the monad down to pairs of outcome and environment. *)
Ltac run_M :=
  unfold mbind, M_bind, mret, M_ret, skip, get, get_active, set_active, assign, emit,
    throw, lift in *;
  cbn [this recordTranscribeActive context_sampleRate effects fst snd] in *.

(** Deciding the closed comparisons of the goal ([Init = Init], ...). *)
Ltac eval_decide :=
  repeat match goal with
         | |- context [bool_decide ?P] =>
             let b := eval vm_compute in (bool_decide P) in
             match b with
             | true => change (bool_decide P) with true
             | false => change (bool_decide P) with false
             end
         end;
  cbn.

Lemma Env_eta env :
  {| this := this env;
     recordTranscribeActive := recordTranscribeActive env;
     context_sampleRate := context_sampleRate env;
     effects := effects env |} = env.
Proof. destruct env; reflexivity. Qed.

Lemma with_queuedMessages_id o : with_queuedMessages (_queuedMessages o) o = o.
Proof. destruct o; reflexivity. Qed.

(** *** [start] *)

Lemma start_ok env k :
  _state (this env) = Init ->
  recordTranscribeActive env = false ->
  _apiKey (options (this env)) = Some k ->
  start env =
  (Return tt,
   {| this := with_state RequestingMedia (this env);
      recordTranscribeActive := true;
      context_sampleRate := context_sampleRate env;
      effects := effects env ++ [getUserMedia] |}).
Proof.
  intros Hst Hact Hkey. unfold start. run_M.
  rewrite Hst. eval_decide. rewrite Hact, Hkey. reflexivity.
Qed.

Lemma start_throws env :
  ~ (_state (this env) = Init /\ recordTranscribeActive env = false
     /\ _apiKey (options (this env)) <> None) ->
  exists msg, start env = (Throw (Thrown msg), env).
Proof.
  intros Hpre. unfold start. run_M.
  destruct (decide (_state (this env) = Init)) as [Hst|Hst].
  - rewrite Hst. eval_decide.
    destruct (recordTranscribeActive env) eqn:Hact; [eexists; reflexivity|].
    destruct (_apiKey (options (this env))) eqn:Hkey; [|eexists; reflexivity].
    exfalso. apply Hpre. repeat split; congruence.
  - rewrite bool_decide_eq_false_2 by exact Hst. cbn. eexists; reflexivity.
Qed.

Lemma World_eta w :
  {| heap := heap w; active := active w; sampleRate := sampleRate w; log := log w |} = w.
Proof. destruct w; reflexivity. Qed.

(** C8: [start()] on the object at [obj] succeeds exactly when that session
    is in [Init], no session is active and its API key is set; then it
    requests the microphone, sets the flag and moves that one object to
    [RequestingMedia]. Otherwise it throws a string (no error callback is
    called) and the world is as before: this object, the flag, the log of
    calls and every other session, an active first one included. *)
Theorem start_usage_error (w : World) (obj : nat) (o : RecordTranscribe) :
  heap w !! obj = Some o ->
  (_state o = Init /\ active w = false /\ _apiKey (options o) <> None ->
   invoke obj start w =
   Some (Return tt,
         {| heap := <[obj := with_state RequestingMedia o]> (heap w);
            active := true;
            sampleRate := sampleRate w;
            log := log w ++ [getUserMedia] |}))
  /\ (~ (_state o = Init /\ active w = false /\ _apiKey (options o) <> None) ->
      exists msg, invoke obj start w = Some (Throw (Thrown msg), w)).
Proof.
  intros Hobj. split.
  - intros (Hst & Hact & Hkey).
    destruct (_apiKey (options o)) as [k|] eqn:Ek; [|congruence].
    unfold invoke. rewrite Hobj.
    rewrite (start_ok _ k) by assumption. reflexivity.
  - intros Hpre. unfold invoke. rewrite Hobj.
    destruct (start_throws
                {| this := o; recordTranscribeActive := active w;
                   context_sampleRate := sampleRate w; effects := log w |} Hpre)
      as [msg Hmsg].
    exists msg. rewrite Hmsg. cbn.
    rewrite insert_id by exact Hobj. rewrite World_eta. reflexivity.
Qed.

(** C8 on two sessions: the first [start()] succeeds, the second then throws
    and the first session stays in [RequestingMedia]. *)
Lemma start_usage_error_witness :
  invoke 0 start two_sessions = Some (Return tt, first_started)
  /\ (exists msg, invoke 1 start first_started = Some (Throw (Thrown msg), first_started))
  /\ _state <$> (heap first_started !! 0%nat) = Some RequestingMedia.
Proof.
  split; [|split].
  - apply (start_usage_error two_sessions 0 keyed_session); [reflexivity|].
    repeat split; discriminate.
  - apply (start_usage_error first_started 1 keyed_session); [reflexivity|].
    intros (_ & Hact & _). discriminate Hact.
  - reflexivity.
Defined.

(** *** The pending queue *)

(** One frame while the WebSocket is opening: queued below 100 entries,
    dropped with a console message at 100. *)
Lemma onMediaRecorderData_opening env q data :
  _state (this env) = OpeningWebSocket ->
  _queuedMessages (this env) = Some q ->
  _onMediaRecorderData data env =
  (Return tt,
   if (length q <? 100)%nat
   then {| this := with_queuedMessages (Some (q ++ [data])) (this env);
           recordTranscribeActive := recordTranscribeActive env;
           context_sampleRate := context_sampleRate env;
           effects := effects env |}
   else {| this := this env;
           recordTranscribeActive := recordTranscribeActive env;
           context_sampleRate := context_sampleRate env;
           effects := effects env ++ [console_error (js "max queuedMessages size exceeded")] |}).
Proof.
  intros Hst Hq. unfold _onMediaRecorderData. run_M.
  rewrite Hst. eval_decide. rewrite Hq.
  unfold Nat.ltb. destruct (_ <=? _)%nat; reflexivity.
Qed.

(** Frames arriving in [OpeningWebSocket] on a queue of at most 100 entries:
    the queue afterwards is the first 100 of the old queue followed by the
    frames, with one console message per dropped frame. *)
Lemma queue_frames (frames : list (list Z)) :
  forall (env : Env) (q : list (list Z)),
    _state (this env) = OpeningWebSocket ->
    _queuedMessages (this env) = Some q ->
    (length q <= 100)%nat ->
    for_each _onMediaRecorderData frames env =
    (Return tt,
     {| this := with_queuedMessages (Some (take 100 (q ++ frames))) (this env);
        recordTranscribeActive := recordTranscribeActive env;
        context_sampleRate := context_sampleRate env;
        effects := effects env
                   ++ replicate (length (q ++ frames) - 100)
                        (console_error (js "max queuedMessages size exceeded")) |})
    /\ (length (take 100 (q ++ frames)) <= 100)%nat
    /\ _state (with_queuedMessages (Some (take 100 (q ++ frames))) (this env))
       = OpeningWebSocket.
Proof.
  induction frames as [|data frames IH]; intros env q Hst Hq Hlen.
  - rewrite app_nil_r, take_ge by lia.
    replace (length q - 100)%nat with 0%nat by lia.
    cbn [replicate]. rewrite app_nil_r.
    split; [|split; [lia | exact Hst]].
    rewrite <- Hq, with_queuedMessages_id, Env_eta. reflexivity.
  - split; [|split; [rewrite length_take; lia | exact Hst]].
    cbn [for_each]. unfold mbind at 1, M_bind at 1.
    rewrite (onMediaRecorderData_opening env q data Hst Hq).
    destruct (Nat.ltb_spec (length q) 100) as [Hlt|Hge]; cbv beta iota.
    + destruct (IH {| this := with_queuedMessages (Some (q ++ [data])) (this env);
                      recordTranscribeActive := recordTranscribeActive env;
                      context_sampleRate := context_sampleRate env;
                      effects := effects env |} (q ++ [data])) as (-> & _ & _).
      * exact Hst.
      * reflexivity.
      * rewrite length_app. simpl. lia.
      * cbn [this recordTranscribeActive context_sampleRate effects].
        rewrite <- app_assoc. reflexivity.
    + destruct (IH {| this := this env;
                      recordTranscribeActive := recordTranscribeActive env;
                      context_sampleRate := context_sampleRate env;
                      effects := effects env
                        ++ [console_error (js "max queuedMessages size exceeded")] |} q)
        as (-> & _ & _).
      * exact Hst.
      * exact Hq.
      * exact Hlen.
      * cbn [this recordTranscribeActive context_sampleRate effects].
        assert (100%nat = length q) as H100 by lia.
        rewrite !take_app_length' by exact H100.
        rewrite <- app_assoc, !length_app. cbn [length].
        replace (length q + S (length frames) - 100)%nat
          with (S (length q + length frames - 100)) by lia.
        reflexivity.
Qed.

(** *** The handshake *)

Lemma webSocket_send_ok env ws data :
  _webSocket (this env) = Some ws ->
  webSocket_send_ data env =
  (Return tt,
   {| this := this env;
      recordTranscribeActive := recordTranscribeActive env;
      context_sampleRate := context_sampleRate env;
      effects := effects env ++ [webSocket_send data] |}).
Proof. intros Hws. unfold webSocket_send_. run_M. rewrite Hws. reflexivity. Qed.

Lemma send_each env ws (q : list (list Z)) :
  _webSocket (this env) = Some ws ->
  for_each (fun m => webSocket_send_ (Binary m)) q env =
  (Return tt,
   {| this := this env;
      recordTranscribeActive := recordTranscribeActive env;
      context_sampleRate := context_sampleRate env;
      effects := effects env ++ map (fun m => webSocket_send (Binary m)) q |}).
Proof.
  revert env. induction q as [|m q IH]; intros env Hws.
  - cbn. rewrite app_nil_r, Env_eta. reflexivity.
  - cbn [for_each map]. unfold mbind at 1, M_bind at 1.
    rewrite (webSocket_send_ok env ws) by exact Hws. cbv beta iota.
    rewrite IH by exact Hws.
    cbn [this recordTranscribeActive context_sampleRate effects].
    rewrite <- app_assoc. reflexivity.
Qed.

Lemma own_property_set_property request key v key' :
  own_property (set_property request key v) key'
  = if bool_decide (key = key') then Some v else own_property request key'.
Proof.
  induction request as [|[k old] rest IH]; cbn [set_property own_property].
  - reflexivity.
  - destruct (decide (k = key)) as [->|Hne].
    + rewrite bool_decide_eq_true_2 by reflexivity. cbn [own_property].
      destruct (bool_decide (key = key')); reflexivity.
    + rewrite (bool_decide_eq_false_2 _ Hne). cbn [own_property]. rewrite IH.
      destruct (decide (k = key')) as [->|Hne'].
      * rewrite bool_decide_eq_true_2 by reflexivity.
        rewrite bool_decide_eq_false_2 by congruence. reflexivity.
      * rewrite (bool_decide_eq_false_2 _ Hne'). reflexivity.
Qed.

Lemma own_property_assign_if present request key v key' :
  own_property (assign_if present key v request) key'
  = if present && bool_decide (key = key') then Some v else own_property request key'.
Proof.
  unfold assign_if. destruct present; [apply own_property_set_property|reflexivity].
Qed.

(** [build_request] as its chain of conditional assignments. *)
Lemma build_request_chain (o : Options) (rate : Q) :
  build_request o rate =
  assign_if (negb (length (_model o) =? 0)%nat) (js "model") (JStr (_model o))
  (assign_if (_enableDictation o) (js "enable_dictation") (JBool true)
  (assign_if (negb (length (_contentModerationPhrases o) =? 0)%nat)
     (js "content_moderation_phrases") (JArr (map JStr (_contentModerationPhrases o)))
  (assign_if (_enableProfanityFilter o) (js "enable_profanity_filter") (JBool true)
  (assign_if (_enableSpeakerIdentification o) (js "cand_speaker_names")
     (JArr (map JStr (_candSpeakerNames o)))
  (assign_if (_enableSpeakerIdentification o) (js "enable_speaker_identification") (JBool true)
  (assign_if (negb (_maxNumSpeakers o =? 0)%Z) (js "max_num_speakers")
     (JNum (inject_Z (_maxNumSpeakers o)))
  (assign_if (negb (_minNumSpeakers o =? 0)%Z) (js "min_num_speakers")
     (JNum (inject_Z (_minNumSpeakers o)))
  (assign_if (_enableGlobalSpeakerDiarization o) (js "enable_global_speaker_diarization")
     (JBool true)
  (assign_if (_enableStreamingSpeakerDiarization o)
     (js "enable_streaming_speaker_diarization") (JBool true)
  (assign_if (_enableEndpointDetection o) (js "enable_endpoint_detection") (JBool true)
     [ (js "api_key", match _apiKey o with Some k => JStr k | None => JNull end);
       (js "sample_rate_hertz", JNum (inject_Z (Math_round rate)));
       (js "include_nonfinal", JBool (_includeNonFinal o));
       (js "speech_context", _speechContext o) ])))))))))).
Proof.
  unfold build_request, assign_if.
  destruct (_enableSpeakerIdentification o); reflexivity.
Qed.

(** Looking a literal key up in the handshake object. *)
Ltac lookup_request :=
  rewrite build_request_chain, !own_property_assign_if;
  cbn [own_property];
  repeat match goal with
         | |- context [bool_decide (js ?a = js ?b)] =>
             let r := eval vm_compute in (bool_decide (js a = js b)) in
             change (bool_decide (js a = js b)) with r
         end;
  rewrite ?andb_false_r, ?andb_true_r;
  cbv beta iota; unfold optional;
  repeat match goal with
         | |- context [if ?c then _ else _] => destruct c; try reflexivity
         end.

Lemma build_request_properties (o : Options) (rate : Q) :
  handshake_properties o rate (build_request o rate).
Proof.
  unfold handshake_properties. repeat split; lookup_request; reflexivity.
Qed.

Lemma onWebSocketOpen_elsewhere (JSON_stringify : json -> jsstring) (env : Env) :
  _state (this env) <> OpeningWebSocket ->
  _onWebSocketOpen JSON_stringify env = (Return tt, env).
Proof.
  intros Hst. unfold _onWebSocketOpen. run_M.
  rewrite (bool_decide_eq_false_2 _ Hst). reflexivity.
Qed.

Lemma onWebSocketOpen_opening (JSON_stringify : json -> jsstring) (env : Env) r ws q :
  _state (this env) = OpeningWebSocket ->
  _mediaRecorder (this env) = Some r ->
  _webSocket (this env) = Some ws ->
  _queuedMessages (this env) = Some q ->
  _onWebSocketOpen JSON_stringify env = (Return tt, opened JSON_stringify env q).
Proof.
  intros Hst Hr Hws Hq. unfold _onWebSocketOpen. run_M.
  rewrite Hst. eval_decide. rewrite Hr. cbv beta iota.
  rewrite (webSocket_send_ok env ws) by exact Hws. cbv beta iota.
  cbn [this]. rewrite Hq.
  rewrite (send_each _ ws q) by exact Hws.
  unfold opened. cbn [this recordTranscribeActive context_sampleRate effects].
  destruct (_onStarted (options (this env))).
  + cbn. rewrite <- !app_assoc. reflexivity.
  + cbn. rewrite <- !app_assoc, app_nil_r. reflexivity.
Qed.

(** *** Releasing the resources and ending the session *)

Lemma closeResources_eq env :
  _closeResources env =
  (Return tt,
   {| this := closed (this env);
      recordTranscribeActive := recordTranscribeActive env;
      context_sampleRate := context_sampleRate env;
      effects := effects env ++ close_effects (this env) |}).
Proof.
  destruct env as [o act rate eff]. destruct o as [opts st stream r ws res q].
  unfold _closeResources, _closeWebSocket, _closeMedia, mediaRecorder_stop, _stopTracks,
    close_effects, closed.
  run_M. cbn.
  destruct ws, r as [[src []]|], stream; cbn; rewrite <- ?app_assoc, ?app_nil_r; reflexivity.
Qed.

Lemma handleError_eq status message env :
  _handleError status message env = (Return tt, errored status message env).
Proof.
  unfold _handleError. unfold mbind at 1, M_bind at 1.
  rewrite closeResources_eq. cbv beta iota. run_M. unfold errored. cbn.
  destruct (_onError (options (this env))); cbn; rewrite <- ?app_assoc, ?app_nil_r; reflexivity.
Qed.

Lemma handleFinished_eq env : _handleFinished env = (Return tt, finished env).
Proof.
  unfold _handleFinished. unfold mbind at 1, M_bind at 1.
  rewrite closeResources_eq. cbv beta iota. run_M. unfold finished. cbn.
  destruct (_onFinished (options (this env))); cbn; rewrite <- ?app_assoc, ?app_nil_r; reflexivity.
Qed.

(** *** The close reason *)





(** *** Messages from the service *)

(** A response without its [fw] or [nfw] array has no result: reading it
    raises. *)
Lemma resultFromResponse_malformed (response : json) :
  ~ has_array response (js "fw") \/ ~ has_array response (js "nfw") ->
  exists e, resultFromResponse response = Throw e.
Proof.
  intros Hbad. unfold resultFromResponse, mbind, Outcome_bind.
  destruct (getprop response (js "fw")) as [fw|e] eqn:Efw; [|eexists; reflexivity].
  destruct (forEach_items fw) as [fw_items|e] eqn:Efi; [|eexists; reflexivity].
  destruct (forEach _ fw_items) as [finals|e]; [|eexists; reflexivity].
  destruct (getprop response (js "nfw")) as [nfw|e] eqn:Enfw; [|eexists; reflexivity].
  destruct (forEach_items nfw) as [nfw_items|e] eqn:Eni; [|eexists; reflexivity].
  exfalso.
  destruct fw as [[]|]; try discriminate. destruct nfw as [[]|]; try discriminate.
  destruct Hbad as [H|H]; apply H; eexists; eassumption.
Qed.

(** C10: a message whose text does not parse, or parses to a value without
    the [fw] array or without the [nfw] array, received in [Running],
    [FinishingRecording] or [FinishingProcessing]: the handler raises and the
    environment is the one it started in, so the state, the result, the
    active flag and the log (no callback was called) are unchanged. *)
Theorem malformed_message_raises (JSON_parse : jsstring -> option json)
    (data : jsstring) (env : Env) :
  _state (this env) = Running \/ _state (this env) = FinishingRecording
  \/ _state (this env) = FinishingProcessing ->
  JSON_parse data = None
  \/ (exists response, JSON_parse data = Some response
        /\ (~ has_array response (js "fw") \/ ~ has_array response (js "nfw"))) ->
  exists e, _onWebSocketMessage JSON_parse data env = (Throw e, env).
Proof.
  intros Hst Hbad. unfold _onWebSocketMessage. run_M.
  assert (negb (bool_decide (_state (this env) = Running))
          && negb (bool_decide (_state (this env) = FinishingRecording))
          && negb (bool_decide (_state (this env) = FinishingProcessing)) = false) as ->.
  { destruct Hst as [-> | [-> | ->]]; reflexivity. }
  destruct Hbad as [-> | (response & -> & Hbad)].
  - eexists. reflexivity.
  - destruct (resultFromResponse_malformed response Hbad) as [e ->].
    exists e. reflexivity.
Qed.

(** *** Merging results *)

(** The popping loop stops on a list that is empty or ends in a final word,
    having removed only non-final words from the end. *)
Lemma pop_nonfinal_spec (ws : list Word) :
  exists tail,
    ws = pop_nonfinal (length ws) ws ++ tail
    /\ Forall (fun w => is_final w = false) tail
    /\ (forall w, last (pop_nonfinal (length ws) ws) = Some w -> is_final w = true).
Proof.
  induction ws as [|x ws IH] using rev_ind.
  - exists []. repeat split; [constructor | discriminate].
  - rewrite length_app, Nat.add_1_r. cbn [pop_nonfinal length].
    rewrite last_snoc, removelast_last.
    destruct (is_final x) eqn:Ex; cbn [negb].
    + exists []. rewrite app_nil_r. repeat split; [constructor|].
      intros w. rewrite last_snoc. intros [= <-]. exact Ex.
    + destruct IH as (tail & Heq & Htail & Hlast).
      exists (tail ++ [x]). repeat split.
      * rewrite app_assoc, <- Heq. reflexivity.
      * apply Forall_app. split; [exact Htail|]. constructor; [exact Ex|constructor].
      * exact Hlast.
Qed.

(** No final word is popped. *)
Lemma pop_nonfinal_finals (ws : list Word) :
  filter (fun w => is_final w = true) (pop_nonfinal (length ws) ws)
  = filter (fun w => is_final w = true) ws.
Proof.
  destruct (pop_nonfinal_spec ws) as (tail & Heq & Htail & _).
  assert (filter (fun w => is_final w = true) tail = []) as Hnil.
  { clear Heq. induction Htail as [|w tail Hw _ IH]; [reflexivity|].
    rewrite filter_cons_False by congruence. exact IH. }
  apply (f_equal (filter (fun w => is_final w = true))) in Heq.
  rewrite filter_app, Hnil, app_nil_r in Heq. symmetry. exact Heq.
Qed.

(** The words of a parsed response: the finals of [fw] in order, then the
    non-finals of [nfw] in order. *)
Lemma forEach_wordFromJson isFinal items ws :
  forEach (fun jsWord => wordFromJson jsWord isFinal) items = Return ws ->
  length ws = length items /\ Forall (fun w => is_final w = isFinal) ws.
Proof.
  revert ws. induction items as [|x items IH]; intros ws; cbn [forEach].
  - intros [= <-]. split; [reflexivity|constructor].
  - unfold mbind, Outcome_bind.
    destruct (wordFromJson x isFinal) as [w|e] eqn:Ew; [|discriminate].
    destruct (forEach _ items) as [r|e]; [|discriminate].
    intros [= <-]. destruct (IH r eq_refl) as [Hlen HF].
    split; [simpl; lia|]. constructor; [|exact HF].
    unfold wordFromJson, mbind, Outcome_bind in Ew.
    repeat match type of Ew with
           | match ?g with Return _ => _ | Throw _ => _ end = _ => destruct g; [|discriminate]
           end.
    injection Ew as <-. reflexivity.
Qed.

Lemma resultFromResponse_words response newResult :
  resultFromResponse response = Return newResult ->
  exists fw nfw finals nonfinals,
    getprop response (js "fw") = Return (Some (JArr fw))
    /\ getprop response (js "nfw") = Return (Some (JArr nfw))
    /\ forEach (fun jsWord => wordFromJson jsWord true) fw = Return finals
    /\ forEach (fun jsWord => wordFromJson jsWord false) nfw = Return nonfinals
    /\ words newResult = finals ++ nonfinals.
Proof.
  unfold resultFromResponse, mbind, Outcome_bind.
  destruct (getprop response (js "fw")) as [fw|e] eqn:Efw; [|discriminate].
  destruct (forEach_items fw) as [fw_items|e] eqn:Efi; [|discriminate].
  destruct (forEach _ fw_items) as [finals|e] eqn:Efs; [|discriminate].
  destruct (getprop response (js "nfw")) as [nfw|e] eqn:Enfw; [|discriminate].
  destruct (forEach_items nfw) as [nfw_items|e] eqn:Eni; [|discriminate].
  destruct (forEach _ nfw_items) as [nonfinals|e] eqn:Ens; [|discriminate].
  destruct (hasOwnProperty response (js "spks")) as [has|e]; [|discriminate].
  match goal with
  | |- match ?sp with Return _ => _ | Throw _ => _ end = _ -> _ =>
      destruct sp as [spk|e]; [|discriminate]
  end.
  destruct (getprop response (js "fpt")) as [fpt|e]; [|discriminate].
  destruct (getprop response (js "tpt")) as [tpt|e]; [|discriminate].
  intros [= <-].
  destruct fw as [[]|]; try discriminate. destruct nfw as [[]|]; try discriminate.
  injection Efi as <-. injection Eni as <-.
  exists items, items0, finals, nonfinals. repeat split; assumption.
Qed.

Lemma updateResult_keeps_final result newResult w :
  w ∈ words result -> is_final w = true -> w ∈ words (updateResult result newResult).
Proof.
  intros Hin Hfin. unfold updateResult. cbn [words].
  apply elem_of_app. left.
  assert (w ∈ filter (fun w => is_final w = true) (words result)) as H
    by (apply list_elem_of_filter; split; assumption).
  rewrite <- pop_nonfinal_finals in H. apply list_elem_of_filter in H. apply H.
Qed.

(** C5: each merge removes a tail of non-final words of the current result,
    down to its last final word, and no final word; appends the incoming
    words, which for a parsed response are the finals of [fw] in order
    followed by the non-finals of [nfw] in order; and takes the two
    processing times and the speakers map of the incoming result as they
    are. So a final word of the result is in the result after any further
    merges. *)
Theorem merge_keeps_finals :
  (forall result newResult,
     exists tail,
       words result = pop_nonfinal (length (words result)) (words result) ++ tail
       /\ Forall (fun w => is_final w = false) tail
       /\ (forall w, last (pop_nonfinal (length (words result)) (words result)) = Some w
                     -> is_final w = true)
       /\ filter (fun w => is_final w = true)
            (pop_nonfinal (length (words result)) (words result))
          = filter (fun w => is_final w = true) (words result)
       /\ words (updateResult result newResult)
          = pop_nonfinal (length (words result)) (words result) ++ words newResult
       /\ final_proc_time_ms (updateResult result newResult) = final_proc_time_ms newResult
       /\ total_proc_time_ms (updateResult result newResult) = total_proc_time_ms newResult
       /\ speakers (updateResult result newResult) = speakers newResult)
  /\ (forall response newResult,
        resultFromResponse response = Return newResult ->
        exists fw nfw finals nonfinals,
          getprop response (js "fw") = Return (Some (JArr fw))
          /\ getprop response (js "nfw") = Return (Some (JArr nfw))
          /\ length finals = length fw
          /\ length nonfinals = length nfw
          /\ forEach (fun jsWord => wordFromJson jsWord true) fw = Return finals
          /\ forEach (fun jsWord => wordFromJson jsWord false) nfw = Return nonfinals
          /\ Forall (fun w => is_final w = true) finals
          /\ Forall (fun w => is_final w = false) nonfinals
          /\ words newResult = finals ++ nonfinals)
  /\ (forall result news w,
        w ∈ words result -> is_final w = true -> w ∈ words (merge_all result news))
  /\ (forall result newResult news w,
        w ∈ words newResult -> is_final w = true ->
        w ∈ words (merge_all (updateResult result newResult) news)).
Proof.
  assert (forall result news w,
            w ∈ words result -> is_final w = true -> w ∈ words (merge_all result news))
    as Hkeep.
  { intros result news. revert result.
    induction news as [|n news IH]; intros result w Hin Hfin; [exact Hin|].
    cbn [merge_all fold_left]. apply IH; [|exact Hfin].
    apply updateResult_keeps_final; assumption. }
  split; [|split; [|split]].
  - intros result newResult.
    destruct (pop_nonfinal_spec (words result)) as (tail & Heq & Htail & Hlast).
    exists tail. repeat split; try assumption. apply pop_nonfinal_finals.
  - intros response newResult H.
    destruct (resultFromResponse_words response newResult H)
      as (fw & nfw & finals & nonfinals & Hfw & Hnfw & Hfs & Hns & Hw).
    destruct (forEach_wordFromJson true fw finals Hfs) as [Hl1 Hf1].
    destruct (forEach_wordFromJson false nfw nonfinals Hns) as [Hl2 Hf2].
    exists fw, nfw, finals, nonfinals. repeat split; assumption.
  - exact Hkeep.
  - intros result newResult news w Hin Hfin. apply Hkeep; [|exact Hfin].
    unfold updateResult. cbn [words]. apply elem_of_app. right. exact Hin.
Qed.

(** C5 on a parsed response with one final and one non-final word, merged
    twice: the first merge's non-final word is gone, its final word stays. *)
Lemma merge_keeps_finals_witness :
  (exists fw nfw finals nonfinals,
     getprop sample_response (js "fw") = Return (Some (JArr fw))
     /\ getprop sample_response (js "nfw") = Return (Some (JArr nfw))
     /\ length finals = length fw
     /\ length nonfinals = length nfw
     /\ forEach (fun jsWord => wordFromJson jsWord true) fw = Return finals
     /\ forEach (fun jsWord => wordFromJson jsWord false) nfw = Return nonfinals
     /\ Forall (fun w => is_final w = true) finals
     /\ Forall (fun w => is_final w = false) nonfinals
     /\ words sample_result = finals ++ nonfinals)
  /\ map is_final (words (merge_all initialResult [sample_result; sample_result]))
     = [true; true; false].
Proof.
  split; [|reflexivity].
  apply (proj1 (proj2 merge_keeps_finals) sample_response sample_result).
  reflexivity.
Defined.

(** ** The states a session can be in *)

Section Reachable.

Variable JSON_parse : jsstring -> option json.
Variable JSON_stringify : json -> jsstring.

Lemma onWebSocketClose_cases code reason env :
  _onWebSocketClose code reason env = (Return tt, env)
  \/ _onWebSocketClose code reason env = (Return tt, finished env)
  \/ exists status message,
       _onWebSocketClose code reason env = (Return tt, errored status message env).
Proof.
  unfold _onWebSocketClose. run_M.
  destruct (isWebSocketState _); cbn [negb]; [|left; reflexivity].
  destruct (code =? 1000)%N.
  - destruct (StatusMessageRegex_exec reason) as [[status message]|].
    + destruct (bool_decide (status = js "eof")).
      * destruct (bool_decide (_state (this env) = FinishingProcessing)).
        -- right; left. apply handleFinished_eq.
        -- right; right. eexists _, _. apply handleError_eq.
      * right; right. eexists _, _. apply handleError_eq.
    + right; right. eexists _, _. apply handleError_eq.
  - right; right. eexists _, _. apply handleError_eq.
Qed.

Lemma onWebSocketMessage_this data env :
  exists result, this (_onWebSocketMessage JSON_parse data env).2 = with_result result (this env).
Proof.
  unfold _onWebSocketMessage, _updateResult. run_M.
  destruct (_ && _ && _).
  - exists (_result (this env)). destruct env as [[] ? ? ?]; reflexivity.
  - destruct (JSON_parse data) as [response|]; cbn.
    + destruct (resultFromResponse response) as [result|e]; cbn.
      * exists (updateResult (_result (this env)) result).
        destruct (_onPartialResult (options (this env))); reflexivity.
      * exists (_result (this env)). destruct env as [[] ? ? ?]; reflexivity.
    + exists (_result (this env)). destruct env as [[] ? ? ?]; reflexivity.
Qed.

Lemma well_formed_with_result result o : well_formed o -> well_formed (with_result result o).
Proof. destruct o; exact (fun H => H). Qed.

(** Every handler keeps the object well formed. *)
Lemma handle_well_formed ev env :
  well_formed (this env) -> well_formed (this (handle JSON_parse JSON_stringify ev env).2).
Proof.
  destruct ev; cbn [handle].
  - (* a setter *)
    destruct env as [[opts st stream r ws res q] act rate eff].
    unfold setter. run_M. destruct st; eval_decide; trivial.
  - (* start() *)
    destruct env as [[opts st stream r ws res q] act rate eff].
    unfold start. run_M. destruct st; eval_decide; trivial.
    destruct act; cbn; trivial. destruct (_apiKey opts); cbn; trivial.
  - (* stop() *)
    destruct (decide (_state (this env) = RequestingMedia
                      \/ _state (this env) = OpeningWebSocket)) as [Hst|Hst].
    + unfold stop. run_M.
      replace (bool_decide (_state (this env) = RequestingMedia)
               || bool_decide (_state (this env) = OpeningWebSocket)) with true
        by (destruct Hst as [-> | ->]; reflexivity).
      cbv beta iota. rewrite closeResources_eq. intros _. exact I.
    + destruct env as [[opts st stream r ws res q] act rate eff].
      unfold stop. run_M. cbn in Hst.
      destruct st; eval_decide; trivial; try (exfalso; apply Hst; auto; fail).
      intros [[[src recst] ->] [ws' ->]]. unfold _stopRecording, mediaRecorder_stop. run_M.
      destruct recst; cbn; eauto.
  - (* cancel() *)
    unfold cancel. run_M.
    destruct (isInactiveState _); cbn [negb]; [trivial|].
    cbv beta iota. rewrite closeResources_eq. intros _. exact I.
  - (* the microphone is granted *)
    destruct env as [[opts st stream0 r ws res q] act rate eff].
    unfold _onGetUserMediaSuccess, _stopTracks, _startRecording, mediaRecorder_start.
    run_M. destruct st; eval_decide; trivial.
    intros _. repeat split; eauto. exists []. split; [reflexivity|simpl; lia].
  - (* the microphone is refused *)
    unfold _onGetUserMediaError. run_M.
    destruct (bool_decide _); cbn [negb]; [|trivial].
    rewrite handleError_eq. intros _. exact I.
  - (* a frame from the recorder *)
    destruct env as [[opts st stream r ws res q] act rate eff].
    unfold _onMediaRecorderData. run_M. destruct st; eval_decide; trivial.
    + intros (Hr & Hws & q' & -> & Hlen). cbn.
      destruct (Nat.leb_spec (length q') 99); cbn.
      * repeat split; trivial. eexists. split; [reflexivity|].
        rewrite length_app. simpl. lia.
      * repeat split; trivial. eauto.
    + intros [Hr [ws' ->]]. rewrite (webSocket_send_ok _ ws') by reflexivity. cbn. eauto.
    + intros [Hr [ws' ->]]. rewrite (webSocket_send_ok _ ws') by reflexivity. cbn. eauto.
  - (* the recorder has ended *)
    destruct env as [[opts st stream r ws res q] act rate eff].
    unfold _onMediaRecorderEnd. run_M. destruct st; eval_decide; trivial.
    intros [[[src recst] ->] [ws' ->]].
    unfold _closeMedia, mediaRecorder_stop, _stopTracks. run_M. cbn.
    destruct recst, stream; cbn;
      rewrite (webSocket_send_ok _ ws') by reflexivity; cbn; eauto.
  - (* the socket opens *)
    destruct (decide (_state (this env) = OpeningWebSocket)) as [Hst|Hst].
    + intros Hwf. unfold well_formed in Hwf. rewrite Hst in Hwf.
      destruct Hwf as ([r Hr] & [ws Hws] & q & Hq & _).
      rewrite (onWebSocketOpen_opening JSON_stringify env r ws q Hst Hr Hws Hq).
      unfold opened, well_formed. cbn. rewrite Hr, Hws. eauto.
    + rewrite (onWebSocketOpen_elsewhere JSON_stringify env Hst). trivial.
  - (* the socket closes *)
    destruct (onWebSocketClose_cases code reason env) as [-> | [-> | (st & m & ->)]];
      [trivial | intros _; exact I | intros _; exact I].
  - (* the socket fails *)
    unfold _onWebSocketError. run_M.
    destruct (isWebSocketState _); cbn [negb]; [|trivial].
    rewrite handleError_eq. intros _. exact I.
  - (* a message *)
    destruct (onWebSocketMessage_this data env) as [result ->].
    apply well_formed_with_result.
  - (* the early finish completes *)
    unfold _completeFinishingEarly. run_M.
    destruct (bool_decide _); cbn [negb]; [|trivial].
    rewrite handleFinished_eq. intros _. exact I.
  - (* another session writes the flag *)
    trivial.
Qed.

(** A reachable session is well formed. *)
Lemma reachable_well_formed env : reachable JSON_parse JSON_stringify env -> well_formed (this env).
Proof.
  induction 1 as [act rate eff|env ev _ IH]; [exact I|].
  apply handle_well_formed, IH.
Qed.

End Reachable.

(** C6: in a reachable session in [OpeningWebSocket] the queue holds at most
    100 frames, and for every sequence of frames arriving then, every call
    returns, the queue afterwards is the first 100 of the old queue followed
    by the frames, in order (a frame arriving at 100 entries is the one
    dropped), it never holds more than 100, one console message is logged
    per dropped frame, and nothing else of the session changes: it stays in
    [OpeningWebSocket] and active. *)
Theorem pending_queue_bounded (JSON_parse : jsstring -> option json)
    (JSON_stringify : json -> jsstring) (env : Env) (frames : list (list Z)) :
  reachable JSON_parse JSON_stringify env ->
  _state (this env) = OpeningWebSocket ->
  exists q,
    _queuedMessages (this env) = Some q
    /\ (length q <= 100)%nat
    /\ for_each _onMediaRecorderData frames env =
       (Return tt,
        {| this := with_queuedMessages (Some (take 100 (q ++ frames))) (this env);
           recordTranscribeActive := recordTranscribeActive env;
           context_sampleRate := context_sampleRate env;
           effects := effects env
                      ++ replicate (length (q ++ frames) - 100)
                           (console_error (js "max queuedMessages size exceeded")) |})
    /\ (length (take 100 (q ++ frames)) <= 100)%nat
    /\ _state (with_queuedMessages (Some (take 100 (q ++ frames))) (this env))
       = OpeningWebSocket.
Proof.
  intros Hreach Hst.
  pose proof (reachable_well_formed _ _ _ Hreach) as Hwf.
  unfold well_formed in Hwf. rewrite Hst in Hwf.
  destruct Hwf as (_ & _ & q & Hq & Hlen).
  exists q. split; [exact Hq|]. split; [exact Hlen|].
  apply queue_frames; assumption.
Qed.

(** C7: on a reachable session, a transport open in [OpeningWebSocket] sends
    the handshake first, once, then every queued frame in FIFO order, clears
    the queue, moves to [Running] and calls the started callback (see
    [opened]); the handshake holds [api_key], [sample_rate_hertz] (the
    rounded sample rate), [include_nonfinal] and [speech_context], and each
    optional property exactly when its option is not the default; in any
    other state the event changes nothing. *)
Theorem open_sends_handshake_then_queue (JSON_parse : jsstring -> option json)
    (JSON_stringify : json -> jsstring) (env : Env) :
  reachable JSON_parse JSON_stringify env ->
  (_state (this env) <> OpeningWebSocket ->
   _onWebSocketOpen JSON_stringify env = (Return tt, env))
  /\ (_state (this env) = OpeningWebSocket ->
      exists q,
        _queuedMessages (this env) = Some q
        /\ _onWebSocketOpen JSON_stringify env = (Return tt, opened JSON_stringify env q))
  /\ handshake_properties (options (this env)) (context_sampleRate env)
       (build_request (options (this env)) (context_sampleRate env)).
Proof.
  intros Hreach. split; [|split; [|apply build_request_properties]].
  - apply onWebSocketOpen_elsewhere.
  - intros Hst.
    pose proof (reachable_well_formed _ _ _ Hreach) as Hwf.
    unfold well_formed in Hwf. rewrite Hst in Hwf.
    destruct Hwf as ([r Hr] & [ws Hws] & q & Hq & _).
    exists q. split; [exact Hq|].
    apply (onWebSocketOpen_opening JSON_stringify env r ws q); assumption.
Qed.

(** ** The session run *)

Lemma reachable_run JSON_parse JSON_stringify events : forall env,
  reachable JSON_parse JSON_stringify env ->
  reachable JSON_parse JSON_stringify (run JSON_parse JSON_stringify events env).
Proof.
  induction events as [|ev events IH]; intros env H; [exact H|].
  cbn [run fold_left]. apply IH. apply reachable_step. exact H.
Defined.

Lemma reachable_opening_env : reachable parse_nothing stringify_stub opening_env.
Proof. apply reachable_run, reachable_new. Defined.

Lemma reachable_queued_env : reachable parse_nothing stringify_stub queued_env.
Proof. apply reachable_run, reachable_opening_env. Defined.

(** C6 on 101 frames arriving at the empty queue of a session that has just
    got the microphone: the first 100 are kept, the last is dropped with one
    console message. *)
Lemma pending_queue_bounded_witness :
  exists q,
    _queuedMessages (this opening_env) = Some q
    /\ (length q <= 100)%nat
    /\ for_each _onMediaRecorderData (replicate 101 [0; 0]%Z) opening_env =
       (Return tt,
        {| this := with_queuedMessages (Some (take 100 (q ++ replicate 101 [0; 0]%Z)))
                     (this opening_env);
           recordTranscribeActive := recordTranscribeActive opening_env;
           context_sampleRate := context_sampleRate opening_env;
           effects := effects opening_env
                      ++ replicate (length (q ++ replicate 101 [0; 0]%Z) - 100)
                           (console_error (js "max queuedMessages size exceeded")) |})
    /\ (length (take 100 (q ++ replicate 101 [0; 0]%Z)) <= 100)%nat
    /\ _state (with_queuedMessages (Some (take 100 (q ++ replicate 101 [0; 0]%Z)))
                 (this opening_env))
       = OpeningWebSocket.
Proof.
  apply (pending_queue_bounded parse_nothing stringify_stub opening_env
           (replicate 101 [0; 0]%Z) reachable_opening_env).
  vm_compute. reflexivity.
Defined.

(** C7 on the session with two queued frames: the handshake, then the two
    frames in order. *)
Lemma open_sends_handshake_then_queue_witness :
  (exists q,
     _queuedMessages (this queued_env) = Some q
     /\ _onWebSocketOpen stringify_stub queued_env
        = (Return tt, opened stringify_stub queued_env q))
  /\ _state (this running_env) = Running
  /\ _queuedMessages (this running_env) = None
  /\ effects running_env
     = effects queued_env
       ++ [ webSocket_send (Text (js "{}"));
            webSocket_send (Binary [1; 2]%Z);
            webSocket_send (Binary [3; 4]%Z) ].
Proof.
  split; [|repeat split; vm_compute; reflexivity].
  apply (proj1 (proj2 (open_sends_handshake_then_queue parse_nothing stringify_stub
                         queued_env reachable_queued_env))).
  vm_compute. reflexivity.
Defined.


(** C10 on the running session: a text that does not parse, and one that
    parses to an object without [nfw]. *)
Lemma malformed_message_raises_witness :
  (exists e, _onWebSocketMessage parse_nothing (js "oops") running_env = (Throw e, running_env))
  /\ (exists e, _onWebSocketMessage parse_fw_only (js "{}") running_env
                = (Throw e, running_env)).
Proof.
  split.
  - apply (malformed_message_raises parse_nothing (js "oops") running_env).
    + left. reflexivity.
    + left. reflexivity.
  - apply (malformed_message_raises parse_fw_only (js "{}") running_env).
    + left. reflexivity.
    + right. exists (JObj [(js "fw", JArr [])]). split; [reflexivity|].
      right. intros [items H]. discriminate H.
Defined.

(** ** Sessions, event by event *)

Ltac unfold_handlers :=
  unfold setter, start, stop, cancel, _onGetUserMediaSuccess, _onGetUserMediaError,
    _onMediaRecorderData, _onMediaRecorderEnd, _onWebSocketOpen, _onWebSocketClose,
    _onWebSocketError, _onWebSocketMessage, _completeFinishingEarly, _stopTracks,
    _startRecording, _stopRecording, mediaRecorder_start, mediaRecorder_stop,
    isInactiveState, isWebSocketState.

Lemma run_cons JSON_parse JSON_stringify ev events env :
  run JSON_parse JSON_stringify (ev :: events) env
  = run JSON_parse JSON_stringify events (handle JSON_parse JSON_stringify ev env).2.
Proof. reflexivity. Qed.

(** One event on a session that has ended. *)
Lemma handle_ended JSON_parse JSON_stringify ev env :
  ended (_state (this env)) = true ->
  this (handle JSON_parse JSON_stringify ev env).2 = this env
  /\ effects (handle JSON_parse JSON_stringify ev env).2 = effects env ++ stale_grant ev
  /\ recordTranscribeActive (handle JSON_parse JSON_stringify ev env).2
     = match ev with
       | other_session active => active
       | _ => recordTranscribeActive env
       end.
Proof.
  destruct env as [[opts st stream r ws res q] act rate eff].
  cbn [this _state]. intros Hend.
  destruct st; try discriminate Hend;
    destruct ev; cbn [handle stale_grant]; unfold_handlers; run_M; eval_decide;
    rewrite ?app_nil_r; repeat split; reflexivity.
Qed.

(** X6: a session that has ended in [Finished], [Error] or [Canceled] stays
    as it is whatever happens next: calls of its methods, callbacks of the
    browser, messages. No callback is called again and nothing is sent; the
    one thing it still does is stop the tracks of a microphone stream that
    is granted too late. *)
Theorem ended_session_is_inert (JSON_parse : jsstring -> option json)
    (JSON_stringify : json -> jsstring) (events : list Event) (env : Env) :
  ended (_state (this env)) = true ->
  this (run JSON_parse JSON_stringify events env) = this env
  /\ effects (run JSON_parse JSON_stringify events env)
     = effects env ++ flat_map stale_grant events.
Proof.
  revert env. induction events as [|ev events IH]; intros env Hend.
  - cbn. rewrite app_nil_r. split; reflexivity.
  - rewrite run_cons.
    destruct (handle_ended JSON_parse JSON_stringify ev env Hend) as (Hthis & Heff & _).
    destruct (IH (handle JSON_parse JSON_stringify ev env).2) as [IHthis IHeff].
    + rewrite Hthis. exact Hend.
    + rewrite IHthis, IHeff, Hthis, Heff. cbn [flat_map]. rewrite <- app_assoc.
      split; reflexivity.
Qed.

(** X6 on the session of [finishing_env] once the service has closed with
    [eof]: a stop, a message, a late grant and a cancel leave it [Finished];
    only the late stream is stopped. *)
Lemma ended_session_is_inert_witness :
  this (run parse_nothing stringify_stub
          [call_stop; webSocket_onmessage (js "{}"); getUserMedia_resolved 2%nat; call_cancel]
          (finished finishing_env))
  = this (finished finishing_env)
  /\ effects (run parse_nothing stringify_stub
                [call_stop; webSocket_onmessage (js "{}"); getUserMedia_resolved 2%nat;
                 call_cancel]
                (finished finishing_env))
     = effects (finished finishing_env)
       ++ flat_map stale_grant
            [call_stop; webSocket_onmessage (js "{}"); getUserMedia_resolved 2%nat;
             call_cancel].
Proof.
  apply (ended_session_is_inert parse_nothing stringify_stub
           [call_stop; webSocket_onmessage (js "{}"); getUserMedia_resolved 2%nat; call_cancel]
           (finished finishing_env)).
  vm_compute. reflexivity.
Defined.

(** *** What a session holds *)

Section Resources.

Variable JSON_parse : jsstring -> option json.
Variable JSON_stringify : json -> jsstring.

Lemma resources_closed st o :
  isWebSocketState st = false -> resources_by_state (with_state st (closed o)).
Proof. destruct st; intros H; try discriminate H; repeat split. Qed.

Lemma resources_with_result result o :
  resources_by_state o -> resources_by_state (with_result result o).
Proof. destruct o; exact (fun H => H). Qed.

(** Every handler keeps what the session holds in line with its state. *)
Lemma handle_resources ev env :
  resources_by_state (this env) ->
  resources_by_state (this (handle JSON_parse JSON_stringify ev env).2).
Proof.
  destruct ev; cbn [handle].
  - (* a setter *)
    destruct env as [[opts st stream r ws res q] act rate eff].
    unfold setter. run_M. destruct st; eval_decide; trivial.
  - (* start() *)
    destruct env as [[opts st stream r ws res q] act rate eff].
    unfold start. run_M. destruct st; eval_decide; trivial.
    destruct act; cbn; trivial. destruct (_apiKey opts); cbn; trivial.
  - (* stop() *)
    destruct (decide (_state (this env) = RequestingMedia
                      \/ _state (this env) = OpeningWebSocket)) as [Hst|Hst].
    + unfold stop. run_M.
      replace (bool_decide (_state (this env) = RequestingMedia)
               || bool_decide (_state (this env) = OpeningWebSocket)) with true
        by (destruct Hst as [-> | ->]; reflexivity).
      cbv beta iota. rewrite closeResources_eq. intros _.
      apply (resources_closed FinishingEarly). reflexivity.
    + destruct env as [[opts st stream r ws res q] act rate eff].
      unfold stop. run_M. cbn in Hst.
      destruct st; eval_decide; trivial; try (exfalso; apply Hst; auto; fail).
      intros (s & -> & -> & -> & ->). unfold _stopRecording, mediaRecorder_stop. run_M.
      cbn. exists s. repeat split.
  - (* cancel() *)
    unfold cancel. run_M.
    destruct (isInactiveState _); cbn [negb]; [trivial|].
    cbv beta iota. rewrite closeResources_eq. intros _.
    apply (resources_closed Canceled). reflexivity.
  - (* the microphone is granted *)
    destruct env as [[opts st stream0 r ws res q] act rate eff].
    unfold _onGetUserMediaSuccess, _stopTracks, _startRecording, mediaRecorder_start.
    run_M. destruct st; eval_decide; trivial.
    intros _. exists stream, []. repeat split.
  - (* the microphone is refused *)
    unfold _onGetUserMediaError. run_M.
    destruct (bool_decide _); cbn [negb]; [|trivial].
    rewrite handleError_eq. intros _. apply (resources_closed Error). reflexivity.
  - (* a frame from the recorder *)
    destruct env as [[opts st stream r ws res q] act rate eff].
    unfold _onMediaRecorderData. run_M. destruct st; eval_decide; trivial.
    + intros (s & q' & -> & -> & -> & ->). cbn.
      destruct (Nat.leb_spec (length q') 99); cbn; eexists _, _; repeat split.
    + intros (s & -> & -> & -> & ->).
      rewrite (webSocket_send_ok _ {| url := _webSocketUri opts |}) by reflexivity.
      cbn. exists s. repeat split.
    + intros (s & -> & -> & -> & ->).
      rewrite (webSocket_send_ok _ {| url := _webSocketUri opts |}) by reflexivity.
      cbn. exists s. repeat split.
  - (* the recorder has ended *)
    destruct env as [[opts st stream r ws res q] act rate eff].
    unfold _onMediaRecorderEnd. run_M. destruct st; eval_decide; trivial.
    intros (s & -> & -> & -> & ->).
    unfold _closeMedia, mediaRecorder_stop, _stopTracks. run_M. cbn.
    rewrite (webSocket_send_ok _ {| url := _webSocketUri opts |}) by reflexivity.
    cbn. repeat split.
  - (* the socket opens *)
    destruct (decide (_state (this env) = OpeningWebSocket)) as [Hst|Hst].
    + intros Hres. unfold resources_by_state in Hres. rewrite Hst in Hres.
      destruct Hres as (s & q & Hs & Hr & Hws & Hq).
      rewrite (onWebSocketOpen_opening JSON_stringify env _ _ q Hst Hr Hws Hq).
      unfold opened, resources_by_state. cbn. rewrite Hs, Hr, Hws.
      exists s. repeat split.
    + rewrite (onWebSocketOpen_elsewhere JSON_stringify env Hst). trivial.
  - (* the socket closes *)
    destruct (onWebSocketClose_cases code reason env) as [-> | [-> | (st & m & ->)]];
      [trivial | intros _ | intros _].
    + apply (resources_closed Finished). reflexivity.
    + apply (resources_closed Error). reflexivity.
  - (* the socket fails *)
    unfold _onWebSocketError. run_M.
    destruct (isWebSocketState _); cbn [negb]; [|trivial].
    rewrite handleError_eq. intros _. apply (resources_closed Error). reflexivity.
  - (* a message *)
    destruct (onWebSocketMessage_this JSON_parse data env) as [result ->].
    apply resources_with_result.
  - (* the early finish completes *)
    unfold _completeFinishingEarly. run_M.
    destruct (bool_decide _); cbn [negb]; [|trivial].
    rewrite handleFinished_eq. intros _. apply (resources_closed Finished). reflexivity.
  - (* another session writes the flag *)
    trivial.
Qed.

Lemma reachable_resources env :
  reachable JSON_parse JSON_stringify env -> resources_by_state (this env).
Proof.
  induction 1 as [act rate eff|env ev _ IH]; [repeat split|].
  apply handle_resources, IH.
Qed.

End Resources.

(** *** What the log accounts for *)

Lemma granted_snoc events ev : granted (events ++ [ev]) = granted events ++ granted [ev].
Proof. apply flat_map_app. Qed.

Lemma streams_stopped_app log log' :
  streams_stopped (log ++ log') = streams_stopped log ++ streams_stopped log'.
Proof. apply flat_map_app. Qed.

Lemma resource_calls_app log log' :
  resource_calls (log ++ log') = resource_calls log ++ resource_calls log'.
Proof. apply flat_map_app. Qed.

Lemma final_callbacks_app log log' :
  final_callbacks (log ++ log') = final_callbacks log ++ final_callbacks log'.
Proof. apply flat_map_app. Qed.

(** An event that is no grant and changes neither the object nor the log. *)
Lemma accounted_same events ev env env' :
  granted [ev] = [] ->
  this env' = this env -> effects env' = effects env ->
  accounted events env -> accounted (events ++ [ev]) env'.
Proof.
  intros Hev Ht He. unfold accounted. rewrite granted_snoc, Hev, app_nil_r, Ht, He. trivial.
Qed.

Lemma final_callbacks_close o : final_callbacks (close_effects o) = [].
Proof.
  destruct o as [opts st stream r ws res q]. unfold close_effects. cbn.
  destruct ws, r as [[src []]|], stream; reflexivity.
Qed.

(** Releasing everything out of a state in which the session is active,
    into [FinishingEarly] or one of the three final states, with calls
    [extra] that touch no resource. *)
Lemma accounted_closed events ev env env' st' extra :
  granted [ev] = [] ->
  accounted events env ->
  isInactiveState (_state (this env)) = false ->
  this env' = with_state st' (closed (this env)) ->
  effects env' = effects env ++ close_effects (this env) ++ extra ->
  streams_stopped extra = [] ->
  resource_calls extra = [] ->
  match st' with
  | FinishingEarly | Canceled => final_callbacks extra = []
  | Finished =>
      final_callbacks extra
      = match _onFinished (options (this env)) with
        | Some f => [call_onFinished f]
        | None => []
        end
  | Error =>
      exists status message,
        final_callbacks extra
        = match _onError (options (this env)) with
          | Some f => [call_onError f status message]
          | None => []
          end
  | _ => False
  end ->
  accounted (events ++ [ev]) env'.
Proof.
  intros Hev (Hres & Hperm & Hlife & Hcb) Hact Ht He Hs Hr Hextra.
  unfold accounted. rewrite granted_snoc, Hev, app_nil_r, Ht, He.
  destruct env as [[opts st stream r ws res q] act rate eff].
  cbn [this effects _state options] in *.
  rewrite !streams_stopped_app, !resource_calls_app, !final_callbacks_app, Hs, Hr,
    final_callbacks_close, !app_nil_r.
  assert (final_callbacks eff = []) as ->
    by (destruct st; try discriminate Hact; exact Hcb).
  assert (resources_by_state
            (with_state st'
               (closed {| options := opts; _state := st; _stream := stream;
                          _mediaRecorder := r; _webSocket := ws; _result := res;
                          _queuedMessages := q |}))) as Hres'.
  { apply resources_closed. destruct st'; try reflexivity; destruct Hextra. }
  split; [exact Hres'|]. clear Hres'.
  unfold resources_by_state, holds_nothing in Hres. cbn in Hres.
  assert (lifecycle st' (_webSocketUri opts) = complete_lifecycles (_webSocketUri opts)) as Hl
    by (destruct st'; try reflexivity; destruct Hextra).
  cbn [with_state closed with_queuedMessages with_stream with_mediaRecorder with_webSocket
       _state _stream options]. rewrite Hl. clear Hl.
  split; [|split].
  - destruct st; try discriminate Hact;
      repeat match goal with
             | H : exists _, _ |- _ => destruct H as [? H]
             | H : _ /\ _ |- _ => destruct H as [? H]
             end; subst; cbn in *; rewrite ?app_nil_r in *; try exact Hperm.
  - unfold complete_lifecycles, acquired in *.
    destruct st; try discriminate Hact; cbn [lifecycle] in Hlife;
      repeat match goal with
             | H : exists _, _ |- _ => destruct H as [? H]
             | H : _ /\ _ |- _ => destruct H as [? H]
             end; subst; cbn;
      rewrite ?list_elem_of_singleton in Hlife;
      try (rewrite Hlife; cbn; rewrite !elem_of_cons; auto 6; fail).
    rewrite app_nil_r. exact Hlife.
  - destruct st'; try (destruct Hextra; fail); cbn; exact Hextra.
Qed.

Lemma onWebSocketClose_active code reason env :
  (isWebSocketState (_state (this env)) = false
   /\ _onWebSocketClose code reason env = (Return tt, env))
  \/ (isWebSocketState (_state (this env)) = true
      /\ (_onWebSocketClose code reason env = (Return tt, finished env)
          \/ exists status message,
               _onWebSocketClose code reason env = (Return tt, errored status message env))).
Proof.
  unfold _onWebSocketClose. run_M.
  destruct (isWebSocketState _); cbn [negb]; [right; split; [reflexivity|] | left; auto].
  destruct (code =? 1000)%N.
  - destruct (StatusMessageRegex_exec reason) as [[status message]|].
    + destruct (bool_decide (status = js "eof")).
      * destruct (bool_decide (_state (this env) = FinishingProcessing)).
        -- left. apply handleFinished_eq.
        -- right. eexists _, _. apply handleError_eq.
      * right. eexists _, _. apply handleError_eq.
    + right. eexists _, _. apply handleError_eq.
  - right. eexists _, _. apply handleError_eq.
Qed.

Ltac flat_logs :=
  unfold streams_stopped, resource_calls, final_callbacks, granted in *;
  rewrite ?flat_map_app;
  cbn [flat_map app is_resource_call option_list] in *;
  rewrite ?app_nil_r in *.

Ltac expose H :=
  unfold accounted, resources_by_state, holds_nothing in H;
  cbn [this _state _stream _mediaRecorder _webSocket _queuedMessages options effects] in H.

Ltac unchanged :=
  eapply accounted_same; [reflexivity | reflexivity | reflexivity | eassumption].

Lemma ws_state_active st : isWebSocketState st = true -> isInactiveState st = false.
Proof. destruct st; intros H; try discriminate H; reflexivity. Qed.

Section Accounting.

Variable JSON_parse : jsstring -> option json.
Variable JSON_stringify : json -> jsstring.

(** A message changes the result only, and calls at most the partial-result
    callback. *)
Lemma onWebSocketMessage_effects data env :
  exists result extra,
    this (_onWebSocketMessage JSON_parse data env).2 = with_result result (this env)
    /\ effects (_onWebSocketMessage JSON_parse data env).2 = effects env ++ extra
    /\ streams_stopped extra = [] /\ resource_calls extra = [] /\ final_callbacks extra = [].
Proof.
  unfold _onWebSocketMessage, _updateResult. run_M.
  destruct (_ && _ && _).
  - exists (_result (this env)), []. rewrite app_nil_r.
    destruct env as [[] ? ? ?]; repeat split.
  - destruct (JSON_parse data) as [response|]; cbn.
    + destruct (resultFromResponse response) as [result|e]; cbn.
      * exists (updateResult (_result (this env)) result).
        destruct (_onPartialResult (options (this env))); cbn.
        -- eexists [_]. repeat split.
        -- exists []. rewrite app_nil_r. repeat split.
      * exists (_result (this env)), []. rewrite app_nil_r.
        destruct env as [[] ? ? ?]; repeat split.
    + exists (_result (this env)), []. rewrite app_nil_r.
      destruct env as [[] ? ? ?]; repeat split.
Qed.

Lemma sends_are_quiet (q : list (list Z)) :
  streams_stopped (map (fun m => webSocket_send (Binary m)) q) = []
  /\ resource_calls (map (fun m => webSocket_send (Binary m)) q) = []
  /\ final_callbacks (map (fun m => webSocket_send (Binary m)) q) = [].
Proof. induction q as [|m q IH]; [repeat split|exact IH]. Qed.

(** A step that keeps the state, the options and the stream, and makes
    calls that touch no resource. *)
Lemma accounted_quiet events ev env env' extra :
  granted [ev] = [] ->
  accounted events env ->
  resources_by_state (this env') ->
  _state (this env') = _state (this env) ->
  options (this env') = options (this env) ->
  _stream (this env') = _stream (this env) ->
  effects env' = effects env ++ extra ->
  streams_stopped extra = [] -> resource_calls extra = [] -> final_callbacks extra = [] ->
  accounted (events ++ [ev]) env'.
Proof.
  intros Hev (_ & Hperm & Hlife & Hcb) Hres Hst Hopt Hstr He Hs Hr Hf.
  unfold accounted.
  rewrite granted_snoc, Hev, Hst, Hopt, Hstr, He, streams_stopped_app, resource_calls_app,
    final_callbacks_app, Hs, Hr, Hf, !app_nil_r.
  auto.
Qed.

Lemma accounted_step ev events env :
  accounted events env ->
  accounted (events ++ [ev]) (handle JSON_parse JSON_stringify ev env).2.
Proof.
  intros Hacc.
  pose proof (handle_resources JSON_parse JSON_stringify ev env (proj1 Hacc)) as Hres'.
  destruct ev; cbn [handle] in *.
  - (* a setter *)
    destruct env as [[opts st stream r ws res q] act rate eff].
    revert Hres'. unfold setter. run_M.
    destruct st; eval_decide; intros Hres';
      unchanged.
  - (* start() *)
    destruct env as [[opts st stream r ws res q] act rate eff].
    revert Hres'. unfold start. run_M.
    destruct st; eval_decide; intros Hres';
      try (unchanged).
    destruct act; cbn in *;
      [unchanged|].
    destruct (_apiKey opts); cbn in *;
      [|unchanged].
    destruct Hacc as (_ & Hperm & Hlife & Hcb).
    split; [exact Hres'|].
    cbn [this effects _state options _stream with_state lifecycle] in *. flat_logs.
    apply list_elem_of_singleton in Hlife. rewrite Hlife, Hcb.
    repeat split; [exact Hperm|]. apply list_elem_of_singleton. reflexivity.
  - (* stop() *)
    destruct (decide (_state (this env) = RequestingMedia
                      \/ _state (this env) = OpeningWebSocket)) as [Hst|Hst].
    + clear Hres'. unfold stop. run_M.
      replace (bool_decide (_state (this env) = RequestingMedia)
               || bool_decide (_state (this env) = OpeningWebSocket)) with true
        by (destruct Hst as [-> | ->]; reflexivity).
      cbv beta iota. rewrite closeResources_eq.
      eapply (accounted_closed events _ env _ FinishingEarly [then_completeFinishingEarly]);
        [reflexivity | exact Hacc | destruct Hst as [-> | ->]; reflexivity | reflexivity
        | cbn; rewrite <- app_assoc; reflexivity | reflexivity | reflexivity | reflexivity].
    + destruct env as [[opts st stream r ws res q] act rate eff].
      revert Hres'. unfold stop. run_M. cbn in Hst.
      destruct st; eval_decide; intros Hres'; try unchanged;
        try (exfalso; apply Hst; auto; fail).
      expose Hacc. destruct Hacc as ((s & -> & -> & -> & ->) & Hperm & Hlife & Hcb).
      revert Hres'. unfold _stopRecording, mediaRecorder_stop. run_M. cbn. intros Hres'.
      split; [exact Hres'|].
      cbn [this effects _state options _stream lifecycle] in *. flat_logs.
      apply list_elem_of_singleton in Hlife. rewrite Hlife, Hcb.
      repeat split; [exact Hperm|]. apply list_elem_of_singleton. reflexivity.
  - (* cancel() *)
    clear Hres'. unfold cancel. run_M.
    destruct (isInactiveState (_state (this env))) eqn:Hin; cbn [negb]; [unchanged|].
    cbv beta iota. rewrite closeResources_eq.
    eapply (accounted_closed events _ env _ Canceled []);
      [reflexivity | exact Hacc | exact Hin | reflexivity
      | cbn; rewrite app_nil_r; reflexivity | reflexivity | reflexivity | reflexivity].
  - (* the microphone is granted *)
    destruct env as [[opts st stream0 r ws res q] act rate eff].
    revert Hres'.
    unfold _onGetUserMediaSuccess, _stopTracks, _startRecording, mediaRecorder_start.
    run_M. destruct st; eval_decide; intros Hres';
      expose Hacc; destruct Hacc as (Hres & Hperm & Hlife & Hcb); (split; [exact Hres'|]);
      cbn [this effects _state options _stream lifecycle] in *; flat_logs;
      try (split; [|split; assumption];
           rewrite <- Hperm, <- !app_assoc;
           apply Permutation_app_head, Permutation_app_comm).
    destruct Hres as (-> & _). flat_logs.
    apply list_elem_of_singleton in Hlife. rewrite Hlife, Hcb.
    repeat split; [rewrite Hperm; reflexivity|]. apply list_elem_of_singleton. reflexivity.
  - (* the microphone is refused *)
    clear Hres'. unfold _onGetUserMediaError. run_M.
    destruct (bool_decide (_state (this env) = RequestingMedia)) eqn:Hb; cbn [negb];
      [|unchanged].
    apply bool_decide_eq_true in Hb. rewrite handleError_eq.
    eapply (accounted_closed events _ env _ Error _);
      [reflexivity | exact Hacc | rewrite Hb; reflexivity | reflexivity | reflexivity | ..];
      destruct (_onError (options (this env))); try reflexivity;
      exists (js "get_user_media_failed"), (js "Failed to get user media."); reflexivity.
  - (* a frame from the recorder *)
    destruct env as [[opts st stream r ws res q] act rate eff].
    revert Hres'. unfold _onMediaRecorderData. run_M.
    destruct st; eval_decide; intros Hres'; try unchanged.
    + pose proof (proj1 Hacc) as Hres. expose Hres.
      destruct Hres as (s & q' & -> & -> & -> & ->).
      revert Hres'. cbn. destruct (Nat.leb_spec (length q') 99); cbn; intros Hres'.
      * eapply (accounted_quiet events _ _ _ []);
          [reflexivity | exact Hacc | exact Hres' | reflexivity | reflexivity | reflexivity
          | cbn; rewrite app_nil_r; reflexivity | reflexivity | reflexivity | reflexivity].
      * eapply (accounted_quiet events _ _ _ [_]);
          [reflexivity | exact Hacc | exact Hres' | reflexivity | reflexivity | reflexivity
          | reflexivity | reflexivity | reflexivity | reflexivity].
    + pose proof (proj1 Hacc) as Hres. expose Hres.
      destruct Hres as (s & -> & -> & -> & ->).
      revert Hres'.
      rewrite (webSocket_send_ok _ {| url := _webSocketUri opts |}) by reflexivity.
      cbn. intros Hres'.
      eapply (accounted_quiet events _ _ _ [_]);
        [reflexivity | exact Hacc | exact Hres' | reflexivity | reflexivity | reflexivity
        | reflexivity | reflexivity | reflexivity | reflexivity].
    + pose proof (proj1 Hacc) as Hres. expose Hres.
      destruct Hres as (s & -> & -> & -> & ->).
      revert Hres'.
      rewrite (webSocket_send_ok _ {| url := _webSocketUri opts |}) by reflexivity.
      cbn. intros Hres'.
      eapply (accounted_quiet events _ _ _ [_]);
        [reflexivity | exact Hacc | exact Hres' | reflexivity | reflexivity | reflexivity
        | reflexivity | reflexivity | reflexivity | reflexivity].
  - (* the recorder has ended *)
    destruct env as [[opts st stream r ws res q] act rate eff].
    revert Hres'. unfold _onMediaRecorderEnd. run_M.
    destruct st; eval_decide; intros Hres'; try unchanged.
    expose Hacc. destruct Hacc as ((s & -> & -> & -> & ->) & Hperm & Hlife & Hcb).
    revert Hres'. unfold _closeMedia, mediaRecorder_stop, _stopTracks. run_M. cbn.
    rewrite (webSocket_send_ok _ {| url := _webSocketUri opts |}) by reflexivity.
    cbn. intros Hres'.
    split; [exact Hres'|].
    cbn [this effects _state options _stream lifecycle] in *. flat_logs.
    apply list_elem_of_singleton in Hlife. rewrite Hlife, Hcb.
    repeat split; [exact Hperm|]. apply list_elem_of_singleton. reflexivity.
  - (* the socket opens *)
    destruct (decide (_state (this env) = OpeningWebSocket)) as [Hst|Hst].
    + pose proof (proj1 Hacc) as Hres. unfold resources_by_state in Hres.
      rewrite Hst in Hres. destruct Hres as (s & q & Hs & Hr & Hws & Hq).
      revert Hres'.
      rewrite (onWebSocketOpen_opening JSON_stringify env _ _ q Hst Hr Hws Hq).
      intros Hres'.
      destruct (sends_are_quiet q) as (Hq1 & Hq2 & Hq3).
      destruct env as [[opts st stream r ws res q0] act rate eff].
      cbn [this _state] in Hst. subst st.
      expose Hacc. destruct Hacc as (_ & Hperm & Hlife & Hcb).
      split; [exact Hres'|]. unfold opened.
      cbn [snd this effects _state options _stream with_state with_queuedMessages lifecycle
           context_sampleRate] in *.
      flat_logs. rewrite Hq1, Hq2, Hq3.
      destruct (_onStarted opts); flat_logs; auto.
    + rewrite (onWebSocketOpen_elsewhere JSON_stringify env Hst). unchanged.
  - (* the socket closes *)
    clear Hres'.
    destruct (onWebSocketClose_active code reason env)
      as [[_ ->] | [Hws [-> | (status & message & ->)]]].
    + unchanged.
    + eapply (accounted_closed events _ env _ Finished _);
        [reflexivity | exact Hacc | apply ws_state_active, Hws | reflexivity | reflexivity
        | ..];
        destruct (_onFinished (options (this env))); reflexivity.
    + eapply (accounted_closed events _ env _ Error _);
        [reflexivity | exact Hacc | apply ws_state_active, Hws | reflexivity | reflexivity
        | ..];
        destruct (_onError (options (this env))); try reflexivity;
        exists status, message; reflexivity.
  - (* the socket fails *)
    clear Hres'. unfold _onWebSocketError. run_M.
    destruct (isWebSocketState (_state (this env))) eqn:Hws; cbn [negb]; [|unchanged].
    rewrite handleError_eq.
    eapply (accounted_closed events _ env _ Error _);
      [reflexivity | exact Hacc | apply ws_state_active, Hws | reflexivity | reflexivity
      | ..];
      destruct (_onError (options (this env))); try reflexivity;
      exists (js "websocket_error"), (js "WebSocket error occurred."); reflexivity.
  - (* a message *)
    destruct (onWebSocketMessage_effects data env) as (result & extra & Ht & He & H1 & H2 & H3).
    eapply (accounted_quiet events _ env _ extra);
      [reflexivity | exact Hacc | exact Hres' | | | | exact He | exact H1 | exact H2 | exact H3];
      rewrite Ht; destruct env as [[] ? ? ?]; reflexivity.
  - (* the early finish completes *)
    clear Hres'. unfold _completeFinishingEarly. run_M.
    destruct (bool_decide (_state (this env) = FinishingEarly)) eqn:Hb; cbn [negb];
      [|unchanged].
    apply bool_decide_eq_true in Hb. rewrite handleFinished_eq.
    eapply (accounted_closed events _ env _ Finished _);
      [reflexivity | exact Hacc | rewrite Hb; reflexivity | reflexivity | reflexivity | ..];
      destruct (_onFinished (options (this env))); reflexivity.
  - (* another session writes the flag *)
    unchanged.
Qed.

Lemma accounted_run events : forall prefix env,
  accounted prefix env ->
  accounted (prefix ++ events) (run JSON_parse JSON_stringify events env).
Proof.
  induction events as [|ev events IH]; intros prefix env Hacc.
  - rewrite app_nil_r. exact Hacc.
  - rewrite run_cons. replace (prefix ++ ev :: events) with ((prefix ++ [ev]) ++ events)
      by (rewrite <- app_assoc; reflexivity).
    apply IH, accounted_step, Hacc.
Qed.

Lemma accounted_new_run events active rate :
  accounted events (run JSON_parse JSON_stringify events (new_env active rate)).
Proof.
  apply (accounted_run events []).
  split; [repeat split|].
  split; [reflexivity|].
  split; [apply list_elem_of_singleton; reflexivity | reflexivity].
Qed.

End Accounting.






(** X10: at most one final callback. After any events on a new session the
    log holds no call of [onFinished] or [onError], unless the session is
    [Finished], and then exactly the one call of [onFinished] if that
    callback is set, or in [Error], and then exactly the one call of
    [onError] if set. A canceled session has called neither. *)
Theorem one_final_callback (JSON_parse : jsstring -> option json)
    (JSON_stringify : json -> jsstring) (events : list Event) (active : bool) (rate : Q) :
  let env := run JSON_parse JSON_stringify events (new_env active rate) in
  match _state (this env) with
  | Finished =>
      final_callbacks (effects env)
      = match _onFinished (options (this env)) with
        | Some f => [call_onFinished f]
        | None => []
        end
  | Error =>
      exists status message,
        final_callbacks (effects env)
        = match _onError (options (this env)) with
          | Some f => [call_onError f status message]
          | None => []
          end
  | _ => final_callbacks (effects env) = []
  end.
Proof.
  cbv zeta.
  destruct (accounted_new_run JSON_parse JSON_stringify events active rate)
    as (_ & _ & _ & Hcb).
  exact Hcb.
Qed.

(** *** States, options and the flag *)

Section Kind.

Variable JSON_parse : jsstring -> option json.
Variable JSON_stringify : json -> jsstring.

Lemma onWebSocketMessage_flag data env :
  recordTranscribeActive (_onWebSocketMessage JSON_parse data env).2
  = recordTranscribeActive env.
Proof.
  unfold _onWebSocketMessage, _updateResult. run_M.
  destruct (_ && _ && _); [reflexivity|].
  destruct (JSON_parse data) as [response|]; cbn; [|reflexivity].
  destruct (resultFromResponse response) as [result|e]; cbn; [|reflexivity].
  destruct (_onPartialResult (options (this env))); reflexivity.
Qed.

Ltac stays := split; [intros Hne; split; [reflexivity|exact Hne] | left; split; reflexivity].

(** One event of the session itself: once started the options and the
    state [Init] are left for good, and the flag follows the state. *)
Lemma handle_kind ev env :
  resources_by_state (this env) ->
  is_other_session ev = false ->
  let env' := (handle JSON_parse JSON_stringify ev env).2 in
  (_state (this env) <> Init ->
   options (this env') = options (this env) /\ _state (this env') <> Init)
  /\ flag_step (_state (this env)) (recordTranscribeActive env)
       (_state (this env')) (recordTranscribeActive env').
Proof.
  intros Hres Hev. cbv zeta.
  destruct ev; try discriminate Hev; clear Hev; cbn [handle].
  - (* a setter *)
    destruct env as [[opts st stream r ws res q] act rate eff].
    unfold setter. run_M. destruct st; eval_decide; try stays.
    split; [intros H; destruct (H eq_refl)|left; split; reflexivity].
  - (* start() *)
    destruct env as [[opts st stream r ws res q] act rate eff].
    unfold start. run_M. destruct st; eval_decide; try stays.
    destruct act; cbn; [stays|]. destruct (_apiKey opts); cbn; [|stays].
    split; [intros H; destruct (H eq_refl)|right; left; repeat split].
  - (* stop() *)
    destruct (decide (_state (this env) = RequestingMedia
                      \/ _state (this env) = OpeningWebSocket)) as [Hst|Hst].
    + unfold stop. run_M.
      replace (bool_decide (_state (this env) = RequestingMedia)
               || bool_decide (_state (this env) = OpeningWebSocket)) with true
        by (destruct Hst as [-> | ->]; reflexivity).
      cbv beta iota. rewrite closeResources_eq.
      destruct env as [[opts st stream r ws res q] act rate eff]. cbn in *.
      split; [intros _; split; [reflexivity|discriminate]|].
      left. destruct Hst as [-> | ->]; split; reflexivity.
    + destruct env as [[opts st stream r ws res q] act rate eff].
      unfold stop. run_M. cbn in Hst.
      destruct st; eval_decide; try stays; try (exfalso; apply Hst; auto; fail).
      expose Hres. destruct Hres as (s & -> & -> & -> & ->).
      unfold _stopRecording, mediaRecorder_stop. run_M. cbn.
      split; [intros _; split; [reflexivity|discriminate]|left; split; reflexivity].
  - (* cancel() *)
    unfold cancel. run_M.
    destruct (isInactiveState (_state (this env))) eqn:Hin; cbn [negb]; [stays|].
    cbv beta iota. rewrite closeResources_eq.
    destruct env as [[opts st stream r ws res q] act rate eff]. cbn in *.
    split; [intros _; split; [reflexivity|discriminate]|].
    right; right. repeat split. exact Hin.
  - (* the microphone is granted *)
    destruct env as [[opts st stream0 r ws res q] act rate eff].
    unfold _onGetUserMediaSuccess, _stopTracks, _startRecording, mediaRecorder_start.
    run_M. destruct st; eval_decide; try stays.
    split; [intros _; split; [reflexivity|discriminate]|left; split; reflexivity].
  - (* the microphone is refused *)
    unfold _onGetUserMediaError. run_M.
    destruct (bool_decide (_state (this env) = RequestingMedia)) eqn:Hb; cbn [negb]; [|stays].
    apply bool_decide_eq_true in Hb. rewrite handleError_eq.
    destruct env as [[opts st stream r ws res q] act rate eff]. cbn in *. subst st.
    split; [intros _; split; [reflexivity|discriminate]|].
    right; right. repeat split.
  - (* a frame from the recorder *)
    destruct env as [[opts st stream r ws res q] act rate eff].
    unfold _onMediaRecorderData. run_M.
    destruct st; eval_decide; try stays; expose Hres.
    + destruct Hres as (s & q' & -> & -> & -> & ->). cbn.
      destruct (Nat.leb_spec (length q') 99); cbn; stays.
    + destruct Hres as (s & -> & -> & -> & ->).
      rewrite (webSocket_send_ok _ {| url := _webSocketUri opts |}) by reflexivity.
      cbn. stays.
    + destruct Hres as (s & -> & -> & -> & ->).
      rewrite (webSocket_send_ok _ {| url := _webSocketUri opts |}) by reflexivity.
      cbn. stays.
  - (* the recorder has ended *)
    destruct env as [[opts st stream r ws res q] act rate eff].
    unfold _onMediaRecorderEnd. run_M.
    destruct st; eval_decide; try stays. expose Hres.
    destruct Hres as (s & -> & -> & -> & ->).
    unfold _closeMedia, mediaRecorder_stop, _stopTracks. run_M. cbn.
    rewrite (webSocket_send_ok _ {| url := _webSocketUri opts |}) by reflexivity.
    cbn. split; [intros _; split; [reflexivity|discriminate]|left; split; reflexivity].
  - (* the socket opens *)
    destruct (decide (_state (this env) = OpeningWebSocket)) as [Hst|Hst].
    + unfold resources_by_state in Hres.
      rewrite Hst in Hres. destruct Hres as (s & q & Hs & Hr & Hws & Hq).
      rewrite (onWebSocketOpen_opening JSON_stringify env _ _ q Hst Hr Hws Hq).
      destruct env as [[opts st stream r ws res q0] act rate eff]. cbn in *. subst st.
      split; [intros _; split; [reflexivity|discriminate]|left; split; reflexivity].
    + rewrite (onWebSocketOpen_elsewhere JSON_stringify env Hst). stays.
  - (* the socket closes *)
    destruct (onWebSocketClose_active code reason env)
      as [[_ ->] | [Hws [-> | (status & message & ->)]]]; [stays| |];
      apply ws_state_active in Hws;
      destruct env as [[opts st stream r ws res q] act rate eff]; cbn in *;
      (split; [intros _; split; [reflexivity|discriminate]|]);
      right; right; repeat split; exact Hws.
  - (* the socket fails *)
    unfold _onWebSocketError. run_M.
    destruct (isWebSocketState (_state (this env))) eqn:Hws; cbn [negb]; [|stays].
    rewrite handleError_eq. apply ws_state_active in Hws.
    destruct env as [[opts st stream r ws res q] act rate eff]; cbn in *.
    split; [intros _; split; [reflexivity|discriminate]|].
    right; right; repeat split; exact Hws.
  - (* a message *)
    rewrite onWebSocketMessage_flag.
    destruct (onWebSocketMessage_this JSON_parse data env) as [result ->].
    destruct env as [[opts st stream r ws res q] act rate eff]. cbn. stays.
  - (* the early finish completes *)
    unfold _completeFinishingEarly. run_M.
    destruct (bool_decide (_state (this env) = FinishingEarly)) eqn:Hb; cbn [negb]; [|stays].
    apply bool_decide_eq_true in Hb. rewrite handleFinished_eq.
    destruct env as [[opts st stream r ws res q] act rate eff]. cbn in *. subst st.
    split; [intros _; split; [reflexivity|discriminate]|].
    right; right. repeat split.
Qed.

(** Any event on a session that has left [Init]. *)
Lemma handle_started ev env :
  resources_by_state (this env) ->
  _state (this env) <> Init ->
  options (this (handle JSON_parse JSON_stringify ev env).2) = options (this env)
  /\ _state (this (handle JSON_parse JSON_stringify ev env).2) <> Init.
Proof.
  intros Hres Hst. destruct (is_other_session ev) eqn:Hev.
  - destruct ev; try discriminate Hev. cbn. split; [reflexivity|exact Hst].
  - apply (proj1 (handle_kind ev env Hres Hev) Hst).
Qed.

Lemma run_started events : forall env,
  resources_by_state (this env) ->
  _state (this env) <> Init ->
  options (this (run JSON_parse JSON_stringify events env)) = options (this env)
  /\ _state (this (run JSON_parse JSON_stringify events env)) <> Init.
Proof.
  induction events as [|ev events IH]; intros env Hres Hst; [split; [reflexivity|exact Hst]|].
  rewrite run_cons.
  destruct (handle_started ev env Hres Hst) as [Hopt Hst'].
  destruct (IH _ (handle_resources JSON_parse JSON_stringify ev env Hres) Hst') as [IHopt IHst].
  split; [rewrite IHopt; exact Hopt|exact IHst].
Qed.

End Kind.

Lemma setter_refused method update env :
  _state (this env) <> Init ->
  setter method update env
  = (Throw (Thrown (method ++ js "() may only be called before start()")), env).
Proof.
  intros Hst. unfold setter. run_M.
  rewrite (bool_decide_eq_false_2 _ Hst). reflexivity.
Qed.

(** X11: the options are frozen by [start()]. On a reachable session that
    has left [Init], whatever happens next, the options stay as they are,
    the session never is in [Init] again, and every setter throws
    "<name>() may only be called before start()" and changes nothing. *)
Theorem options_frozen_after_start (JSON_parse : jsstring -> option json)
    (JSON_stringify : json -> jsstring) (env : Env) (events : list Event) :
  reachable JSON_parse JSON_stringify env ->
  _state (this env) <> Init ->
  let env' := run JSON_parse JSON_stringify events env in
  options (this env') = options (this env)
  /\ _state (this env') <> Init
  /\ forall method update,
       setter method update env'
       = (Throw (Thrown (method ++ js "() may only be called before start()")), env').
Proof.
  intros Hreach Hst. cbv zeta.
  destruct (run_started JSON_parse JSON_stringify events env
              (reachable_resources _ _ _ Hreach) Hst) as [Hopt Hst'].
  split; [exact Hopt|]. split; [exact Hst'|].
  intros method update. apply setter_refused, Hst'.
Qed.

(** X11 on the session with two queued frames: the socket opens, the user
    stops, a setter is tried. *)
Lemma options_frozen_after_start_witness :
  options (this (run parse_nothing stringify_stub
                   [webSocket_onopen; call_stop;
                    call_setter (js "setApiKey") (with_apiKey None)] queued_env))
  = options (this queued_env)
  /\ _state (this (run parse_nothing stringify_stub
                     [webSocket_onopen; call_stop;
                      call_setter (js "setApiKey") (with_apiKey None)] queued_env))
     <> Init
  /\ forall method update,
       setter method update
         (run parse_nothing stringify_stub
            [webSocket_onopen; call_stop;
             call_setter (js "setApiKey") (with_apiKey None)] queued_env)
       = (Throw (Thrown (method ++ js "() may only be called before start()")),
          run parse_nothing stringify_stub
            [webSocket_onopen; call_stop;
             call_setter (js "setApiKey") (with_apiKey None)] queued_env).
Proof.
  apply (options_frozen_after_start parse_nothing stringify_stub queued_env
           [webSocket_onopen; call_stop; call_setter (js "setApiKey") (with_apiKey None)]
           reachable_queued_env).
  intros H. vm_compute in H. discriminate H.
Defined.

(** *** Several sessions *)

Section Page.

Variable JSON_parse : jsstring -> option json.
Variable JSON_stringify : json -> jsstring.

Lemma page_step_inv w c :
  page_inv w -> page_inv (page_step JSON_parse JSON_stringify w c).
Proof.
  intros Hinv. pose proof Hinv as (Hres & Huniq & Hflag).
  destruct c as [obj|obj ev]; cbn [page_step].
  - destruct (heap w !! obj) eqn:Hobj; [exact Hinv|].
    assert (forall i, active_at {| heap := <[obj:=new_RecordTranscribe]> (heap w);
                                   active := active w; sampleRate := sampleRate w;
                                   log := log w |} i <-> active_at w i) as Hsame.
    { intros i. unfold active_at. cbn [heap]. split; intros (o & Ho & Hact).
      - destruct (decide (i = obj)) as [->|Hne].
        + rewrite lookup_insert_eq in Ho. injection Ho as <-. discriminate Hact.
        + rewrite lookup_insert_ne in Ho by congruence. eauto.
      - exists o. split; [|exact Hact].
        rewrite lookup_insert_ne; [exact Ho|]. intros ->. congruence. }
    split; [|split].
    + intros i o. cbn [heap]. destruct (decide (i = obj)) as [->|Hne].
      * rewrite lookup_insert_eq. intros [= <-]. repeat split.
      * rewrite lookup_insert_ne by congruence. apply Hres.
    + intros i j Hi Hj. apply Hsame in Hi, Hj. apply Huniq; assumption.
    + cbn [active]. rewrite Hflag. split; intros [i Hi]; exists i; apply Hsame; exact Hi.
  - destruct (is_other_session ev) eqn:Hev; [exact Hinv|].
    unfold invoke. destruct (heap w !! obj) as [o|] eqn:Hobj; [|exact Hinv].
    set (env := {| this := o; recordTranscribeActive := active w;
                   context_sampleRate := sampleRate w; effects := log w |}).
    pose proof (handle_resources JSON_parse JSON_stringify ev env (Hres obj o Hobj)) as Hres'.
    pose proof (handle_kind JSON_parse JSON_stringify ev env (Hres obj o Hobj) Hev)
      as [_ Hstep].
    cbv zeta in Hstep.
    destruct (handle JSON_parse JSON_stringify ev env) as [r env'] eqn:Ehandle.
    cbn [fst snd this recordTranscribeActive] in *. subst env. cbn [this recordTranscribeActive] in *.
    set (w' := {| heap := <[obj:=this env']> (heap w); active := recordTranscribeActive env';
                  sampleRate := context_sampleRate env'; log := effects env' |}).
    assert (forall i, i <> obj -> active_at w' i <-> active_at w i) as Hother.
    { intros i Hne. unfold active_at, w'. cbn [heap].
      rewrite lookup_insert_ne by congruence. reflexivity. }
    assert (active_at w' obj <-> isInactiveState (_state (this env')) = false) as Hobj'.
    { unfold active_at, w'. cbn [heap]. rewrite lookup_insert_eq. split.
      - intros (o' & [= <-] & H). exact H.
      - intros H. eauto. }
    assert (active_at w obj <-> isInactiveState (_state o) = false) as Hobj0.
    { unfold active_at. rewrite Hobj. split.
      - intros (o' & [= <-] & H). exact H.
      - intros H. eauto. }
    split; [|split].
    + intros i o'. unfold w'. cbn [heap]. destruct (decide (i = obj)) as [->|Hne].
      * rewrite lookup_insert_eq. intros [= <-]. exact Hres'.
      * rewrite lookup_insert_ne by congruence. apply Hres.
    + intros i j Hi Hj.
      destruct Hstep as [[Hclass Hf] | [(Hinit & Hreq & Hf & Hf') | (Hact & Hin & Hf)]].
      * assert (forall k, active_at w' k -> active_at w k) as Hback.
        { intros k Hk. destruct (decide (k = obj)) as [->|Hne].
          - apply Hobj0. rewrite <- Hclass. apply Hobj'. exact Hk.
          - apply Hother; assumption. }
        apply Huniq; apply Hback; assumption.
      * assert (forall k, active_at w' k -> k = obj) as Honly.
        { intros k Hk. destruct (decide (k = obj)) as [->|Hne]; [reflexivity|].
          exfalso. apply Hother in Hk; [|exact Hne].
          assert (active w = true) as Ht by (apply Hflag; eauto). congruence. }
        rewrite (Honly i Hi), (Honly j Hj). reflexivity.
      * assert (forall k, ~ active_at w' k) as Hnone.
        { intros k Hk. destruct (decide (k = obj)) as [->|Hne].
          - apply Hobj' in Hk. congruence.
          - apply Hother in Hk; [|exact Hne].
            apply Hne. apply Huniq; [exact Hk|]. apply Hobj0. exact Hact. }
        destruct (Hnone i Hi).
    + unfold w' at 1. cbn [active].
      destruct Hstep as [[Hclass Hf] | [(Hinit & Hreq & Hf & Hf') | (Hact & Hin & Hf)]].
      * rewrite Hf, Hflag. split; intros [k Hk]; exists k.
        -- destruct (decide (k = obj)) as [->|Hne].
           ++ apply Hobj'. rewrite Hclass. apply Hobj0. exact Hk.
           ++ apply Hother; assumption.
        -- destruct (decide (k = obj)) as [->|Hne].
           ++ apply Hobj0. rewrite <- Hclass. apply Hobj'. exact Hk.
           ++ apply Hother; assumption.
      * rewrite Hf'. split; [intros _|reflexivity].
        exists obj. apply Hobj'. rewrite Hreq. reflexivity.
      * rewrite Hf. split; [discriminate|]. intros [k Hk]. exfalso.
        destruct (decide (k = obj)) as [->|Hne].
        -- apply Hobj' in Hk. congruence.
        -- apply Hother in Hk; [|exact Hne].
           apply Hne. apply Huniq; [exact Hk|]. apply Hobj0. exact Hact.
Qed.

Lemma page_run_inv steps : forall w,
  page_inv w -> page_inv (page_run JSON_parse JSON_stringify steps w).
Proof.
  induction steps as [|c steps IH]; intros w Hinv; [exact Hinv|].
  cbn [page_run fold_left]. apply IH, page_step_inv, Hinv.
Qed.

End Page.

(** X12: only one session is active at a time. In a page that starts
    without sessions, after any constructions of sessions and any events on
    them (calls of their methods, callbacks of the browser), at most one
    session is in a state other than [Init], [Finished], [Error] and
    [Canceled], and the module's flag [recordTranscribeActive] is set exactly
    when there is one. *)
Theorem one_session_active_at_a_time (JSON_parse : jsstring -> option json)
    (JSON_stringify : json -> jsstring) (steps : list PageEvent) (rate : Q) :
  let w := page_run JSON_parse JSON_stringify steps (empty_page rate) in
  (forall i j, active_at w i -> active_at w j -> i = j)
  /\ (active w = true <-> exists i, active_at w i).
Proof.
  cbv zeta. apply (page_run_inv JSON_parse JSON_stringify steps (empty_page rate)).
  split; [|split].
  - intros i o H. unfold empty_page in H. cbn [heap] in H.
    rewrite lookup_empty in H. discriminate H.
  - intros i j (o & H & _). unfold empty_page in H. cbn [heap] in H.
    rewrite lookup_empty in H. discriminate H.
  - unfold empty_page at 1. cbn [active]. split; [discriminate|]. intros (i & o & H & _).
    unfold empty_page in H. cbn [heap] in H. rewrite lookup_empty in H. discriminate H.
Qed.

(** *** Ending a session early, canceling, failing *)

Lemma stop_early env :
  _state (this env) = RequestingMedia \/ _state (this env) = OpeningWebSocket ->
  stop env
  = (Return tt,
     {| this := with_state FinishingEarly (closed (this env));
        recordTranscribeActive := recordTranscribeActive env;
        context_sampleRate := context_sampleRate env;
        effects := effects env ++ close_effects (this env) ++ [then_completeFinishingEarly] |}).
Proof.
  intros Hst. unfold stop. run_M.
  replace (bool_decide (_state (this env) = RequestingMedia)
           || bool_decide (_state (this env) = OpeningWebSocket)) with true
    by (destruct Hst as [-> | ->]; reflexivity).
  cbv beta iota. rewrite closeResources_eq. cbn. rewrite <- app_assoc. reflexivity.
Qed.

Lemma cancel_eq env :
  cancel env
  = (Return tt,
     if isInactiveState (_state (this env)) then env
     else {| this := with_state Canceled (closed (this env));
             recordTranscribeActive := false;
             context_sampleRate := context_sampleRate env;
             effects := effects env ++ close_effects (this env) |}).
Proof.
  unfold cancel. run_M.
  destruct (isInactiveState (_state (this env))); cbn [negb]; [reflexivity|].
  cbv beta iota. rewrite closeResources_eq. reflexivity.
Qed.

(** X13: [stop()] before the socket is open. In [RequestingMedia] or
    [OpeningWebSocket] it releases what the session holds, schedules the
    early finish and moves to [FinishingEarly] without touching the flag.
    The scheduled finish then ends the session in [Finished], clears the
    flag and calls [onFinished]; after a [cancel()] in between it does
    nothing: the session stays [Canceled] and no callback is called. *)
Theorem early_stop_finishes (JSON_parse : jsstring -> option json)
    (JSON_stringify : json -> jsstring) (env : Env) :
  _state (this env) = RequestingMedia \/ _state (this env) = OpeningWebSocket ->
  let stopped :=
    {| this := with_state FinishingEarly (closed (this env));
       recordTranscribeActive := recordTranscribeActive env;
       context_sampleRate := context_sampleRate env;
       effects := effects env ++ close_effects (this env) ++ [then_completeFinishingEarly] |} in
  run JSON_parse JSON_stringify [call_stop] env = stopped
  /\ run JSON_parse JSON_stringify [call_stop; microtask_completeFinishingEarly] env
     = {| this := with_state Finished (closed (this env));
          recordTranscribeActive := false;
          context_sampleRate := context_sampleRate env;
          effects := effects stopped
                     ++ match _onFinished (options (this env)) with
                        | Some f => [call_onFinished f]
                        | None => []
                        end |}
  /\ run JSON_parse JSON_stringify
       [call_stop; call_cancel; microtask_completeFinishingEarly] env
     = {| this := with_state Canceled (closed (this env));
          recordTranscribeActive := false;
          context_sampleRate := context_sampleRate env;
          effects := effects stopped |}.
Proof.
  intros Hst. cbv zeta.
  rewrite !run_cons. cbn [run fold_left handle].
  rewrite (stop_early env Hst). cbn [snd].
  split; [reflexivity|]. split.
  - unfold _completeFinishingEarly. run_M.
    destruct env as [[opts st stream r ws res q] act rate eff]. cbn.
    rewrite handleFinished_eq. unfold finished. cbn.
    reflexivity.
  - rewrite cancel_eq.
    destruct env as [[opts st stream r ws res q] act rate eff]. cbn.
    rewrite app_nil_r. reflexivity.
Qed.

(** X13 on the session with two queued frames. *)
Lemma early_stop_finishes_witness :
  _state (this (run parse_nothing stringify_stub
                  [call_stop; microtask_completeFinishingEarly] queued_env)) = Finished
  /\ _state (this (run parse_nothing stringify_stub
                     [call_stop; call_cancel; microtask_completeFinishingEarly] queued_env))
     = Canceled.
Proof.
  destruct (early_stop_finishes parse_nothing stringify_stub queued_env)
    as (_ & Hfinish & Hcancel).
  - right. vm_compute. reflexivity.
  - rewrite Hfinish, Hcancel. split; reflexivity.
Defined.

(** X14: [cancel()]. On a session that is not active it does nothing. On an
    active one it releases what the session holds (closing the socket,
    stopping the recorder and its worker, stopping the stream's tracks),
    moves to [Canceled] and clears the flag; no callback is called. A second
    [cancel()] does nothing. *)
Theorem cancel_releases_without_callback (env : Env) :
  cancel env
  = (Return tt,
     if isInactiveState (_state (this env)) then env
     else {| this := with_state Canceled (closed (this env));
             recordTranscribeActive := false;
             context_sampleRate := context_sampleRate env;
             effects := effects env ++ close_effects (this env) |})
  /\ final_callbacks (close_effects (this env)) = []
  /\ cancel (cancel env).2 = (Return tt, (cancel env).2).
Proof.
  split; [apply cancel_eq|]. split; [apply final_callbacks_close|].
  rewrite !cancel_eq. cbn [snd].
  destruct (isInactiveState (_state (this env))) eqn:Hin.
  - rewrite Hin. reflexivity.
  - destruct env as [[opts st stream r ws res q] act rate eff]. reflexivity.
Qed.

(** X15: the two failure events. A refused microphone in [RequestingMedia]
    ends the session in [Error] with status [get_user_media_failed]; a
    socket error in one of the four socket states ends it in [Error] with
    status [websocket_error]: what the session holds is released, the flag
    is cleared and [onError] is called with the status and its message. In
    any other state either event changes nothing. *)
Theorem failure_events_end_in_error (env : Env) :
  _onGetUserMediaError env
  = (Return tt,
     if bool_decide (_state (this env) = RequestingMedia)
     then errored (js "get_user_media_failed") (js "Failed to get user media.") env
     else env)
  /\ _onWebSocketError env
     = (Return tt,
        if isWebSocketState (_state (this env))
        then errored (js "websocket_error") (js "WebSocket error occurred.") env
        else env).
Proof.
  split.
  - unfold _onGetUserMediaError. run_M.
    destruct (bool_decide (_state (this env) = RequestingMedia)); cbn [negb];
      [apply handleError_eq|reflexivity].
  - unfold _onWebSocketError. run_M.
    destruct (isWebSocketState (_state (this env))); cbn [negb];
      [apply handleError_eq|reflexivity].
Qed.

(** X16: a message of the service. In [Running], [FinishingRecording] or
    [FinishingProcessing] a text that parses to a response with a result
    merges that result into the session's and calls [onPartialResult] with
    the result of this response alone, not with the merged one; the state
    stays. In any other state the message is dropped unread: nothing
    changes and nothing is raised, whatever the text. *)
Theorem message_updates_result (JSON_parse : jsstring -> option json)
    (data : jsstring) (env : Env) :
  (forall response result,
     _state (this env) = Running \/ _state (this env) = FinishingRecording
     \/ _state (this env) = FinishingProcessing ->
     JSON_parse data = Some response ->
     resultFromResponse response = Return result ->
     _onWebSocketMessage JSON_parse data env
     = (Return tt,
        {| this := with_result (updateResult (_result (this env)) result) (this env);
           recordTranscribeActive := recordTranscribeActive env;
           context_sampleRate := context_sampleRate env;
           effects := effects env
                      ++ match _onPartialResult (options (this env)) with
                         | Some f => [call_onPartialResult f result]
                         | None => []
                         end |}))
  /\ (_state (this env) <> Running -> _state (this env) <> FinishingRecording ->
      _state (this env) <> FinishingProcessing ->
      _onWebSocketMessage JSON_parse data env = (Return tt, env)).
Proof.
  split.
  - intros response result Hst Hparse Hres.
    unfold _onWebSocketMessage, _updateResult. run_M.
    assert (negb (bool_decide (_state (this env) = Running))
            && negb (bool_decide (_state (this env) = FinishingRecording))
            && negb (bool_decide (_state (this env) = FinishingProcessing)) = false) as ->.
    { destruct Hst as [-> | [-> | ->]]; reflexivity. }
    rewrite Hparse. cbn. rewrite Hres. cbn.
    destruct (_onPartialResult (options (this env))); cbn; [reflexivity|].
    rewrite app_nil_r. reflexivity.
  - intros H1 H2 H3. unfold _onWebSocketMessage. run_M.
    rewrite !bool_decide_eq_false_2 by assumption. reflexivity.
Qed.

(** X16 on the running session: the sample response is merged and handed to
    no callback, none being set; after the session has finished the same
    text is dropped. *)
Lemma message_updates_result_witness :
  _onWebSocketMessage parse_sample (js "{}") running_env
  = (Return tt,
     {| this := with_result (updateResult (_result (this running_env)) sample_result)
                  (this running_env);
        recordTranscribeActive := recordTranscribeActive running_env;
        context_sampleRate := context_sampleRate running_env;
        effects := effects running_env
                   ++ match _onPartialResult (options (this running_env)) with
                      | Some f => [call_onPartialResult f sample_result]
                      | None => []
                      end |})
  /\ _onWebSocketMessage parse_sample (js "{}") (finished finishing_env)
     = (Return tt, finished finishing_env).
Proof.
  split.
  - apply (proj1 (message_updates_result parse_sample (js "{}") running_env)
             sample_response sample_result).
    + left. vm_compute. reflexivity.
    + reflexivity.
    + reflexivity.
  - apply (proj2 (message_updates_result parse_sample (js "{}") (finished finishing_env)));
      intros H; vm_compute in H; discriminate H.
Defined.

(** *** Audio on its way to the socket *)

Section Audio.

Variable JSON_parse : jsstring -> option json.
Variable JSON_stringify : json -> jsstring.

Lemma run_app events events' env :
  run JSON_parse JSON_stringify (events ++ events') env
  = run JSON_parse JSON_stringify events' (run JSON_parse JSON_stringify events env).
Proof. apply fold_left_app. Qed.

(** Frames that are all handled without exception. *)
Lemma run_frames frames : forall env env',
  for_each _onMediaRecorderData frames env = (Return tt, env') ->
  run JSON_parse JSON_stringify (frames_arrive frames) env = env'.
Proof.
  induction frames as [|data frames IH]; intros env env'.
  - cbn. intros [= <-]. reflexivity.
  - cbn [frames_arrive map for_each]. fold (frames_arrive frames).
    rewrite run_cons. cbn [handle]. unfold mbind, M_bind.
    destruct (_onMediaRecorderData data env) as [[[]|e] env1]; [apply IH|discriminate].
Qed.

(** Frames in [Running] and [FinishingRecording] go to the socket. *)
Lemma forward_frames frames : forall env ws,
  _state (this env) = Running \/ _state (this env) = FinishingRecording ->
  _webSocket (this env) = Some ws ->
  for_each _onMediaRecorderData frames env
  = (Return tt,
     {| this := this env;
        recordTranscribeActive := recordTranscribeActive env;
        context_sampleRate := context_sampleRate env;
        effects := effects env ++ map (fun m => webSocket_send (Binary m)) frames |}).
Proof.
  induction frames as [|data frames IH]; intros env ws Hst Hws.
  - cbn. rewrite app_nil_r, Env_eta. reflexivity.
  - cbn [for_each map]. unfold mbind at 1, M_bind at 1.
    assert (_onMediaRecorderData data env
            = (Return tt,
               {| this := this env;
                  recordTranscribeActive := recordTranscribeActive env;
                  context_sampleRate := context_sampleRate env;
                  effects := effects env ++ [webSocket_send (Binary data)] |})) as ->.
    { unfold _onMediaRecorderData. run_M.
      destruct Hst as [Hst|Hst]; rewrite Hst; eval_decide;
        apply (webSocket_send_ok env ws), Hws. }
    cbv beta iota. rewrite (IH _ ws) by assumption.
    cbn [this recordTranscribeActive context_sampleRate effects].
    rewrite <- app_assoc. reflexivity.
Qed.

Lemma sent_app log log' : sent (log ++ log') = sent log ++ sent log'.
Proof. apply flat_map_app. Qed.

Lemma sent_send_cons data log : sent (webSocket_send data :: log) = data :: sent log.
Proof. reflexivity. Qed.

Lemma sent_frames frames :
  sent (map (fun m => webSocket_send (Binary m)) frames) = map Binary frames.
Proof. induction frames as [|m frames IH]; [reflexivity|]. cbn. rewrite <- IH. reflexivity. Qed.

Lemma sent_console n msg : sent (replicate n (console_error msg)) = [].
Proof. induction n as [|n IH]; [reflexivity|exact IH]. Qed.

Lemma audio_path env stream q frames1 frames2 frames3 :
  _state (this env) = OpeningWebSocket ->
  _stream (this env) = Some stream ->
  _mediaRecorder (this env) = Some {| streamOrElemSource := stream; state := recording |} ->
  _webSocket (this env) = Some {| url := _webSocketUri (options (this env)) |} ->
  _queuedMessages (this env) = Some q ->
  (length q <= 100)%nat ->
  let env' :=
    run JSON_parse JSON_stringify
      (frames_arrive frames1 ++ [webSocket_onopen] ++ frames_arrive frames2
       ++ [call_stop] ++ frames_arrive frames3 ++ [recorder_end]) env in
  _state (this env') = FinishingProcessing
  /\ sent (effects env')
     = sent (effects env)
       ++ [Text (JSON_stringify
                   (JObj (build_request (options (this env)) (context_sampleRate env))))]
       ++ map Binary (take 100 (q ++ frames1) ++ frames2 ++ frames3)
       ++ [Text []].
Proof.
  intros Hst Hs Hr Hws Hq Hlen. cbv zeta.
  rewrite !run_app.
  destruct (queue_frames frames1 env q Hst Hq Hlen) as (Hqueue & _ & _).
  rewrite (run_frames frames1 env _ Hqueue).
  destruct env as [[opts st stream0 r ws res q0] act rate eff].
  cbn [this _state _stream _mediaRecorder _webSocket _queuedMessages options effects
       recordTranscribeActive context_sampleRate with_queuedMessages] in *.
  subst st stream0 r ws q0.
  cbn [run fold_left handle].
  rewrite (onWebSocketOpen_opening JSON_stringify _
             {| streamOrElemSource := stream; state := recording |}
             {| url := _webSocketUri opts |} (take 100 (q ++ frames1)))
    by reflexivity.
  unfold opened.
  cbn [snd this _state _stream _mediaRecorder _webSocket _queuedMessages options effects
       recordTranscribeActive context_sampleRate with_queuedMessages with_state].
  erewrite (run_frames frames2);
    [|apply (forward_frames frames2 _ {| url := _webSocketUri opts |});
      [left; reflexivity|reflexivity]].
  cbn [this _state _stream _mediaRecorder _webSocket _queuedMessages options effects
       recordTranscribeActive context_sampleRate].
  unfold stop, _stopRecording, mediaRecorder_stop. run_M. eval_decide.
  erewrite (run_frames frames3);
    [|apply (forward_frames frames3 _ {| url := _webSocketUri opts |});
      [right; reflexivity|reflexivity]].
  cbn [this _state _stream _mediaRecorder _webSocket _queuedMessages options effects
       recordTranscribeActive context_sampleRate].
  unfold _onMediaRecorderEnd, _closeMedia, mediaRecorder_stop, _stopTracks. run_M.
  eval_decide.
  rewrite (webSocket_send_ok _ {| url := _webSocketUri opts |}) by reflexivity.
  cbn [snd this _state effects].
  split; [reflexivity|].
  destruct (_onStarted opts);
    repeat (progress rewrite ?sent_app, ?sent_send_cons, ?sent_frames, ?sent_console);
    cbn [sent flat_map app];
    rewrite ?app_nil_r, !map_app, <- ?app_assoc; reflexivity.
Qed.

End Audio.

(** X17: audio on its way to the service. On a reachable session in
    [OpeningWebSocket] with queue [q]: frames arrive, the socket opens, more
    frames arrive, the user stops, the recorder's last frames arrive and
    then its end. The session ends this in [FinishingProcessing], and what
    it has sent over the socket is the handshake, then the first 100 of the
    queued and the early frames, then every later frame, all in the order
    of arrival, and last the empty text that ends the audio. *)
Theorem audio_reaches_socket_in_order (JSON_parse : jsstring -> option json)
    (JSON_stringify : json -> jsstring) (env : Env)
    (frames1 frames2 frames3 : list (list Z)) :
  reachable JSON_parse JSON_stringify env ->
  _state (this env) = OpeningWebSocket ->
  exists q,
    _queuedMessages (this env) = Some q
    /\ let env' :=
         run JSON_parse JSON_stringify
           (frames_arrive frames1 ++ [webSocket_onopen] ++ frames_arrive frames2
            ++ [call_stop] ++ frames_arrive frames3 ++ [recorder_end]) env in
       _state (this env') = FinishingProcessing
       /\ sent (effects env')
          = sent (effects env)
            ++ [Text (JSON_stringify
                        (JObj (build_request (options (this env))
                                 (context_sampleRate env))))]
            ++ map Binary (take 100 (q ++ frames1) ++ frames2 ++ frames3)
            ++ [Text []].
Proof.
  intros Hreach Hst.
  pose proof (reachable_resources _ _ _ Hreach) as Hres.
  pose proof (reachable_well_formed _ _ _ Hreach) as Hwf.
  unfold resources_by_state in Hres. unfold well_formed in Hwf. rewrite Hst in Hres, Hwf.
  destruct Hres as (stream & q & Hs & Hr & Hws & Hq).
  destruct Hwf as (_ & _ & q' & Hq' & Hlen).
  assert (q' = q) as -> by congruence.
  exists q. split; [exact Hq|].
  apply (audio_path JSON_parse JSON_stringify env stream q); assumption.
Qed.

(** X17 on the session with two queued frames, with one frame in each
    phase. *)
Lemma audio_reaches_socket_in_order_witness :
  exists q,
    _queuedMessages (this queued_env) = Some q
    /\ let env' :=
         run parse_nothing stringify_stub
           (frames_arrive [[5; 6]%Z] ++ [webSocket_onopen] ++ frames_arrive [[7; 8]%Z]
            ++ [call_stop] ++ frames_arrive [[9; 10]%Z] ++ [recorder_end]) queued_env in
       _state (this env') = FinishingProcessing
       /\ sent (effects env')
          = sent (effects queued_env)
            ++ [Text (stringify_stub
                        (JObj (build_request (options (this queued_env))
                                 (context_sampleRate queued_env))))]
            ++ map Binary (take 100 (q ++ [[5; 6]%Z]) ++ [[7; 8]%Z] ++ [[9; 10]%Z])
            ++ [Text []].
Proof.
  apply (audio_reaches_socket_in_order parse_nothing stringify_stub queued_env
           [[5; 6]%Z] [[7; 8]%Z] [[9; 10]%Z] reachable_queued_env).
  vm_compute. reflexivity.
Defined.

(** *** Responses and the transcript *)

Lemma wordFromJson_returns x isFinal :
  (exists w, wordFromJson x isFinal = Return w) <-> x <> JNull.
Proof.
  split.
  - intros [w H] ->. discriminate H.
  - intros Hx. destruct x; try congruence; eexists; reflexivity.
Qed.

Lemma forEach_wordFromJson_returns isFinal items :
  (exists ws, forEach (fun jsWord => wordFromJson jsWord isFinal) items = Return ws)
  <-> Forall (fun x => x <> JNull) items.
Proof.
  induction items as [|x items IH]; cbn [forEach].
  - split; [constructor|eexists; reflexivity].
  - unfold mbind, Outcome_bind. split.
    + intros [ws H].
      destruct (wordFromJson x isFinal) as [w|e] eqn:Ew; [|discriminate].
      destruct (forEach _ items) as [r|e] eqn:Er; [|discriminate].
      constructor; [apply (wordFromJson_returns x isFinal); eauto|].
      apply IH. eauto.
    + intros H. inversion H as [|? ? Hx Hitems]; subst.
      apply (wordFromJson_returns x isFinal) in Hx as [w ->].
      apply IH in Hitems as [r ->]. eexists. reflexivity.
Qed.

Lemma speakers_of_returns items : forall m,
  (exists r, speakers_of items m = Return r) <-> Forall (fun x => x <> JNull) items.
Proof.
  induction items as [|x items IH]; intros m; cbn [speakers_of].
  - split; [constructor|eexists; reflexivity].
  - unfold mbind, Outcome_bind. split.
    + intros [r H]. destruct x; try discriminate H;
        (constructor; [discriminate|]); cbn in H;
        match type of H with speakers_of _ ?m' = _ => apply (IH m') end; eauto.
    + intros H. inversion H as [|? ? Hx Hitems]; subst.
      destruct x; try congruence; cbn; apply IH; exact Hitems.
Qed.

(** X18: the responses [resultFromResponse] accepts. It returns a result
    exactly for an object whose [fw] and [nfw] are arrays without [null]
    and whose [spks], when the object has one, is such an array too; on any
    other parsed value it raises. The elements need not be objects: a
    number or a string as a word gives a word without text. *)
Theorem resultFromResponse_accepts (response : json) :
  (exists result, resultFromResponse response = Return result) <-> acceptable response.
Proof.
  unfold resultFromResponse, acceptable, mbind, Outcome_bind. split.
  - intros [result H].
    destruct response as [| | | | |props]; try discriminate H.
    cbn [getprop hasOwnProperty] in H.
    destruct (own_property props (js "fw")) as [[| | | |fw|]|] eqn:Efw; try discriminate H.
    cbn [forEach_items] in H.
    destruct (forEach _ fw) as [fs|e] eqn:Efs; [|discriminate H].
    destruct (own_property props (js "nfw")) as [[| | | |nfw|]|] eqn:Enfw; try discriminate H.
    cbn [forEach_items] in H.
    destruct (forEach _ nfw) as [ns|e] eqn:Ens; [|discriminate H].
    exists props, fw, nfw. split; [reflexivity|]. split; [exact Efw|]. split; [exact Enfw|].
    split; [apply (forEach_wordFromJson_returns true); eauto|].
    split; [apply (forEach_wordFromJson_returns false); eauto|].
    destruct (own_property props (js "spks")) as [spks|] eqn:Espks; [|left; reflexivity].
    right. rewrite bool_decide_eq_true_2 in H by eauto.
    destruct spks as [| | | |items|]; try discriminate H. cbn [forEach_items] in H.
    exists items. split; [reflexivity|].
    destruct (speakers_of items []) as [sp|e] eqn:Esp; [|discriminate H].
    apply (speakers_of_returns items []). eauto.
  - intros (props & fw & nfw & -> & Hfw & Hnfw & Hfs & Hns & Hspks).
    cbn [getprop hasOwnProperty]. rewrite Hfw, Hnfw. cbn [forEach_items].
    apply (forEach_wordFromJson_returns true) in Hfs as [fs ->].
    apply (forEach_wordFromJson_returns false) in Hns as [ns ->].
    destruct Hspks as [Hnone | (spks & Hsome & Hitems)].
    + rewrite Hnone. rewrite bool_decide_eq_false_2 by (intros [? ?]; discriminate).
      eexists. reflexivity.
    + rewrite Hsome. rewrite bool_decide_eq_true_2 by eauto. cbn [forEach_items].
      apply (speakers_of_returns spks []) in Hitems as [sp ->].
      eexists. reflexivity.
Qed.

(** The popping loop undoes a tail of non-final words and nothing else. *)
Lemma pop_nonfinal_unique (T : list Word) : forall A,
  Forall (fun w => is_final w = false) T ->
  (forall w, last A = Some w -> is_final w = true) ->
  pop_nonfinal (length (A ++ T)) (A ++ T) = A.
Proof.
  induction T as [|y T IH] using rev_ind; intros A HT HA.
  - rewrite app_nil_r. destruct (length A); [reflexivity|]. cbn [pop_nonfinal].
    destruct (last A) as [w|] eqn:Ew; [|reflexivity].
    rewrite (HA w eq_refl). reflexivity.
  - apply Forall_app in HT as [HT Hy]. inversion Hy as [|? ? Hy' _]; subst.
    rewrite app_assoc, length_app, Nat.add_1_r. cbn [pop_nonfinal].
    rewrite last_snoc, Hy', removelast_last. cbn [negb]. apply IH; assumption.
Qed.

Lemma filter_finals_first (F N : list Word) :
  Forall (fun w => is_final w = true) F ->
  Forall (fun w => is_final w = false) N ->
  List.filter is_final (F ++ N) = F
  /\ List.filter (fun w => negb (is_final w)) (F ++ N) = N.
Proof.
  intros HF HN. rewrite !List.filter_app.
  assert (List.filter is_final F = F /\ List.filter (fun w => negb (is_final w)) F = []) as [-> ->].
  { clear HN. induction HF as [|w F Hw _ [IH1 IH2]]; [split; reflexivity|].
    cbn. rewrite Hw. cbn. rewrite IH1, IH2. split; reflexivity. }
  assert (List.filter is_final N = [] /\ List.filter (fun w => negb (is_final w)) N = N) as [-> ->].
  { clear HF. induction HN as [|w N Hw _ [IH1 IH2]]; [split; reflexivity|].
    cbn. rewrite Hw. cbn. rewrite IH1, IH2. split; reflexivity. }
  rewrite app_nil_r. split; reflexivity.
Qed.

Lemma Forall_filter_true {A} (p : A -> bool) (l : list A) :
  Forall (fun x => p x = true) (List.filter p l).
Proof.
  induction l as [|x l IH]; cbn; [constructor|].
  destruct (p x) eqn:E; [constructor; assumption|exact IH].
Qed.

(** A result read from a response has its final words first. *)
Lemma resultFromResponse_shape response r :
  resultFromResponse response = Return r -> words r = finals r ++ nonfinals r.
Proof.
  intros H.
  destruct (resultFromResponse_words response r H)
    as (fw & nfw & fs & ns & _ & _ & Hfs & Hns & Hw).
  destruct (forEach_wordFromJson true fw fs Hfs) as [_ HF].
  destruct (forEach_wordFromJson false nfw ns Hns) as [_ HN].
  unfold finals, nonfinals. rewrite Hw.
  destruct (filter_finals_first fs ns HF HN) as [-> ->]. reflexivity.
Qed.

Lemma last_final_app (A F : list Word) :
  (forall w, last A = Some w -> is_final w = true) ->
  Forall (fun w => is_final w = true) F ->
  forall w, last (A ++ F) = Some w -> is_final w = true.
Proof.
  intros HA HF w. destruct F as [|x F] using rev_ind.
  - rewrite app_nil_r. apply HA.
  - rewrite app_assoc, last_snoc. intros [= <-].
    apply Forall_app in HF as [_ Hx]. inversion Hx; assumption.
Qed.

Lemma merge_all_words (results : list Result) : forall r0 r,
  Forall (fun r => words r = finals r ++ nonfinals r) (r :: results) ->
  words (merge_all r0 (r :: results))
  = pop_nonfinal (length (words r0)) (words r0)
    ++ flat_map finals (r :: results)
    ++ from_option nonfinals [] (last (r :: results)).
Proof.
  induction results as [|r' results IH]; intros r0 r Hshape.
  - cbn. inversion Hshape as [|? ? Hr _]; subst.
    rewrite app_nil_r, <- Hr. reflexivity.
  - inversion Hshape as [|? ? Hr Hrest]; subst.
    change (merge_all r0 (r :: r' :: results))
      with (merge_all (updateResult r0 r) (r' :: results)).
    rewrite (IH _ r' Hrest). cbn [updateResult words].
    destruct (pop_nonfinal_spec (words r0)) as (tail & _ & _ & Hlast).
    change (last (r :: r' :: results)) with (last (r' :: results)).
    cbn [flat_map].
    assert (Forall (fun w => is_final w = true) (finals r)) as HF
      by apply Forall_filter_true.
    assert (Forall (fun w => is_final w = false) (nonfinals r)) as HN.
    { unfold nonfinals.
      apply (Forall_impl _ _ _ (Forall_filter_true (fun w => negb (is_final w)) (words r))).
      intros w Hw. apply negb_true_iff in Hw. exact Hw. }
    set (F := finals r) in *. set (N := nonfinals r) in *.
    rewrite Hr, (app_assoc _ F N),
      (pop_nonfinal_unique N (pop_nonfinal (length (words r0)) (words r0) ++ F)).
    + rewrite <- !app_assoc. reflexivity.
    + exact HN.
    + apply last_final_app; [exact Hlast|exact HF].
Qed.

(** X19: the transcript after a sequence of responses. Merging the results
    of any responses that have one, in the order received, into a new
    session's result leaves as words all the final words of all the
    responses, in order, followed by the non-final words of the last
    response only. *)
Theorem transcript_after_responses (responses : list json) (results : list Result) :
  Forall2 (fun response r => resultFromResponse response = Return r) responses results ->
  words (merge_all initialResult results)
  = flat_map finals results ++ from_option nonfinals [] (last results).
Proof.
  intros H.
  assert (Forall (fun r => words r = finals r ++ nonfinals r) results) as Hshape.
  { induction H as [|response r responses results Hr _ IH]; constructor; [|exact IH].
    apply (resultFromResponse_shape response r Hr). }
  destruct results as [|r results]; [reflexivity|].
  rewrite (merge_all_words results initialResult r Hshape). reflexivity.
Qed.

(** X19 on the sample response received twice. *)
Lemma transcript_after_responses_witness :
  words (merge_all initialResult [sample_result; sample_result])
  = flat_map finals [sample_result; sample_result]
    ++ from_option nonfinals [] (last [sample_result; sample_result]).
Proof.
  apply (transcript_after_responses [sample_response; sample_response]
           [sample_result; sample_result]).
  repeat constructor.
Defined.

(** *** What goes over the socket *)

Lemma sent_close o : sent (close_effects o) = [].
Proof.
  destruct o as [opts st stream r ws res q]. unfold close_effects. cbn.
  destruct ws, r as [[src []]|], stream; reflexivity.
Qed.

Arguments protocol : simpl never.

Section Protocol.

Variable JSON_parse : jsstring -> option json.
Variable JSON_stringify : json -> jsstring.

Lemma onWebSocketMessage_sent data env :
  exists result extra,
    this (_onWebSocketMessage JSON_parse data env).2 = with_result result (this env)
    /\ effects (_onWebSocketMessage JSON_parse data env).2 = effects env ++ extra
    /\ context_sampleRate (_onWebSocketMessage JSON_parse data env).2 = context_sampleRate env
    /\ sent extra = [].
Proof.
  unfold _onWebSocketMessage, _updateResult. run_M.
  destruct (_ && _ && _).
  - exists (_result (this env)), []. rewrite app_nil_r.
    destruct env as [[] ? ? ?]; repeat split.
  - destruct (JSON_parse data) as [response|]; cbn.
    + destruct (resultFromResponse response) as [result|e]; cbn.
      * exists (updateResult (_result (this env)) result).
        destruct (_onPartialResult (options (this env))); cbn.
        -- eexists [_]. repeat split.
        -- exists []. rewrite app_nil_r. repeat split.
      * exists (_result (this env)), []. rewrite app_nil_r.
        destruct env as [[] ? ? ?]; repeat split.
    + exists (_result (this env)), []. rewrite app_nil_r.
      destruct env as [[] ? ? ?]; repeat split.
Qed.

Lemma protocol_same env env' :
  this env' = this env -> effects env' = effects env ->
  context_sampleRate env' = context_sampleRate env ->
  protocol JSON_stringify env -> protocol JSON_stringify env'.
Proof.
  intros Ht He Hr. unfold protocol, handshake. rewrite Ht, He, Hr. trivial.
Qed.

(** A step that keeps the state, the options and the rate, and sends
    nothing. *)
Lemma protocol_quiet env env' extra :
  _state (this env') = _state (this env) ->
  options (this env') = options (this env) ->
  context_sampleRate env' = context_sampleRate env ->
  effects env' = effects env ++ extra ->
  sent extra = [] ->
  protocol JSON_stringify env -> protocol JSON_stringify env'.
Proof.
  intros Hst Hopt Hr He Hs. unfold protocol, handshake.
  rewrite Hst, Hopt, Hr, He, sent_app, Hs, app_nil_r. trivial.
Qed.

(** Releasing everything, into [FinishingEarly] out of a state before the
    socket is open, or into a final state. *)
Lemma protocol_closed env env' st' extra :
  protocol JSON_stringify env ->
  isInactiveState (_state (this env)) = false ->
  this env' = with_state st' (closed (this env)) ->
  context_sampleRate env' = context_sampleRate env ->
  effects env' = effects env ++ close_effects (this env) ++ extra ->
  sent extra = [] ->
  match st' with
  | FinishingEarly =>
      _state (this env) = RequestingMedia \/ _state (this env) = OpeningWebSocket
  | Finished | Error | Canceled => True
  | _ => False
  end ->
  protocol JSON_stringify env'.
Proof.
  intros Hp Hact Ht Hr He Hs Hst'.
  unfold protocol, handshake in *. rewrite Ht, Hr, He, !sent_app, sent_close, Hs, app_nil_r.
  destruct env as [[opts st stream r ws res q] act rate eff].
  cbn [this effects _state options context_sampleRate with_state closed with_queuedMessages
       with_stream with_mediaRecorder with_webSocket] in *.
  destruct st'; try (destruct Hst'; fail).
  - destruct Hst' as [-> | ->]; exact Hp.
  - destruct st; try discriminate Hact; try (left; exact Hp);
      destruct Hp as [frames Hp]; right; eauto.
  - destruct st; try discriminate Hact; try (left; exact Hp);
      destruct Hp as [frames Hp]; right; eauto.
  - destruct st; try discriminate Hact; try (left; exact Hp);
      destruct Hp as [frames Hp]; right; eauto.
Qed.

Ltac open_protocol :=
  unfold protocol, handshake in *;
  cbn [_state this effects options context_sampleRate snd with_state with_queuedMessages
       with_webSocket with_mediaRecorder with_stream] in *.

Ltac same := eapply protocol_same; [reflexivity | reflexivity | reflexivity | eassumption].

Lemma protocol_step ev env :
  resources_by_state (this env) ->
  protocol JSON_stringify env ->
  protocol JSON_stringify (handle JSON_parse JSON_stringify ev env).2.
Proof.
  intros Hres Hp.
  destruct ev; cbn [handle].
  - (* a setter *)
    destruct env as [[opts st stream r ws res q] act rate eff].
    unfold setter. run_M. destruct st; eval_decide; solve [same | exact Hp].
  - (* start() *)
    destruct env as [[opts st stream r ws res q] act rate eff].
    unfold start. run_M. destruct st; eval_decide; try same.
    destruct act; cbn; [same|]. destruct (_apiKey opts); cbn; [|same].
    open_protocol. rewrite sent_app, Hp. reflexivity.
  - (* stop() *)
    destruct (decide (_state (this env) = RequestingMedia
                      \/ _state (this env) = OpeningWebSocket)) as [Hst|Hst].
    + unfold stop. run_M.
      replace (bool_decide (_state (this env) = RequestingMedia)
               || bool_decide (_state (this env) = OpeningWebSocket)) with true
        by (destruct Hst as [-> | ->]; reflexivity).
      cbv beta iota. rewrite closeResources_eq.
      eapply (protocol_closed env _ FinishingEarly [then_completeFinishingEarly]);
        [exact Hp | destruct Hst as [-> | ->]; reflexivity | reflexivity | reflexivity
        | cbn; rewrite <- app_assoc; reflexivity | reflexivity | exact Hst].
    + destruct env as [[opts st stream r ws res q] act rate eff].
      unfold stop. run_M. cbn in Hst.
      destruct st; eval_decide; try same; try (exfalso; apply Hst; auto; fail).
      expose Hres. destruct Hres as (s & -> & -> & -> & ->).
      unfold _stopRecording, mediaRecorder_stop. run_M. cbn.
      open_protocol. destruct Hp as [frames Hp].
      exists frames. rewrite sent_app, Hp. cbn. rewrite app_nil_r. reflexivity.
  - (* cancel() *)
    unfold cancel. run_M.
    destruct (isInactiveState (_state (this env))) eqn:Hin; cbn [negb]; [same|].
    cbv beta iota. rewrite closeResources_eq.
    eapply (protocol_closed env _ Canceled []);
      [exact Hp | exact Hin | reflexivity | reflexivity
      | cbn; rewrite app_nil_r; reflexivity | reflexivity | exact I].
  - (* the microphone is granted *)
    destruct env as [[opts st stream0 r ws res q] act rate eff].
    unfold _onGetUserMediaSuccess, _stopTracks, _startRecording, mediaRecorder_start.
    run_M. destruct st; eval_decide;
      try (eapply (protocol_quiet _ _ [_]); [| | | | | exact Hp];
           [reflexivity | reflexivity | reflexivity | reflexivity | reflexivity]).
    open_protocol. rewrite !sent_app, Hp. reflexivity.
  - (* the microphone is refused *)
    unfold _onGetUserMediaError. run_M.
    destruct (bool_decide (_state (this env) = RequestingMedia)) eqn:Hb; cbn [negb]; [|same].
    apply bool_decide_eq_true in Hb. rewrite handleError_eq.
    eapply (protocol_closed env _ Error _);
      [exact Hp | rewrite Hb; reflexivity | reflexivity | reflexivity | reflexivity | | exact I].
    destruct (_onError (options (this env))); reflexivity.
  - (* a frame from the recorder *)
    destruct env as [[opts st stream r ws res q] act rate eff].
    unfold _onMediaRecorderData. run_M.
    destruct st; eval_decide; try same; expose Hres.
    + destruct Hres as (s & q' & -> & -> & -> & ->). cbn.
      destruct (Nat.leb_spec (length q') 99); cbn.
      * eapply (protocol_quiet _ _ []); [| | | | | exact Hp];
          [reflexivity | reflexivity | reflexivity | cbn; rewrite app_nil_r; reflexivity
          | reflexivity].
      * eapply (protocol_quiet _ _ [_]); [| | | | | exact Hp];
          [reflexivity | reflexivity | reflexivity | reflexivity | reflexivity].
    + destruct Hres as (s & -> & -> & -> & ->).
      rewrite (webSocket_send_ok _ {| url := _webSocketUri opts |}) by reflexivity.
      open_protocol. destruct Hp as [frames Hp].
      exists (frames ++ [data]). rewrite sent_app, Hp. unfold conversation. cbn.
      rewrite !app_nil_r, map_app. reflexivity.
    + destruct Hres as (s & -> & -> & -> & ->).
      rewrite (webSocket_send_ok _ {| url := _webSocketUri opts |}) by reflexivity.
      open_protocol. destruct Hp as [frames Hp].
      exists (frames ++ [data]). rewrite sent_app, Hp. unfold conversation. cbn.
      rewrite !app_nil_r, map_app. reflexivity.
  - (* the recorder has ended *)
    destruct env as [[opts st stream r ws res q] act rate eff].
    unfold _onMediaRecorderEnd. run_M.
    destruct st; eval_decide; try same. expose Hres.
    destruct Hres as (s & -> & -> & -> & ->).
    unfold _closeMedia, mediaRecorder_stop, _stopTracks. run_M. cbn.
    rewrite (webSocket_send_ok _ {| url := _webSocketUri opts |}) by reflexivity.
    open_protocol. destruct Hp as [frames Hp].
    exists frames. rewrite !sent_app, Hp. unfold conversation. cbn.
    rewrite !app_nil_r. reflexivity.
  - (* the socket opens *)
    destruct (decide (_state (this env) = OpeningWebSocket)) as [Hst|Hst].
    + unfold resources_by_state in Hres.
      rewrite Hst in Hres. destruct Hres as (s & q & Hs & Hr & Hws & Hq).
      rewrite (onWebSocketOpen_opening JSON_stringify env _ _ q Hst Hr Hws Hq).
      destruct env as [[opts st stream r ws res q0] act rate eff].
      cbn [this _state] in Hst. subst st.
      unfold opened. open_protocol.
      exists q.
      repeat (progress rewrite ?sent_app, ?sent_send_cons, ?sent_frames).
      rewrite Hp. unfold conversation.
      destruct (_onStarted opts); cbn; rewrite ?app_nil_r; reflexivity.
    + rewrite (onWebSocketOpen_elsewhere JSON_stringify env Hst). same.
  - (* the socket closes *)
    destruct (onWebSocketClose_active code reason env)
      as [[_ ->] | [Hws [-> | (status & message & ->)]]]; [same| |].
    + eapply (protocol_closed env _ Finished _);
        [exact Hp | apply ws_state_active, Hws | reflexivity | reflexivity | reflexivity
        | | exact I].
      destruct (_onFinished (options (this env))); reflexivity.
    + eapply (protocol_closed env _ Error _);
        [exact Hp | apply ws_state_active, Hws | reflexivity | reflexivity | reflexivity
        | | exact I].
      destruct (_onError (options (this env))); reflexivity.
  - (* the socket fails *)
    unfold _onWebSocketError. run_M.
    destruct (isWebSocketState (_state (this env))) eqn:Hws; cbn [negb]; [|same].
    rewrite handleError_eq.
    eapply (protocol_closed env _ Error _);
      [exact Hp | apply ws_state_active, Hws | reflexivity | reflexivity | reflexivity
      | | exact I].
    destruct (_onError (options (this env))); reflexivity.
  - (* a message *)
    destruct (onWebSocketMessage_sent data env) as (result & extra & Ht & He & Hr & Hs).
    eapply (protocol_quiet env _ extra); [| | exact Hr | exact He | exact Hs | exact Hp];
      rewrite Ht; destruct env as [[] ? ? ?]; reflexivity.
  - (* the early finish completes *)
    unfold _completeFinishingEarly. run_M.
    destruct (bool_decide (_state (this env) = FinishingEarly)) eqn:Hb; cbn [negb]; [|same].
    apply bool_decide_eq_true in Hb. rewrite handleFinished_eq.
    eapply (protocol_closed env _ Finished _);
      [exact Hp | rewrite Hb; reflexivity | reflexivity | reflexivity | reflexivity
      | | exact I].
    destruct (_onFinished (options (this env))); reflexivity.
  - (* another session writes the flag *)
    same.
Qed.

Lemma protocol_run events : forall env,
  resources_by_state (this env) ->
  protocol JSON_stringify env ->
  protocol JSON_stringify (run JSON_parse JSON_stringify events env).
Proof.
  induction events as [|ev events IH]; intros env Hres Hp; [exact Hp|].
  rewrite run_cons. apply IH.
  - apply handle_resources, Hres.
  - apply protocol_step; assumption.
Qed.

End Protocol.

(** X20: what a session sends, in any order of events. After any events on
    a new session it has sent nothing before the socket is open; from
    [Running] on it has sent the handshake of its options first and once,
    then audio frames only; in [FinishingProcessing] these are followed by
    the one empty text that ends the audio; and a session that is over has
    sent nothing, or such a sequence. So no audio goes out before the
    handshake, and nothing after the empty text. *)
Theorem socket_protocol (JSON_parse : jsstring -> option json)
    (JSON_stringify : json -> jsstring) (events : list Event) (active : bool) (rate : Q) :
  protocol JSON_stringify (run JSON_parse JSON_stringify events (new_env active rate)).
Proof.
  apply protocol_run; [repeat split|reflexivity].
Qed.

(** *** The order of the callbacks *)

Lemma callbacks_app log log' : callbacks (log ++ log') = callbacks log ++ callbacks log'.
Proof. apply flat_map_app. Qed.

Lemma callbacks_close o : callbacks (close_effects o) = [].
Proof.
  destruct o as [opts st stream r ws res q]. unfold close_effects. cbn.
  destruct ws, r as [[src []]|], stream; reflexivity.
Qed.

Lemma callbacks_sends (q : list (list Z)) :
  callbacks (map (fun m => webSocket_send (Binary m)) q) = [].
Proof. induction q as [|m q IH]; [reflexivity|exact IH]. Qed.

Arguments callback_order : simpl never.

Section Callbacks.

Variable JSON_parse : jsstring -> option json.
Variable JSON_stringify : json -> jsstring.

Lemma onWebSocketMessage_callback data env :
  exists result extra,
    this (_onWebSocketMessage JSON_parse data env).2 = with_result result (this env)
    /\ effects (_onWebSocketMessage JSON_parse data env).2 = effects env ++ extra
    /\ (extra = []
        \/ (exists f r, extra = [call_onPartialResult f r])
           /\ (_state (this env) = Running \/ _state (this env) = FinishingRecording
               \/ _state (this env) = FinishingProcessing)).
Proof.
  unfold _onWebSocketMessage, _updateResult. run_M.
  destruct (_ && _ && _) eqn:Hguard.
  - exists (_result (this env)), []. rewrite app_nil_r.
    destruct env as [[] ? ? ?]; repeat split. left. reflexivity.
  - destruct (JSON_parse data) as [response|]; cbn.
    + destruct (resultFromResponse response) as [result|e]; cbn.
      * exists (updateResult (_result (this env)) result).
        destruct (_onPartialResult (options (this env))); cbn.
        -- eexists [_]. repeat split. right. split; [eauto|].
           destruct (_state (this env)); try discriminate Hguard; auto.
        -- exists []. rewrite app_nil_r. repeat split. left. reflexivity.
      * exists (_result (this env)), []. rewrite app_nil_r.
        destruct env as [[] ? ? ?]; repeat split. left. reflexivity.
    + exists (_result (this env)), []. rewrite app_nil_r.
      destruct env as [[] ? ? ?]; repeat split. left. reflexivity.
Qed.

Lemma callback_order_same env env' :
  this env' = this env -> effects env' = effects env ->
  callback_order env -> callback_order env'.
Proof. intros Ht He. unfold callback_order. rewrite Ht, He. trivial. Qed.

(** A step that keeps the state and the options and calls no callback. *)
Lemma callback_order_quiet env env' extra :
  _state (this env') = _state (this env) ->
  options (this env') = options (this env) ->
  effects env' = effects env ++ extra ->
  callbacks extra = [] -> final_callbacks extra = [] ->
  callback_order env -> callback_order env'.
Proof.
  intros Hst Hopt He Hc Hf. unfold callback_order.
  rewrite Hst, Hopt, He, callbacks_app, final_callbacks_app, Hc, Hf, !app_nil_r. trivial.
Qed.

(** Releasing everything and ending, with the final callback [extra], or
    going to [FinishingEarly] from before the socket is open. *)
Lemma callback_order_closed env env' st' extra :
  callback_order env ->
  isInactiveState (_state (this env)) = false ->
  this env' = with_state st' (closed (this env)) ->
  effects env' = effects env ++ close_effects (this env) ++ extra ->
  callbacks extra = final_callbacks extra ->
  match st' with
  | FinishingEarly =>
      (_state (this env) = RequestingMedia \/ _state (this env) = OpeningWebSocket)
      /\ extra = [then_completeFinishingEarly]
  | Finished | Error | Canceled => True
  | _ => False
  end ->
  callback_order env'.
Proof.
  intros (started & partials & Hcb & Hpart & Hphase) Hact Ht He Hextra Hst'.
  unfold callback_order.
  rewrite Ht, He, !callbacks_app, !final_callbacks_app, callbacks_close,
    final_callbacks_close, Hextra.
  destruct env as [[opts st stream r ws res q] act rate eff].
  cbn [this effects _state options with_state closed with_queuedMessages
       with_stream with_mediaRecorder with_webSocket app] in *.
  exists started, partials.
  assert (final_callbacks eff = []) as Hfin.
  { destruct st; try discriminate Hact; try apply Hphase. }
  rewrite Hfin in *. cbn [app] in *. rewrite app_nil_r in Hcb.
  split; [rewrite Hcb, <- app_assoc; reflexivity|]. split; [exact Hpart|].
  destruct st'; try (destruct Hst'; fail).
  - destruct Hst' as [Hst ->]. cbn.
    destruct Hst as [-> | ->]; destruct Hphase as (-> & -> & _); repeat split.
  - destruct st; try discriminate Hact;
      first [ left; split; apply Hphase | right; apply Hphase ].
  - destruct st; try discriminate Hact;
      first [ left; split; apply Hphase | right; apply Hphase ].
  - destruct st; try discriminate Hact;
      first [ left; split; apply Hphase | right; apply Hphase ].
Qed.

Ltac same_cb :=
  eapply callback_order_same; [reflexivity | reflexivity | eassumption].

Ltac open_cb :=
  unfold callback_order in *;
  cbn [_state this effects options context_sampleRate snd with_state with_queuedMessages
       with_webSocket with_mediaRecorder with_stream] in *.

Ltac quiet_cb extra :=
  eapply (callback_order_quiet _ _ extra); [| | | | | eassumption];
  [reflexivity | reflexivity | first [reflexivity | cbn; rewrite app_nil_r; reflexivity]
  | reflexivity | reflexivity].

Ltac shift_cb H :=
  open_cb; destruct H as (started & partials & Hcb & Hpart & Hphase);
  exists started, partials;
  rewrite ?callbacks_app, ?final_callbacks_app;
  cbn [callbacks final_callbacks flat_map app]; rewrite ?app_nil_r; auto.

Lemma callback_order_step ev env :
  resources_by_state (this env) ->
  callback_order env ->
  callback_order (handle JSON_parse JSON_stringify ev env).2.
Proof.
  intros Hres Hp.
  destruct ev; cbn [handle].
  - (* a setter *)
    destruct env as [[opts st stream r ws res q] act rate eff].
    unfold setter. run_M. destruct st; eval_decide; same_cb.
  - (* start() *)
    destruct env as [[opts st stream r ws res q] act rate eff].
    unfold start. run_M. destruct st; eval_decide; try same_cb.
    destruct act; cbn; [same_cb|]. destruct (_apiKey opts); cbn; [|same_cb].
    shift_cb Hp.
  - (* stop() *)
    destruct (decide (_state (this env) = RequestingMedia
                      \/ _state (this env) = OpeningWebSocket)) as [Hst|Hst].
    + unfold stop. run_M.
      replace (bool_decide (_state (this env) = RequestingMedia)
               || bool_decide (_state (this env) = OpeningWebSocket)) with true
        by (destruct Hst as [-> | ->]; reflexivity).
      cbv beta iota. rewrite closeResources_eq.
      eapply (callback_order_closed env _ FinishingEarly [then_completeFinishingEarly]);
        [exact Hp | destruct Hst as [-> | ->]; reflexivity | reflexivity
        | cbn; rewrite <- app_assoc; reflexivity | reflexivity | split; [exact Hst|reflexivity]].
    + destruct env as [[opts st stream r ws res q] act rate eff].
      unfold stop. run_M. cbn in Hst.
      destruct st; eval_decide; try same_cb; try (exfalso; apply Hst; auto; fail).
      expose Hres. destruct Hres as (s & -> & -> & -> & ->).
      unfold _stopRecording, mediaRecorder_stop. run_M. cbn.
      shift_cb Hp.
  - (* cancel() *)
    unfold cancel. run_M.
    destruct (isInactiveState (_state (this env))) eqn:Hin; cbn [negb]; [same_cb|].
    cbv beta iota. rewrite closeResources_eq.
    eapply (callback_order_closed env _ Canceled []);
      [exact Hp | exact Hin | reflexivity
      | cbn; rewrite app_nil_r; reflexivity | reflexivity | exact I].
  - (* the microphone is granted *)
    destruct env as [[opts st stream0 r ws res q] act rate eff].
    unfold _onGetUserMediaSuccess, _stopTracks, _startRecording, mediaRecorder_start.
    run_M. destruct st; eval_decide; try (quiet_cb [stopTracks stream]).
    shift_cb Hp.
  - (* the microphone is refused *)
    unfold _onGetUserMediaError. run_M.
    destruct (bool_decide (_state (this env) = RequestingMedia)) eqn:Hb; cbn [negb];
      [|same_cb].
    apply bool_decide_eq_true in Hb. rewrite handleError_eq.
    eapply (callback_order_closed env _ Error _);
      [exact Hp | rewrite Hb; reflexivity | reflexivity | reflexivity | | exact I].
    destruct (_onError (options (this env))); reflexivity.
  - (* a frame from the recorder *)
    destruct env as [[opts st stream r ws res q] act rate eff].
    unfold _onMediaRecorderData. run_M.
    destruct st; eval_decide; try same_cb; expose Hres.
    + destruct Hres as (s & q' & -> & -> & -> & ->). cbn.
      destruct (Nat.leb_spec (length q') 99); cbn.
      * quiet_cb (@nil Effect).
      * quiet_cb [console_error (js "max queuedMessages size exceeded")].
    + destruct Hres as (s & -> & -> & -> & ->).
      rewrite (webSocket_send_ok _ {| url := _webSocketUri opts |}) by reflexivity.
      quiet_cb [webSocket_send (Binary data)].
    + destruct Hres as (s & -> & -> & -> & ->).
      rewrite (webSocket_send_ok _ {| url := _webSocketUri opts |}) by reflexivity.
      quiet_cb [webSocket_send (Binary data)].
  - (* the recorder has ended *)
    destruct env as [[opts st stream r ws res q] act rate eff].
    unfold _onMediaRecorderEnd. run_M.
    destruct st; eval_decide; try same_cb. expose Hres.
    destruct Hres as (s & -> & -> & -> & ->).
    unfold _closeMedia, mediaRecorder_stop, _stopTracks. run_M. cbn.
    rewrite (webSocket_send_ok _ {| url := _webSocketUri opts |}) by reflexivity.
    shift_cb Hp.
  - (* the socket opens *)
    destruct (decide (_state (this env) = OpeningWebSocket)) as [Hst|Hst].
    + unfold resources_by_state in Hres.
      rewrite Hst in Hres. destruct Hres as (s & q & Hs & Hr & Hws & Hq).
      rewrite (onWebSocketOpen_opening JSON_stringify env _ _ q Hst Hr Hws Hq).
      destruct env as [[opts st stream r ws res q0] act rate eff].
      cbn [this _state] in Hst. subst st.
      unfold opened. open_cb.
      destruct Hp as (started & partials & Hcb & Hpart & -> & -> & Hfin).
      exists (started_callback opts), [].
      rewrite !callbacks_app, !final_callbacks_app, callbacks_sends, Hcb, Hfin.
      destruct (sends_are_quiet q) as (_ & _ & ->).
      unfold started_callback.
      destruct (_onStarted opts); cbn; repeat split; constructor.
    + rewrite (onWebSocketOpen_elsewhere JSON_stringify env Hst). same_cb.
  - (* the socket closes *)
    destruct (onWebSocketClose_active code reason env)
      as [[_ ->] | [Hws [-> | (status & message & ->)]]]; [same_cb| |].
    + eapply (callback_order_closed env _ Finished _);
        [exact Hp | apply ws_state_active, Hws | reflexivity | reflexivity | | exact I].
      destruct (_onFinished (options (this env))); reflexivity.
    + eapply (callback_order_closed env _ Error _);
        [exact Hp | apply ws_state_active, Hws | reflexivity | reflexivity | | exact I].
      destruct (_onError (options (this env))); reflexivity.
  - (* the socket fails *)
    unfold _onWebSocketError. run_M.
    destruct (isWebSocketState (_state (this env))) eqn:Hws; cbn [negb]; [|same_cb].
    rewrite handleError_eq.
    eapply (callback_order_closed env _ Error _);
      [exact Hp | apply ws_state_active, Hws | reflexivity | reflexivity | | exact I].
    destruct (_onError (options (this env))); reflexivity.
  - (* a message *)
    destruct (onWebSocketMessage_callback data env)
      as (result & extra & Ht & He & [-> | [(f & r & ->) Hst]]).
    + eapply (callback_order_quiet env _ []); [| | exact He | reflexivity | reflexivity
                                              | exact Hp];
        rewrite Ht; destruct env as [[] ? ? ?]; reflexivity.
    + unfold callback_order in *. rewrite Ht, He.
      destruct Hp as (started & partials & Hcb & Hpart & Hphase).
      destruct env as [[opts st stream r0 ws res q] act rate eff].
      cbn [this effects _state options with_result] in *.
      assert (started = started_callback opts /\ final_callbacks eff = []) as [Hs Hfin]
        by (destruct Hst as [-> | [-> | ->]]; exact Hphase).
      exists started, (partials ++ [call_onPartialResult f r]).
      rewrite callbacks_app, final_callbacks_app, Hcb, Hfin. cbn. rewrite !app_nil_r.
      split; [rewrite app_assoc; reflexivity|]. split.
      * apply Forall_app. split; [exact Hpart|]. constructor; [eexists _, _; reflexivity|].
        constructor.
      * destruct Hst as [-> | [-> | ->]]; split; auto.
  - (* the early finish completes *)
    unfold _completeFinishingEarly. run_M.
    destruct (bool_decide (_state (this env) = FinishingEarly)) eqn:Hb; cbn [negb];
      [|same_cb].
    apply bool_decide_eq_true in Hb. rewrite handleFinished_eq.
    eapply (callback_order_closed env _ Finished _);
      [exact Hp | rewrite Hb; reflexivity | reflexivity | reflexivity | | exact I].
    destruct (_onFinished (options (this env))); reflexivity.
  - (* another session writes the flag *)
    same_cb.
Qed.

Lemma callback_order_run events : forall env,
  resources_by_state (this env) ->
  callback_order env ->
  callback_order (run JSON_parse JSON_stringify events env).
Proof.
  induction events as [|ev events IH]; intros env Hres Hp; [exact Hp|].
  rewrite run_cons. apply IH.
  - apply handle_resources, Hres.
  - apply callback_order_step; assumption.
Qed.

End Callbacks.

(** X21: the order of the callbacks. After any events on a new session the
    calls of the user's callbacks are, in order: the started callback (if
    set, and only once the socket is open), then calls of the
    partial-result callback, then the final callbacks of the log, which are
    at most one call of [onFinished] or [onError]. No partial result comes
    before the started callback or after the final one, and before the
    socket is open no callback has been called at all. *)
Theorem callbacks_in_order (JSON_parse : jsstring -> option json)
    (JSON_stringify : json -> jsstring) (events : list Event) (active : bool) (rate : Q) :
  callback_order (run JSON_parse JSON_stringify events (new_env active rate)).
Proof.
  apply callback_order_run; [repeat split|].
  exists [], []. repeat split. constructor.
Qed.

End SessionProofs.

(* ===================================================================== *)
(** * Properties of the recorder                                          *)
(* ===================================================================== *)

Module RecorderProofs.
Import Js Recorder.

Lemma run_worker_app (cmds cmds' : list Encoder.command) : forall st,
  Encoder.run_worker st (cmds ++ cmds')
  = ((Encoder.run_worker st cmds).1
       ++ (Encoder.run_worker (Encoder.run_worker st cmds).2 cmds').1,
     (Encoder.run_worker (Encoder.run_worker st cmds).2 cmds').2).
Proof.
  induction cmds as [|c cmds IH]; intros st; cbn [app Encoder.run_worker fst snd].
  - destruct (Encoder.run_worker st cmds'); reflexivity.
  - destruct (Encoder.onmessage st c) as [out st']. rewrite IH.
    destruct (Encoder.run_worker st' cmds) as [outs st''].
    cbn [fst snd]. destruct (Encoder.run_worker st'' cmds') as [outs' st'''].
    cbn [fst snd]. rewrite app_assoc. reflexivity.
Qed.

(** What one event other than [stop()] does to a recorder that is
    recording: it goes on recording with the same settings, and posts
    messages that keep their samples, encoding the block it brought. *)
Lemma recording_step (ev : Event) (env : Env) maxOutput riz :
  state (this env) = Session.recording ->
  maxOutputSize (this env) = Some maxOutput ->
  removeInitialZeros (this env) = Some riz ->
  is_call_stop ev = false ->
  state (this (handle ev env)) = Session.recording
  /\ maxOutputSize (this (handle ev env)) = Some maxOutput
  /\ removeInitialZeros (this (handle ev env)) = Some riz
  /\ exists cmds,
       Forall2 (fun m c => received m = Some c)
         (drop (length (encoder (this env))) (encoder (this (handle ev env)))) cmds
       /\ take (length (encoder (this env))) (encoder (this (handle ev env)))
          = encoder (this env)
       /\ forallb Encoder.keeps_samples cmds = true
       /\ Encoder.encoded_bytes cmds
          = flat_map Encoder.le16 (concat (blocks_of [ev])).
Proof.
  intros Hst Hmax Hriz Hev.
  destruct ev as [ts mx pb rz| |block|]; [| discriminate | |].
  - cbn [handle]. unfold start. rewrite Hst. repeat split; try assumption.
    exists []. rewrite drop_all, firstn_all. repeat split. constructor.
  - cbn [handle]. unfold onaudioprocess. rewrite Hst.
    cbn [this postMessage state maxOutputSize removeInitialZeros encoder].
    repeat split; try assumption.
    exists [Encoder.CmdEncode block false].
    rewrite drop_app_length, take_app_length. repeat split.
    + constructor; [reflexivity|constructor].
    + cbn. rewrite !app_nil_r. reflexivity.
  - cbn [handle]. unfold interval_callback.
    destruct (slicing (this env)).
    + rewrite Hst. unfold _postEncoderDump.
      cbn [this postMessage state maxOutputSize removeInitialZeros encoder].
      repeat split; try assumption.
      exists [Encoder.CmdDump maxOutput riz].
      rewrite drop_app_length, take_app_length, Hmax, Hriz. repeat split.
      constructor; [reflexivity|constructor].
    + repeat split; try assumption.
      exists []. rewrite drop_all, firstn_all. repeat split. constructor.
Qed.

Lemma blocks_of_cons ev events : blocks_of (ev :: events) = blocks_of [ev] ++ blocks_of events.
Proof. unfold blocks_of. simpl. rewrite app_nil_r. reflexivity. Qed.

Lemma encoded_bytes_app cmds cmds' :
  Encoder.encoded_bytes (cmds ++ cmds')
  = Encoder.encoded_bytes cmds ++ Encoder.encoded_bytes cmds'.
Proof. apply flat_map_app. Qed.

(** The same over a sequence of events without [stop()]. *)
Lemma recording_run (events : list Event) : forall (env : Env) maxOutput riz,
  state (this env) = Session.recording ->
  maxOutputSize (this env) = Some maxOutput ->
  removeInitialZeros (this env) = Some riz ->
  Forall (fun ev => is_call_stop ev = false) events ->
  state (this (run events env)) = Session.recording
  /\ maxOutputSize (this (run events env)) = Some maxOutput
  /\ removeInitialZeros (this (run events env)) = Some riz
  /\ exists msgs cmds,
       encoder (this (run events env)) = encoder (this env) ++ msgs
       /\ Forall2 (fun m c => received m = Some c) msgs cmds
       /\ forallb Encoder.keeps_samples cmds = true
       /\ Encoder.encoded_bytes cmds
          = flat_map Encoder.le16 (concat (blocks_of events)).
Proof.
  induction events as [|ev events IH]; intros env maxOutput riz Hst Hmax Hriz Hev.
  - repeat split; try assumption. exists [], []. rewrite app_nil_r.
    repeat split. constructor.
  - inversion Hev as [|? ? Hev1 Hevs]; subst.
    destruct (recording_step ev env maxOutput riz Hst Hmax Hriz Hev1)
      as (Hst1 & Hmax1 & Hriz1 & cmds1 & Hrecv1 & Htake & Hkeep1 & Hbytes1).
    destruct (IH (handle ev env) maxOutput riz Hst1 Hmax1 Hriz1 Hevs)
      as (Hst2 & Hmax2 & Hriz2 & msgs2 & cmds2 & Henc & Hrecv2 & Hkeep2 & Hbytes2).
    cbn [run fold_left]. fold (run events (handle ev env)).
    repeat split; try assumption.
    exists (drop (length (encoder (this env))) (encoder (this (handle ev env))) ++ msgs2),
      (cmds1 ++ cmds2).
    repeat split.
    + rewrite Henc, app_assoc. f_equal.
      rewrite <- (take_drop (length (encoder (this env))) (encoder (this (handle ev env))))
        at 1.
      rewrite Htake. reflexivity.
    + apply Forall2_app; assumption.
    + rewrite forallb_app, Hkeep1, Hkeep2. reflexivity.
    + rewrite encoded_bytes_app, Hbytes1, Hbytes2, (blocks_of_cons ev events), concat_app,
        flat_map_app.
      reflexivity.
Qed.

(** The worker's answer to the messages of a whole recording: data frames
    carrying every buffered and every encoded byte, then one ["end"]; the
    worker is as new. *)
Lemma flushed_worker (cmds : list Encoder.command) maxOutput riz (st : Encoder.state) :
  forallb Encoder.keeps_samples cmds = true ->
  exists frames,
    Encoder.run_worker st (cmds ++ [Encoder.CmdDump maxOutput riz; Encoder.CmdEnd])
    = (map Encoder.PostData frames ++ [Encoder.PostEnd], Encoder.init)
    /\ concat frames = concat (Encoder.buffers st) ++ Encoder.encoded_bytes cmds.
Proof.
  intros Hk.
  destruct (EncoderProofs.run_worker_frames cmds st Hk) as [frames1 Hf1].
  destruct (EncoderProofs.run_worker_keeps_bytes cmds st Hk) as [Hbytes _].
  rewrite Hf1, EncoderProofs.data_bytes_PostData in Hbytes.
  rewrite run_worker_app, Hf1.
  set (st1 := (Encoder.run_worker st cmds).2) in *.
  cbn [Encoder.run_worker Encoder.onmessage].
  pose proof (EncoderProofs.dump_bytes st1 maxOutput riz) as Hdump.
  destruct (Encoder.dump st1 maxOutput riz) as [frames2 st2]. cbn [fst snd] in *.
  exists (frames1 ++ frames2). split.
  - rewrite map_app, app_nil_r, <- app_assoc. reflexivity.
  - rewrite concat_app, Hdump. exact Hbytes.
Qed.

(** X22: one recording, from [start] on an inactive recorder to [stop], with
    any blocks of samples, timer ticks and further calls of [start] in
    between. [start] returns; the messages posted to the worker are answered
    by a worker in its initial state with data frames and then one end
    message, which leaves the worker in its initial state again; the frames,
    one after the other, are the encodings of all the blocks delivered, in
    order, silent ones included, whatever [removeInitialZeros] and the other
    arguments are; and the recorder is inactive again. *)
Theorem recording_delivers_every_block (env : Env) (timeslice maxOutput : Z)
    (playBack riz : bool) (events : list Event) :
  state (this env) = Session.inactive ->
  Forall (fun ev => is_call_stop ev = false) events ->
  exists env1 msgs cmds frames,
    start timeslice maxOutput playBack riz env = Return env1
    /\ encoder (this (stop (run events env1))) = encoder (this env) ++ msgs
    /\ Forall2 (fun m c => received m = Some c) msgs cmds
    /\ Encoder.run_worker Encoder.init cmds
       = (map Encoder.PostData frames ++ [Encoder.PostEnd], Encoder.init)
    /\ concat frames = flat_map Encoder.le16 (concat (blocks_of events))
    /\ state (this (stop (run events env1))) = Session.inactive.
Proof.
  intros Hst Hev. unfold start. rewrite Hst.
  match goal with |- context [Return ?e] => set (env1 := e) end.
  destruct (recording_run events env1 maxOutput riz eq_refl eq_refl eq_refl Hev)
    as (Hst2 & Hmax2 & Hriz2 & msgs & cmds & Henc & Hrecv & Hkeep & Hbytes).
  destruct (flushed_worker cmds maxOutput riz Encoder.init Hkeep) as (frames & Hrun & Hcat).
  exists env1, (msgs ++ [dump_msg (Some maxOutput) (Some riz); end_msg]),
    (cmds ++ [Encoder.CmdDump maxOutput riz; Encoder.CmdEnd]), frames.
  split; [reflexivity|].
  unfold stop. rewrite Hst2. unfold _postEncoderDump.
  cbn [this postMessage state maxOutputSize removeInitialZeros encoder].
  rewrite Henc, Hmax2, Hriz2. repeat split.
  - subst env1. cbn [this encoder]. rewrite <- !app_assoc. reflexivity.
  - apply Forall2_app; [exact Hrecv|].
    constructor; [reflexivity|]. constructor; [reflexivity|constructor].
  - exact Hrun.
  - rewrite Hcat, Hbytes. reflexivity.
Qed.

(** X22 on a new recorder started with [removeInitialZeros], a silent block,
    a tick, a refused second [start] and a block with sound: three frames,
    with the four bytes of the two blocks. *)
Lemma recording_delivers_every_block_witness :
  exists env1 msgs cmds frames,
    start 120 60000 false true new_env = Return env1
    /\ encoder (this (stop (run [audioprocess [Encoder.Num 0]; interval_fired;
                                 call_start 0 0 false false;
                                 audioprocess [Encoder.Num (1 # 2)]] env1)))
       = encoder (this new_env) ++ msgs
    /\ Forall2 (fun m c => received m = Some c) msgs cmds
    /\ Encoder.run_worker Encoder.init cmds
       = (map Encoder.PostData frames ++ [Encoder.PostEnd], Encoder.init)
    /\ concat frames
       = flat_map Encoder.le16
           (concat (blocks_of [audioprocess [Encoder.Num 0]; interval_fired;
                               call_start 0 0 false false;
                               audioprocess [Encoder.Num (1 # 2)]]))
    /\ state (this (stop (run [audioprocess [Encoder.Num 0]; interval_fired;
                               call_start 0 0 false false;
                               audioprocess [Encoder.Num (1 # 2)]] env1)))
       = Session.inactive.
Proof.
  apply (recording_delivers_every_block new_env 120 60000 false true
           [audioprocess [Encoder.Num 0]; interval_fired; call_start 0 0 false false;
            audioprocess [Encoder.Num (1 # 2)]]).
  - reflexivity.
  - repeat constructor.
Defined.

(** X23: the guards of the recorder. [start] on a recorder that is recording
    throws "recorder is active" and [stop], a block of samples and a timer
    tick on an inactive recorder do nothing: in each case the recorder, the
    messages posted to the worker and the calls on the audio graph are as
    before. *)
Theorem recorder_guards (env : Env) :
  (state (this env) = Session.recording ->
   forall timeslice maxOutput playBack riz,
     start timeslice maxOutput playBack riz env = Throw (Thrown (js "recorder is active"))
     /\ handle (call_start timeslice maxOutput playBack riz) env = env)
  /\ (state (this env) = Session.inactive ->
      stop env = env
      /\ (forall block, onaudioprocess block env = env)
      /\ interval_callback env = env).
Proof.
  split.
  - intros Hst ts mx pb rz. cbn [handle]. unfold start. rewrite Hst. split; reflexivity.
  - intros Hst. unfold stop, onaudioprocess, interval_callback. rewrite Hst.
    repeat split. destruct (slicing (this env)); reflexivity.
Qed.

(** X23 on a recorder that is recording and on a new one. *)
Lemma recorder_guards_witness :
  (forall timeslice maxOutput playBack riz,
     start timeslice maxOutput playBack riz (handle (call_start 120 60000 false false) new_env)
     = Throw (Thrown (js "recorder is active"))
     /\ handle (call_start timeslice maxOutput playBack riz)
          (handle (call_start 120 60000 false false) new_env)
        = handle (call_start 120 60000 false false) new_env)
  /\ stop new_env = new_env
  /\ (forall block, onaudioprocess block new_env = new_env)
  /\ interval_callback new_env = new_env.
Proof.
  split.
  - apply (proj1 (recorder_guards (handle (call_start 120 60000 false false) new_env))).
    reflexivity.
  - apply (proj2 (recorder_guards new_env)). reflexivity.
Defined.

(** ** From the microphone to the socket *)

Lemma dispatched_frames (frames : list (list Z)) :
  map dispatched (map Encoder.PostData frames) = Session.frames_arrive frames.
Proof. unfold Session.frames_arrive. rewrite map_map. reflexivity. Qed.

Lemma audio_sent_of_sent (log : list Session.Effect) :
  Session.audio_sent log
  = flat_map (fun p => match p with Session.Binary data => data | Session.Text _ => [] end)
      (Session.sent log).
Proof.
  induction log as [|e log IH]; [reflexivity|].
  unfold Session.audio_sent, Session.sent in *. cbn [flat_map].
  rewrite flat_map_app, <- IH. destruct e; try destruct data; cbn; rewrite ?app_nil_r;
    reflexivity.
Qed.

Lemma flat_map_Binary (frames : list (list Z)) :
  flat_map (fun p => match p with Session.Binary data => data | Session.Text _ => [] end)
    (map Session.Binary frames)
  = concat frames.
Proof. induction frames as [|m frames IH]; [reflexivity|]. cbn. rewrite IH. reflexivity. Qed.

Lemma three_parts {A} (n m : nat) (l : list A) :
  (n <= m)%nat -> take n l ++ take (m - n) (drop n l) ++ drop m l = l.
Proof.
  intros Hnm.
  replace (drop m l) with (drop (m - n) (drop n l))
    by (rewrite drop_drop; f_equal; lia).
  rewrite take_drop, take_drop. reflexivity.
Qed.

(** X24: from the microphone to the socket. A session that has just got the
    microphone starts its recorder as [_startRecording] does; blocks of
    samples and timer ticks follow, and the recorder is stopped. The worker
    answers with data frames and one end message. However these frames fall
    between the opening of the socket and the user's [stop()], as long as
    at most 100 come before the socket is open, the session ends in
    [FinishingProcessing] and the audio bytes it has sent are the encodings
    of all the blocks, in order: no sample is lost, repeated or moved. *)
Theorem recorded_audio_reaches_service (JSON_parse : jsstring -> option json)
    (JSON_stringify : json -> jsstring) (renv : Env) (revents : list Event)
    (env : Session.Env) :
  state (this renv) = Session.inactive ->
  Forall (fun ev => is_call_stop ev = false) revents ->
  Session.reachable JSON_parse JSON_stringify env ->
  Session._state (Session.this env) = Session.OpeningWebSocket ->
  Session._queuedMessages (Session.this env) = Some [] ->
  exists renv1 msgs cmds frames,
    start Session.RecorderTimeSlice_ms Session.MaxOutputSize_B false false renv = Return renv1
    /\ encoder (this (stop (run revents renv1))) = encoder (this renv) ++ msgs
    /\ Forall2 (fun m c => received m = Some c) msgs cmds
    /\ Encoder.run_worker Encoder.init cmds
       = (map Encoder.PostData frames ++ [Encoder.PostEnd], Encoder.init)
    /\ forall n m : nat,
         (n <= 100)%nat -> (n <= m)%nat ->
         let env' :=
           Session.run JSON_parse JSON_stringify
             (map dispatched (map Encoder.PostData (take n frames))
              ++ [Session.webSocket_onopen]
              ++ map dispatched (map Encoder.PostData (take (m - n) (drop n frames)))
              ++ [Session.call_stop]
              ++ map dispatched (map Encoder.PostData (drop m frames) ++ [Encoder.PostEnd]))
             env in
         Session._state (Session.this env') = Session.FinishingProcessing
         /\ Session.audio_sent (Session.effects env')
            = Session.audio_sent (Session.effects env)
              ++ flat_map Encoder.le16 (concat (blocks_of revents)).
Proof.
  intros Hst Hev Hreach Hopening Hq. unfold start. rewrite Hst.
  match goal with |- context [Return ?e] => set (renv1 := e) end.
  destruct (recording_run revents renv1 Session.MaxOutputSize_B false
              eq_refl eq_refl eq_refl Hev)
    as (Hst2 & Hmax2 & Hriz2 & msgs & cmds & Henc & Hrecv & Hkeep & Hbytes).
  destruct (flushed_worker cmds Session.MaxOutputSize_B false Encoder.init Hkeep)
    as (frames & Hrun & Hcat).
  exists renv1, (msgs ++ [dump_msg (Some Session.MaxOutputSize_B) (Some false); end_msg]),
    (cmds ++ [Encoder.CmdDump Session.MaxOutputSize_B false; Encoder.CmdEnd]), frames.
  split; [reflexivity|].
  split.
  { unfold stop. rewrite Hst2. unfold _postEncoderDump.
    cbn [this postMessage state maxOutputSize removeInitialZeros encoder].
    rewrite Henc, Hmax2, Hriz2. subst renv1. cbn [this encoder].
    rewrite <- !app_assoc. reflexivity. }
  split.
  { apply Forall2_app; [exact Hrecv|].
    constructor; [reflexivity|]. constructor; [reflexivity|constructor]. }
  split; [exact Hrun|].
  intros n m Hn Hnm. cbv zeta.
  pose proof (SessionProofs.reachable_resources _ _ _ Hreach) as Hres.
  unfold Session.resources_by_state in Hres. rewrite Hopening in Hres.
  destruct Hres as (stream & q & Hs & Hr & Hws & Hq').
  assert (q = []) as -> by congruence.
  rewrite map_app, !dispatched_frames. cbn [map dispatched].
  destruct (SessionProofs.audio_path JSON_parse JSON_stringify env stream []
              (take n frames) (take (m - n) (drop n frames)) (drop m frames)
              Hopening Hs Hr Hws Hq' ltac:(simpl; lia)) as [Hend Hsent].
  split; [exact Hend|].
  rewrite !audio_sent_of_sent, Hsent, !flat_map_app, flat_map_Binary.
  cbn [app flat_map]. rewrite app_nil_r.
  rewrite (take_ge (take n frames)) by (rewrite length_take; lia).
  rewrite (three_parts n m frames Hnm), Hcat, Hbytes. reflexivity.
Qed.

(** X24 on a new recorder and the session that has just got the microphone:
    a silent block, a tick and a block with sound. *)
Lemma recorded_audio_reaches_service_witness :
  exists renv1 msgs cmds frames,
    start Session.RecorderTimeSlice_ms Session.MaxOutputSize_B false false new_env
    = Return renv1
    /\ encoder (this (stop (run [audioprocess [Encoder.Num 0]; interval_fired;
                                 audioprocess [Encoder.Num (1 # 2)]] renv1)))
       = encoder (this new_env) ++ msgs
    /\ Forall2 (fun m c => received m = Some c) msgs cmds
    /\ Encoder.run_worker Encoder.init cmds
       = (map Encoder.PostData frames ++ [Encoder.PostEnd], Encoder.init)
    /\ forall n m : nat,
         (n <= 100)%nat -> (n <= m)%nat ->
         let env' :=
           Session.run Session.parse_nothing Session.stringify_stub
             (map dispatched (map Encoder.PostData (take n frames))
              ++ [Session.webSocket_onopen]
              ++ map dispatched (map Encoder.PostData (take (m - n) (drop n frames)))
              ++ [Session.call_stop]
              ++ map dispatched (map Encoder.PostData (drop m frames) ++ [Encoder.PostEnd]))
             Session.opening_env in
         Session._state (Session.this env') = Session.FinishingProcessing
         /\ Session.audio_sent (Session.effects env')
            = Session.audio_sent (Session.effects Session.opening_env)
              ++ flat_map Encoder.le16
                   (concat (blocks_of [audioprocess [Encoder.Num 0]; interval_fired;
                                       audioprocess [Encoder.Num (1 # 2)]])).
Proof.
  apply (recorded_audio_reaches_service Session.parse_nothing Session.stringify_stub new_env
           [audioprocess [Encoder.Num 0]; interval_fired; audioprocess [Encoder.Num (1 # 2)]]
           Session.opening_env).
  - reflexivity.
  - repeat constructor.
  - exact SessionProofs.reachable_opening_env.
  - vm_compute. reflexivity.
  - vm_compute. reflexivity.
Defined.

End RecorderProofs.
